(** * Voice-driven card matching and disambiguation (YGO pack ripper)

    A shallow embedding of the matching-and-disambiguation code of
    [oldIteration.py] (class [YGORipperUI]): [process_voice_input],
    [handle_voice_selection], [find_and_present_card_options],
    [calculate_name_confidence], [calculate_rarity_confidence],
    [get_card_rarity_display], [ensure_unique_confidence_scores],
    [show_voice_card_options] and [add_card_to_session].

    Modelling conventions.
    - Python [str] is [string]; the characters are the ASCII ones.
    - Python numbers ([int] and [float] mixed freely by the code) are
      rationals [Q]: an [int] is itself, a [float] is the exact value of a
      double, and every floating-point operation of the scoring code rounds
      its exact result to the nearest double ([fl]). The tie-breaking loop
      is given in exact arithmetic and on binary64 numbers.
    - [fuzz.ratio] and [fuzz.token_set_ratio] come from the fuzzywuzzy
      library: the scoring code takes them as parameters returning
      integers ([Z]); a reference instance serves to run examples.
    - The dict-shaped card records are records whose optional keys are
      [option] fields; a missing key read with [d['k']] raises [KeyError].
    - Callbacks scheduled with [root.after(0, ...)] run at once; widgets,
      threads and the clock are left out, what they would show or send is
      recorded as a list of events. *)

From Stdlib Require Import List String Ascii ZArith QArith Qround Qpower Bool Lia Lqa.
From Stdlib Require Import PrimFloat FloatOps SpecFloat Uint63.
From Stdlib Require Import Permutation.
Import ListNotations.

Close Scope Q_scope.
Local Open Scope string_scope.
Local Open Scope nat_scope.

(** ** Python string primitives *)

Module PyStr.

Definition code (c : ascii) : nat := nat_of_ascii c.

(** [str.isspace] / regex [\s] on ASCII: TAB..CR, FS..US and the space. *)
Definition is_space (c : ascii) : bool :=
  let n := code c in
  ((9 <=? n) && (n <=? 13)) || ((28 <=? n) && (n <=? 32)).

(** regex [\d] on ASCII. *)
Definition is_digit (c : ascii) : bool :=
  let n := code c in (48 <=? n) && (n <=? 57).

Definition is_upper (c : ascii) : bool :=
  let n := code c in (65 <=? n) && (n <=? 90).

Definition is_lower (c : ascii) : bool :=
  let n := code c in (97 <=? n) && (n <=? 122).

(** regex [\w] on ASCII: letters, digits and the underscore. *)
Definition is_word (c : ascii) : bool :=
  is_upper c || is_lower c || is_digit c || (code c =? 95).

Definition lower_char (c : ascii) : ascii :=
  if is_upper c then ascii_of_nat (code c + 32) else c.

(** [s.lower()] *)
Fixpoint lower (s : string) : string :=
  match s with
  | EmptyString => EmptyString
  | String c t => String (lower_char c) (lower t)
  end.

Fixpoint lstrip (s : string) : string :=
  match s with
  | EmptyString => EmptyString
  | String c t => if is_space c then lstrip t else s
  end.

Fixpoint rstrip (s : string) : string :=
  match s with
  | EmptyString => EmptyString
  | String c t =>
      match rstrip t with
      | EmptyString => if is_space c then EmptyString else String c EmptyString
      | t' => String c t'
      end
  end.

(** [s.strip()] *)
Definition strip (s : string) : string := rstrip (lstrip s).

(** [sub in s] *)
Fixpoint contains (sub s : string) : bool :=
  prefix sub s ||
  match s with
  | EmptyString => false
  | String _ t => contains sub t
  end.

(** [s.split()]: maximal runs of non-space characters. [cur] is the run
    being read, reversed into place by appending. *)
Fixpoint split_aux (cur : string) (s : string) : list string :=
  match s with
  | EmptyString => if (String.eqb cur "") then [] else [cur]
  | String c t =>
      if is_space c
      then (if (String.eqb cur "") then split_aux "" t else cur :: split_aux "" t)
      else split_aux (cur ++ String c "") t
  end.

Definition split (s : string) : list string := split_aux "" s.

(** [sep.join(l)] *)
Fixpoint join (sep : string) (l : list string) : string :=
  match l with
  | [] => ""
  | [x] => x
  | x :: r => x ++ sep ++ join sep r
  end.

Fixpoint drop (n : nat) (s : string) : string :=
  match n, s with
  | O, _ => s
  | S n', String _ t => drop n' t
  | S _, EmptyString => EmptyString
  end.

(** [s.replace(old, new)] for a non-empty [old]: occurrences are taken
    left to right and do not overlap. [skip] counts the characters of an
    occurrence still to be dropped. *)
Fixpoint replace_aux (old new : string) (skip : nat) (s : string) : string :=
  match s with
  | EmptyString => EmptyString
  | String c t =>
      match skip with
      | S k => replace_aux old new k t
      | O =>
          if prefix old s
          then new ++ replace_aux old new (String.length old - 1) t
          else String c (replace_aux old new 0 t)
      end
  end.

Definition replace (old new s : string) : string := replace_aux old new 0 s.

Fixpoint filter (p : ascii -> bool) (s : string) : string :=
  match s with
  | EmptyString => EmptyString
  | String c t => if p c then String c (filter p t) else filter p t
  end.

(** [int(s)] for a string of ASCII digits. *)
Fixpoint int_aux (acc : Z) (s : string) : Z :=
  match s with
  | EmptyString => acc
  | String c t => int_aux (10 * acc + Z.of_nat (code c - 48)) t
  end.

Definition int (s : string) : Z := int_aux 0 s.

End PyStr.

(** ** The fragment of Python's [re] the code uses *)

Module Re.

(** Patterns: literals, character classes, a quantified character class
    ([*], [+], [*?], [+?] only ever apply to a class in the source), the
    anchors, sequence, alternation and the one capturing group. *)
Inductive regex : Type :=
| Lit (c : ascii)
| Cls (p : ascii -> bool)
| Rep (greedy : bool) (least : nat) (p : ascii -> bool)
| Bol
| Eol
| Cat (r1 r2 : regex)
| Alt (r1 r2 : regex)
| Grp (r : regex).

(** A literal word. *)
Fixpoint Str (s : string) : regex :=
  match s with
  | EmptyString => Rep true 0 (fun _ => false)
  | String c EmptyString => Lit c
  | String c t => Cat (Lit c) (Str t)
  end.

(** [.] does not match a newline. *)
Definition dot (c : ascii) : bool := negb (PyStr.code c =? 10).

(** A match in progress: what is left of the subject, and group 1. *)
Definition cont (T : Type) : Type := string -> option string -> option T.

Section Matching.
Context {T : Type}.
Variable whole : string.

(** Backtracking over a quantified class: a greedy one tries the longer
    match first, a lazy one the shorter. *)
Fixpoint rep (greedy : bool) (least : nat) (p : ascii -> bool)
         (rest : string) (g : option string) (k : cont T) : option T :=
  match least with
  | S l =>
      match rest with
      | String c t => if p c then rep greedy l p t g k else None
      | EmptyString => None
      end
  | O =>
      match rest with
      | String c t =>
          if p c then
            if greedy then
              match rep greedy 0 p t g k with
              | Some x => Some x
              | None => k rest g
              end
            else
              match k rest g with
              | Some x => Some x
              | None => rep greedy 0 p t g k
              end
          else k rest g
      | EmptyString => k rest g
      end
  end.

Fixpoint run (r : regex) (rest : string) (g : option string)
         (k : cont T) : option T :=
  match r with
  | Lit c =>
      match rest with
      | String d t => if Ascii.eqb c d then k t g else None
      | EmptyString => None
      end
  | Cls p =>
      match rest with
      | String d t => if p d then k t g else None
      | EmptyString => None
      end
  | Rep greedy least p => rep greedy least p rest g k
  | Bol =>
      if (String.length rest =? String.length whole) then k rest g else None
  | Eol =>
      (* end of the subject, or just before a final newline *)
      match rest with
      | EmptyString => k rest g
      | String c EmptyString =>
          if (PyStr.code c =? 10) then k rest g else None
      | _ => None
      end
  | Cat r1 r2 => run r1 rest g (fun rest' g' => run r2 rest' g' k)
  | Alt r1 r2 =>
      match run r1 rest g k with
      | Some x => Some x
      | None => run r2 rest g k
      end
  | Grp r1 =>
      run r1 rest g
          (fun rest' _ =>
             k rest' (Some (substring 0 (String.length rest - String.length rest') rest)))
  end.
End Matching.

(** A match object: [group(0)], [group(1)] and what follows the match. *)
Record mtch : Type := { group0 : string; group1 : option string; after : string }.

Definition match_at (whole : string) (r : regex) (rest : string) : option mtch :=
  run whole r rest None
      (fun rest' g =>
         Some {| group0 := substring 0 (String.length rest - String.length rest') rest;
                 group1 := g;
                 after := rest' |}).

Fixpoint search_from (whole : string) (r : regex) (rest : string) : option mtch :=
  match match_at whole r rest with
  | Some m => Some m
  | None =>
      match rest with
      | EmptyString => None
      | String _ t => search_from whole r t
      end
  end.

(** [re.search(pattern, s)]: the leftmost match. *)
Definition search (r : regex) (s : string) : option mtch := search_from s r s.

(** [re.sub(pattern, repl, s)] with a plain replacement text. [skip]
    counts the characters of the current match still to be dropped. *)
Fixpoint sub_from (whole : string) (r : regex) (repl : string)
         (skip : nat) (rest : string) : string :=
  match rest with
  | EmptyString =>
      match match_at whole r rest with
      | Some _ => repl
      | None => EmptyString
      end
  | String c t =>
      match skip with
      | S k => sub_from whole r repl k t
      | O =>
          match match_at whole r rest with
          | Some m =>
              match String.length (group0 m) with
              | O => repl ++ String c (sub_from whole r repl 0 t)
              | S k => repl ++ sub_from whole r repl k t
              end
          | None => String c (sub_from whole r repl 0 t)
          end
      end
  end.

Definition sub (r : regex) (repl s : string) : string := sub_from s r repl 0 s.

End Re.

(** ** Data model *)

(** Exceptions the modelled code can raise. *)
Inductive exn : Type :=
| KeyError (key : string)
| IndexError
| UnboundLocalError (variable : string).

Inductive result (A : Type) : Type :=
| Ok (a : A)
| Raise (e : exn).
Arguments Ok {A} a.
Arguments Raise {A} e.

(** One entry of a card's ['card_sets'] list; both keys are read with
    [.get(key, default)]. *)
Record card_set : Type := {
  set_rarity : option string;
  set_code : option string
}.

(** A catalog card (an element of [pack_session.set_cards]). *)
Record card : Type := {
  name : option string;
  card_sets : option (list card_set)
}.

(** A row of [card_matches] in the first pass. *)
Record card_match : Type := {
  m_card_data : card;
  m_confidence : Q;
  m_name : string;
  m_rarity : string
}.

(** A row of [final_variants]; also an element of [pending_card_options]. *)
Record variant : Type := {
  v_card_data : card;
  v_confidence : Q;
  v_name : string;
  v_rarity : string;
  v_set_code : string;
  v_variant_key : string;
  v_is_priority : bool
}.

(** [pending_voice_data] when it is not the empty dict. *)
Record voice_data : Type := {
  original_input : string;
  vd_art_variant : option string;
  vd_rarity : option string
}.

(** The [loading_card] dict handed to [pack_session.add_card]. *)
Record session_card : Type := {
  sc_card_data : card;           (* the keys spread from [**card_data] *)
  sc_card_name : string;
  sc_card_rarity : string;
  sc_art_variant : string;
  sc_quantity : Z
}.

(** The [payload] dict of the price request. *)
Record price_payload : Type := {
  pp_card_number : string;
  pp_card_name : string;
  pp_card_rarity : string;
  pp_art_variant : string;
  pp_force_refresh : bool
}.

(** Texts set on [voice_status_var]. *)
Inductive status : Type :=
| InvalidSelection (n : nat)       (* "Invalid selection. Please say 1-n" *)
| SelectionCancelled               (* "Selection cancelled, continue speaking..." *)
| SayANumber (n : nat)             (* "Say a number 1-n or 'cancel'" *)
| NoMatchesFound (card_name : string)
| NoVariantsFound (card_name : string)
| NoOptionsToDisplay
| AutoConfirmed (card_name rarity : string) (confidence : Q)
| WaitingForSelection (n : nat)
| Added (card_name rarity : string).

(** What the code shows, logs or sends. *)
Inductive event : Type :=
| SetStatus (s : status)
| Processed (card_name : string) (rarity art_variant : option string)
      (* the log line of [process_voice_input] before it starts a search *)
| ShowDialog (options : list variant) (original_input : string)
             (art_variant rarity : option string)
| FetchPrice (payload : result price_payload).

(** The fields of [YGORipperUI] (and of its [pack_session]) the code reads
    or writes. *)
Record app : Type := {
  set_cards : list card;
  cards : list session_card;
  session_tracker : bool;
  pending_voice_confirmation : bool;
  pending_card_options : list variant;
  pending_voice_data : option voice_data;
  voice_status_locked : bool;
  auto_rarity_enabled : bool;
  auto_art_rarity_enabled : bool;
  auto_confirm_var : bool;
  auto_confirm_threshold_var : option Z   (* [None]: the text is not an integer *)
}.

Definition set_pending (a : app) (flag : bool) (opts : list variant) : app :=
  {| set_cards := set_cards a; cards := cards a;
     session_tracker := session_tracker a;
     pending_voice_confirmation := flag;
     pending_card_options := opts;
     pending_voice_data := pending_voice_data a;
     voice_status_locked := voice_status_locked a;
     auto_rarity_enabled := auto_rarity_enabled a;
     auto_art_rarity_enabled := auto_art_rarity_enabled a;
     auto_confirm_var := auto_confirm_var a;
     auto_confirm_threshold_var := auto_confirm_threshold_var a |}.

Definition set_voice_data (a : app) (d : option voice_data) : app :=
  {| set_cards := set_cards a; cards := cards a;
     session_tracker := session_tracker a;
     pending_voice_confirmation := pending_voice_confirmation a;
     pending_card_options := pending_card_options a;
     pending_voice_data := d;
     voice_status_locked := voice_status_locked a;
     auto_rarity_enabled := auto_rarity_enabled a;
     auto_art_rarity_enabled := auto_art_rarity_enabled a;
     auto_confirm_var := auto_confirm_var a;
     auto_confirm_threshold_var := auto_confirm_threshold_var a |}.

Definition set_locked (a : app) (b : bool) : app :=
  {| set_cards := set_cards a; cards := cards a;
     session_tracker := session_tracker a;
     pending_voice_confirmation := pending_voice_confirmation a;
     pending_card_options := pending_card_options a;
     pending_voice_data := pending_voice_data a;
     voice_status_locked := b;
     auto_rarity_enabled := auto_rarity_enabled a;
     auto_art_rarity_enabled := auto_art_rarity_enabled a;
     auto_confirm_var := auto_confirm_var a;
     auto_confirm_threshold_var := auto_confirm_threshold_var a |}.

Definition push_card (a : app) (c : session_card) : app :=
  {| set_cards := set_cards a; cards := cards a ++ [c];
     session_tracker := session_tracker a;
     pending_voice_confirmation := pending_voice_confirmation a;
     pending_card_options := pending_card_options a;
     pending_voice_data := pending_voice_data a;
     voice_status_locked := voice_status_locked a;
     auto_rarity_enabled := auto_rarity_enabled a;
     auto_art_rarity_enabled := auto_art_rarity_enabled a;
     auto_confirm_var := auto_confirm_var a;
     auto_confirm_threshold_var := auto_confirm_threshold_var a |}.

(** Python truthiness of an optional text: [None] and [''] are false. *)
Definition truthy (o : option string) : bool :=
  match o with
  | Some s => negb (String.eqb s "")
  | None => false
  end.

(** [o or d] for an optional text. *)
Definition or_else (o : option string) (d : string) : string :=
  match o with
  | Some s => if String.eqb s "" then d else s
  | None => d
  end.

(** [d.get(key, default)] on an optional field. *)
Definition get {A : Type} (o : option A) (default : A) : A :=
  match o with
  | Some x => x
  | None => default
  end.

(** ** Committing a card to the session *)

(** [get_card_rarity_display] *)
Definition get_card_rarity_display (c : card) (specified_rarity : option string) : string :=
  if truthy specified_rarity then get specified_rarity ""
  else
    match get (card_sets c) [] with
    | cs :: _ => get (set_rarity cs) "Unknown"
    | [] => "Unknown"
    end.

(** The payload built by [fetch_price_and_update]: the card number is the
    set code of the first entry of ['card_sets'] ([[{}]] when the key is
    missing; an empty list raises). *)
Definition price_request (card_data : card) (art_variant : option string)
           (final_rarity : string) : result price_payload :=
  match get (card_sets card_data) [ {| set_rarity := None; set_code := None |} ] with
  | first :: _ =>
      Ok {| pp_card_number := get (set_code first) "";
            pp_card_name := get (name card_data) "";
            pp_card_rarity := final_rarity;
            pp_art_variant := or_else art_variant "";
            pp_force_refresh := false |}
  | [] => Raise IndexError
  end.

(** [add_card_to_session] *)
Definition add_card_to_session (a : app) (card_data : card)
           (art_variant rarity : option string) : app * list event :=
  let final_rarity := or_else rarity (get_card_rarity_display card_data rarity) in
  let loading_card :=
    {| sc_card_data := card_data;
       sc_card_name := get (name card_data) "Unknown Card";
       sc_card_rarity := final_rarity;
       sc_art_variant := or_else art_variant "None";
       sc_quantity := 1%Z |} in
  let a1 := push_card a loading_card in
  if negb (session_tracker a1) then (a1, [])
  else
    (set_locked a1 true,
     [SetStatus (Added (get (name card_data) "Card") final_rarity);
      FetchPrice (price_request card_data art_variant final_rarity)]).

(** ** Answering a pending selection *)

Definition seq (l : list Re.regex) : Re.regex :=
  fold_right Re.Cat (Re.Rep true 0 (fun _ => false)) l.

Definition spaces0 : Re.regex := Re.Rep true 0 PyStr.is_space.   (* \s* *)
Definition spaces1 : Re.regex := Re.Rep true 1 PyStr.is_space.   (* \s+ *)
Definition digits1 : Re.regex := Re.Rep true 1 PyStr.is_digit.   (* \d+ *)

Definition number_patterns : list Re.regex :=
  [ seq [Re.Bol; spaces0; Re.Grp digits1; spaces0; Re.Eol];   (* ^\s*(\d+)\s*$ *)
    seq [Re.Str "option"; spaces1; Re.Grp digits1];           (* option\s+(\d+) *)
    seq [Re.Str "select"; spaces1; Re.Grp digits1];           (* select\s+(\d+) *)
    seq [Re.Str "choose"; spaces1; Re.Grp digits1];           (* choose\s+(\d+) *)
    seq [Re.Str "number"; spaces1; Re.Grp digits1] ].         (* number\s+(\d+) *)

Definition reject_words : list string :=
  [ "reject"; "cancel"; "no"; "none"; "skip" ].

Definition reject_patterns : list Re.regex := map Re.Str reject_words.

(** The first pattern of the list that matches, with its match object. *)
Fixpoint first_search (ps : list Re.regex) (text : string) : option Re.mtch :=
  match ps with
  | [] => None
  | p :: rest =>
      match Re.search p text with
      | Some m => Some m
      | None => first_search rest text
      end
  end.

Definition matches (text : string) (p : Re.regex) : bool :=
  match Re.search p text with
  | Some _ => true
  | None => false
  end.

(** [pending_voice_data.get('art_variant')] *)
Definition pending_art_variant (a : app) : option string :=
  match pending_voice_data a with
  | Some d => vd_art_variant d
  | None => None
  end.

(** The three assignments that drop the pending selection. *)
Definition clear_pending (a : app) : app :=
  set_voice_data (set_pending a false []) None.

(** Committing one option: the tail shared by the spoken ordinal and the
    dialog button. *)
Definition commit_option (a : app) (selected_option : variant)
           (art_variant : option string) : app * list event :=
  let a1 := set_pending a false [] in
  let '(a2, ev) :=
    add_card_to_session a1 (v_card_data selected_option) art_variant
                        (Some (v_rarity selected_option)) in
  (set_voice_data a2 None, ev).

(** [handle_voice_selection] *)
Definition handle_voice_selection (a : app) (voice_text : string) : app * list event :=
  let n := List.length (pending_card_options a) in
  match first_search number_patterns voice_text with
  | Some m =>
      let selection_index := (PyStr.int (get (Re.group1 m) "") - 1)%Z in
      if ((0 <=? selection_index)%Z && (selection_index <? Z.of_nat n)%Z)%bool then
        match nth_error (pending_card_options a) (Z.to_nat selection_index) with
        | Some selected_option =>
            commit_option a selected_option (pending_art_variant a)
        | None => (a, [])   (* not reached: the index is in range *)
        end
      else (a, [SetStatus (InvalidSelection n)])
  | None =>
      if existsb (matches voice_text) reject_patterns
      then (clear_pending a, [SetStatus SelectionCancelled])
      else (a, [SetStatus (SayANumber n)])
  end.

(** The dialog's [select_option(index)] closure over [card_matches] and
    [art_variant]. *)
Definition select_option (card_matches : list variant) (art_variant : option string)
           (a : app) (index : Z) : app * list event :=
  if ((0 <=? index)%Z && (index <? Z.of_nat (List.length card_matches))%Z)%bool then
    match nth_error card_matches (Z.to_nat index) with
    | Some selected_option => commit_option a selected_option art_variant
    | None => (a, [])
    end
  else (a, []).

(** The dialog's [cancel_selection] closure. *)
Definition cancel_selection (a : app) : app * list event :=
  (clear_pending a, [SetStatus SelectionCancelled]).

(** [show_voice_card_options] *)
Definition show_voice_card_options (a : app) (card_matches : list variant)
           (original_input : string) (art_variant rarity : option string)
  : app * list event :=
  let a1 :=
    set_voice_data (set_pending a true card_matches)
                   (Some {| original_input := original_input;
                            vd_art_variant := art_variant;
                            vd_rarity := rarity |}) in
  match card_matches with
  | [] => (clear_pending a1, [SetStatus NoOptionsToDisplay])
  | _ =>
      (a1, [ShowDialog card_matches original_input art_variant rarity;
            SetStatus (WaitingForSelection (List.length card_matches))])
  end.

(** ** Numbers *)

Definition Qltb (a b : Q) : bool := negb (Qle_bool b a).

(** [max(a, b)] and [min(a, b)] keep their first argument unless the second
    is strictly better. *)
Definition py_max (a b : Q) : Q := if Qltb a b then b else a.
Definition py_min (a b : Q) : Q := if Qltb b a then b else a.

Definition Zq (z : Z) : Q := inject_Z z.

(** [round(x, 1)]: to the nearest tenth, ties to the even one. *)
Definition round_half_even (x : Q) : Z :=
  let f := Qfloor x in
  let d := Qminus x (Zq f) in
  match Qcompare d (1 # 2) with
  | Lt => f
  | Gt => (f + 1)%Z
  | Eq => if Z.even f then f else (f + 1)%Z
  end.

Definition round1 (x : Q) : Q :=
  Qred (Qmake (round_half_even (Qmult x (Zq 10))) 10).

(** ** Double-precision arithmetic

    A Python [float] is an IEEE 754 double. A score is kept as the exact
    rational value of the double; an operation on floats computes the exact
    result and rounds it to the nearest double: 53 significant bits, ties
    to the even significand. The exponent range is left out: the scores
    and the quotients of word counts the code computes are far from the
    smallest and the largest double. *)

(** [floor(log2 x)] of a positive rational. *)
Definition ilog2 (x : Q) : Z :=
  let k := (Z.log2 (Qnum x) - Z.log2 (Zpos (Qden x)))%Z in
  if Qle_bool (2 ^ k)%Q x then k else (k - 1)%Z.

(** The double nearest to a positive rational. *)
Definition fl_pos (x : Q) : Q :=
  let e := (ilog2 x - 52)%Z in
  Qred (Zq (round_half_even (x * 2 ^ (- e))%Q) * 2 ^ e)%Q.

(** The double nearest to a rational. *)
Definition fl (x : Q) : Q :=
  match Qnum x with
  | Z0 => 0%Q
  | Zpos _ => fl_pos x
  | Zneg _ => (- fl_pos (- x))%Q
  end.

(** [a * b], [a / b] and [a + b] on floats. *)
Definition fmul (a b : Q) : Q := fl (a * b)%Q.
Definition fdiv (a b : Q) : Q := fl (a / b)%Q.
Definition fadd (a b : Q) : Q := fl (a + b)%Q.

(** ** Confidence tie-breaking *)

(** [c in used_scores] *)
Definition in_scores (c : Q) (used : list Q) : bool := existsb (Qeq_bool c) used.

(** The inner loop of [ensure_unique_confidence_scores], entered when the
    downward search fell below 10: climb by 0.1 from just above the original
    score, giving up above 99. *)
Fixpoint climb (fuel : nat) (used : list Q) (c : Q) : Q :=
  match fuel with
  | O => c
  | S f =>
      if in_scores c used then
        let c' := Qplus c (1 # 10) in
        if Qltb (Zq 99) c' then c' else climb f used c'
      else c
  end.

(** The outer loop: go down by 0.1 while the score is taken. *)
Fixpoint descend (fuel : nat) (used : list Q) (original c : Q) : Q :=
  match fuel with
  | O => c
  | S f =>
      if in_scores c used then
        let c' := Qminus c (1 # 10) in
        if Qltb c' (Zq 10)
        then climb (S (List.length used)) used (Qplus original (1 # 10))
        else descend f used original c'
      else c
  end.

(** Every turn of either loop that goes on has just hit a score of
    [used], and no score is hit twice (the walk is strictly monotone), so
    one more turn than [used] has elements is enough. *)
Definition unique_confidence (used : list Q) (original : Q) : Q :=
  round1 (descend (S (List.length used)) used original original).

Definition set_confidence (v : variant) (c : Q) : variant :=
  {| v_card_data := v_card_data v; v_confidence := c; v_name := v_name v;
     v_rarity := v_rarity v; v_set_code := v_set_code v;
     v_variant_key := v_variant_key v; v_is_priority := v_is_priority v |}.

Fixpoint ensure_unique_from (used : list Q) (variants : list variant) : list variant :=
  match variants with
  | [] => []
  | v :: rest =>
      let c := unique_confidence used (v_confidence v) in
      set_confidence v c :: ensure_unique_from (c :: used) rest
  end.

(** [ensure_unique_confidence_scores]: the list after the in-place update. *)
Definition ensure_unique_confidence_scores (variants : list variant) : list variant :=
  ensure_unique_from [] variants.

(** ** Sorting by confidence *)

(** [final_variants.sort(key=lambda v: -v['confidence'])]: Python's sort is
    stable, so the result is the one of a stable insertion sort. *)
Fixpoint insert_variant (x : variant) (l : list variant) : list variant :=
  match l with
  | [] => [x]
  | y :: r =>
      if Qle_bool (v_confidence y) (v_confidence x)
      then x :: l
      else y :: insert_variant x r
  end.

Definition sort_by_confidence (l : list variant) : list variant :=
  fold_right insert_variant [] l.

(** ** Scoring and ranking *)

(** The [substitutions] table of [get_card_name_variants], in source order. *)
Definition substitutions : list (string * list string) :=
  [ ("yu", ["you"; "u"]);
    ("gi", ["gee"; "ji"]);
    ("oh", ["o"]);
    ("elemental", ["elemental"; "element"]);
    ("hero", ["hiro"; "heero"; "hero"]);
    ("evil", ["evil"; "evel"]);
    ("dark", ["dark"; "drak"]);
    ("gaia", ["gaia"; "gaya"; "guy"; "gya"]);
    ("cyber", ["siber"; "cyber"]);
    ("dragon", ["drago"; "drag"]);
    ("magician", ["magic"; "mage"]);
    ("warrior", ["war"; "warrior"]);
    ("machine", ["mach"; "machin"]);
    ("beast", ["best"; "beast"]);
    ("fiend", ["fend"; "fiend"]);
    ("spellcaster", ["spell"; "caster"]);
    ("aqua", ["agua"; "aqua"]);
    ("winged", ["wing"; "winged"]);
    ("thunder", ["under"; "thunder"]);
    ("zombie", ["zomb"; "zombie"]);
    ("plant", ["plan"; "plant"]);
    ("insect", ["insec"; "insect"]);
    ("rock", ["rok"; "rock"]);
    ("pyro", ["fire"; "pyro"]);
    ("sea", ["see"; "sea"]);
    ("divine", ["divin"; "divine"]);
    ("metal flame", ["metalflame"; "metal flame"]);
    ("flame", ["flame"; "flam"]);
    ("metal", ["metal"; "mettle"]) ].

(** [''.join(words[:i]) + ' ' + ' '.join(words[i:])] for [i] in
    [range(1, len(words))]; [done] is [words[:i]] already fused. *)
Fixpoint compound_variants (done : string) (words : list string) : list string :=
  match words with
  | [] => []
  | w :: rest =>
      match rest with
      | [] => []
      | _ => ((done ++ w) ++ " " ++ PyStr.join " " rest)
               :: compound_variants (done ++ w) rest
      end
  end.

(** The order-preserving removal of duplicates, compared in lower case. *)
Fixpoint unique_variants (seen : list string) (variants : list string) : list string :=
  match variants with
  | [] => []
  | v :: rest =>
      if existsb (String.eqb (PyStr.lower v)) seen
      then unique_variants seen rest
      else v :: unique_variants (PyStr.lower v :: seen) rest
  end.

(** [get_card_name_variants] *)
Definition get_card_name_variants (name : string) : list string :=
  let lower_name := PyStr.lower name in
  let phonetic :=
    flat_map
      (fun '(original, alternatives) =>
         if PyStr.contains original lower_name
         then map (fun alt => PyStr.replace original alt lower_name) alternatives
         else [])
      substitutions in
  let words := PyStr.split lower_name in
  let compound :=
    if (2 <=? List.length words)
    then PyStr.join "" words :: compound_variants "" words
    else [] in
  unique_variants [] ([name] ++ phonetic ++ compound)%list.

(** [re.sub(r'[^\w\s]', '', s.lower())] *)
Definition clean (s : string) : string :=
  PyStr.filter (fun c => PyStr.is_word c || PyStr.is_space c) (PyStr.lower s).

Section Scoring.

(** The two functions of the fuzzywuzzy library the code calls. *)
Variable fuzz_ratio : string -> string -> Z.
Variable fuzz_token_set_ratio : string -> string -> Z.

(** Method 1 of [calculate_name_confidence]. *)
Fixpoint best_fuzzy_from (best : Z) (card_name : string) (search_variants : list string) : Z :=
  match search_variants with
  | [] => best
  | v :: rest =>
      let score := fuzz_token_set_ratio (PyStr.lower v) (PyStr.lower card_name) in
      best_fuzzy_from (Z.max best score) card_name rest
  end.

(** The loop over [card_words] for one input word, with its [break]. *)
Fixpoint best_word_match_from (best : Z) (input_word : string) (card_words : list string) : Z :=
  match card_words with
  | [] => best
  | card_word :: rest =>
      if (3 <=? String.length card_word) && (3 <=? String.length input_word)
         && (PyStr.contains input_word card_word || PyStr.contains card_word input_word)
      then 100%Z
      else best_word_match_from (Z.max best (fuzz_ratio input_word card_word))
                                input_word rest
  end.

(** The number of input words that find a good match in the card name. *)
Fixpoint matched_words (input_words card_words : list string) : nat :=
  match input_words with
  | [] => 0
  | w :: rest =>
      (if (2 <=? String.length w) && (80 <=? best_word_match_from 0 w card_words)%Z
       then 1 else 0) + matched_words rest card_words
  end.

(** [calculate_name_confidence]. When the spoken name or the card name
    has no word left after cleaning, [length_penalty] is never assigned,
    and the debug branch for scores of 70 and more, which reads it, raises
    [UnboundLocalError]. *)
Definition calculate_name_confidence (input_name card_name : string)
           (search_variants : list string) : result Q :=
  let best_fuzzy := best_fuzzy_from 0 card_name search_variants in
  let clean_input := clean input_name in
  let clean_card := clean card_name in
  let input_words := PyStr.split clean_input in
  let card_words := PyStr.split clean_card in
  let word_match_score :=
    match input_words with
    | [] => 0%Q
    | _ => fmul (fdiv (Zq (Z.of_nat (matched_words input_words card_words)))
                      (Zq (Z.of_nat (List.length input_words))))
                100
    end in
  let no_space_input := PyStr.replace " " "" clean_input in
  let no_space_card := PyStr.replace " " "" clean_card in
  let compound_score := fuzz_ratio no_space_input no_space_card in
  let raw_score := py_max (py_max (Zq best_fuzzy) word_match_score) (Zq compound_score) in
  let input_len := List.length input_words in
  let card_len := List.length card_words in
  if (0 <? input_len) && (0 <? card_len) then
    let length_ratio :=
      fdiv (Zq (Z.of_nat (Nat.min input_len card_len)))
           (Zq (Z.of_nat (Nat.max input_len card_len))) in
    let length_penalty :=
      if Qltb length_ratio (1 # 2) then fl (8 # 10)
      else if Qltb length_ratio (fl (7 # 10)) then fl (9 # 10)
      else 1%Q in
    Ok (fmul raw_score length_penalty)
  else
    let final_score := raw_score in
    if Qle_bool 70 final_score
    then Raise (UnboundLocalError "length_penalty")
    else Ok final_score.

(** The rarity of one printed variant against the spoken one, as the
    variant expansion computes it in line. *)
Definition variant_rarity_score (input_rarity : string) (cs : card_set) : Q :=
  let set_rarity := PyStr.strip (PyStr.lower (get (set_rarity cs) "")) in
  let input_rarity := PyStr.strip (PyStr.lower input_rarity) in
  if String.eqb set_rarity input_rarity then 100%Q
  else if PyStr.contains input_rarity set_rarity || PyStr.contains set_rarity input_rarity
       then 80%Q
       else fmul (Zq (fuzz_ratio input_rarity set_rarity)) (fl (7 # 10)).

(** The loop of [calculate_rarity_confidence], with its [break]. *)
Fixpoint best_rarity_from (best : Q) (input_rarity_clean : string)
         (sets : list card_set) : Q :=
  match sets with
  | [] => best
  | cs :: rest =>
      let set_rarity := PyStr.strip (PyStr.lower (get (set_rarity cs) "")) in
      if String.eqb set_rarity input_rarity_clean then 100%Q
      else if PyStr.contains input_rarity_clean set_rarity
              || PyStr.contains set_rarity input_rarity_clean
           then best_rarity_from (py_max best 80%Q) input_rarity_clean rest
           else
             let rarity_similarity := fuzz_ratio input_rarity_clean set_rarity in
             if (70 <=? rarity_similarity)%Z
             then best_rarity_from (py_max best (fmul (Zq rarity_similarity) (fl (7 # 10))))
                                   input_rarity_clean rest
             else best_rarity_from best input_rarity_clean rest
  end.

(** [calculate_rarity_confidence] *)
Definition calculate_rarity_confidence (input_rarity : string) (c : card) : Q :=
  best_rarity_from 0%Q (PyStr.strip (PyStr.lower input_rarity)) (get (card_sets c) []).

(** The 75/25 blend with the weak-name penalty; the name score alone when
    no rarity was spoken. *)
Definition blend (rarity : option string) (name_score rarity_score : Q) : Q :=
  if truthy rarity then
    let total_score := fadd (fmul name_score (3 # 4)) (fmul rarity_score (1 # 4)) in
    if Qltb name_score 40%Q then fmul total_score (1 # 2) else total_score
  else name_score.

(** [card_matches.remove(existing_match)], where [existing_match] is the
    first row of that name: the first row equal to it is itself. *)
Fixpoint remove_match (nm : string) (l : list card_match) : list card_match :=
  match l with
  | [] => []
  | m :: rest => if String.eqb (m_name m) nm then rest else m :: remove_match nm rest
  end.

(** One turn of the first loop over the catalog. The two scores are
    computed inside a [try]: a card without a name raises [KeyError] there,
    a name score may raise [UnboundLocalError], and on either the loop goes
    on with the next card. *)
Definition score_card (card_name : string) (rarity : option string)
           (search_variants : list string)
           (card_matches : list card_match) (c : card) : list card_match :=
  match name c with
  | None => card_matches
  | Some nm =>
      match calculate_name_confidence card_name nm search_variants with
      | Raise _ => card_matches
      | Ok name_score =>
          let rarity_score :=
            if truthy rarity then calculate_rarity_confidence (get rarity "") c else 0%Q in
          let total_score := blend rarity name_score rarity_score in
          if Qle_bool 50%Q total_score then
            let row := {| m_card_data := c; m_confidence := total_score; m_name := nm;
                          m_rarity := get_card_rarity_display c rarity |} in
            match find (fun m => String.eqb (m_name m) nm) card_matches with
            | Some existing_match =>
                if Qltb (m_confidence existing_match) total_score
                then (remove_match nm card_matches ++ [row])%list
                else card_matches
            | None => (card_matches ++ [row])%list
            end
          else card_matches
      end
  end.

(** The first pass: which cards are plausible. *)
Definition first_pass (set_cards : list card) (card_name : string)
           (rarity : option string) : list card_match :=
  fold_left (score_card card_name rarity (get_card_name_variants card_name))
            set_cards [].

(** The confidence of one printed variant, capped. *)
Definition variant_confidence (rarity : option string) (name_score : Q)
           (cs : card_set) : Q :=
  let rarity_score :=
    if truthy rarity then variant_rarity_score (get rarity "") cs else 0%Q in
  let confidence := blend rarity name_score rarity_score in
  if truthy rarity && Qeq_bool rarity_score 100%Q
  then py_min 95%Q confidence
  else py_min 85%Q confidence.

(** The innermost loop of the expansion, over the printings of one card.
    The pair is ([exact_name_matches], [all_variants]). The name score is
    computed again for every printing that is not filtered out, outside any
    [try]. *)
Fixpoint expand_sets (card_name : string) (rarity : option string)
         (is_priority_match : bool) (c : card) (nm : string)
         (sets : list card_set) (acc : list variant * list variant)
  : result (list variant * list variant) :=
  match sets with
  | [] => Ok acc
  | cs :: rest =>
      let '(exact_name_matches, all_variants) := acc in
      let variant_key :=
        nm ++ "_" ++ get (set_rarity cs) "Unknown" ++ "_" ++ get (set_code cs) "N/A" in
      if existsb (fun v => String.eqb (v_variant_key v) variant_key) all_variants
      then expand_sets card_name rarity is_priority_match c nm rest acc
      else
        match calculate_name_confidence card_name nm
                                        (get_card_name_variants card_name) with
        | Raise e => Raise e
        | Ok name_score =>
            let v := {| v_card_data := c;
                        v_confidence := variant_confidence rarity name_score cs;
                        v_name := nm;
                        v_rarity := get (set_rarity cs) "Unknown";
                        v_set_code := get (set_code cs) "N/A";
                        v_variant_key := variant_key;
                        v_is_priority := is_priority_match |} in
            expand_sets card_name rarity is_priority_match c nm rest
                        (if is_priority_match
                         then ((exact_name_matches ++ [v])%list, all_variants)
                         else (exact_name_matches, (all_variants ++ [v])%list))
        end
  end.

(** The loop over the catalog for one matched name; [card['name']] is
    read outside any [try]. *)
Fixpoint expand_cards (card_name : string) (rarity : option string)
         (is_priority_match : bool) (card_name_to_find : string)
         (set_cards : list card) (acc : list variant * list variant)
  : result (list variant * list variant) :=
  match set_cards with
  | [] => Ok acc
  | c :: rest =>
      match name c with
      | None => Raise (KeyError "name")
      | Some nm =>
          if String.eqb nm card_name_to_find
          then
            match expand_sets card_name rarity is_priority_match c nm
                              (get (card_sets c) []) acc with
            | Ok acc' =>
                expand_cards card_name rarity is_priority_match card_name_to_find rest acc'
            | Raise e => Raise e
            end
          else expand_cards card_name rarity is_priority_match card_name_to_find rest acc
      end
  end.

Definition is_priority (card_name card_name_to_find : string) : bool :=
  (90 <=? fuzz_token_set_ratio (PyStr.lower card_name) (PyStr.lower card_name_to_find))%Z
  || PyStr.contains (PyStr.lower card_name_to_find) (PyStr.lower card_name)
  || PyStr.contains (PyStr.lower card_name) (PyStr.lower card_name_to_find).

(** The loop over [card_matches]. *)
Fixpoint expand_matches (set_cards : list card) (card_name : string)
         (rarity : option string) (card_matches : list card_match)
         (acc : list variant * list variant)
  : result (list variant * list variant) :=
  match card_matches with
  | [] => Ok acc
  | m :: rest =>
      match expand_cards card_name rarity (is_priority card_name (m_name m))
                         (m_name m) set_cards acc with
      | Ok acc' => expand_matches set_cards card_name rarity rest acc'
      | Raise e => Raise e
      end
  end.

(** Sorting, tie-breaking and the cut to eight options. *)
Definition rank_variants (exact_name_matches all_variants : list variant) : list variant :=
  firstn 8 (ensure_unique_confidence_scores
              (sort_by_confidence (exact_name_matches ++ all_variants)%list)).

(** [find_and_present_card_options] *)
Definition find_and_present_card_options (a : app) (card_name : string)
           (art_variant rarity : option string) : result (app * list event) :=
  match set_cards a with
  | [] => Ok (a, [])
  | _ =>
      match first_pass (set_cards a) card_name rarity with
      | [] => Ok (a, [SetStatus (NoMatchesFound card_name)])
      | card_matches =>
          match expand_matches (set_cards a) card_name rarity card_matches ([], []) with
          | Raise e => Raise e
          | Ok (exact_name_matches, all_variants) =>
              match (exact_name_matches ++ all_variants)%list with
              | [] => Ok (a, [SetStatus (NoVariantsFound card_name)])
              | _ =>
              match rank_variants exact_name_matches all_variants with
              | [] => Raise IndexError      (* [final_variants[0]] *)
              | (best_match :: _) as final_variants =>
                  let auto_threshold := get (auto_confirm_threshold_var a) 85%Z in
                  if auto_confirm_var a
                     && Qle_bool (Zq auto_threshold) (v_confidence best_match)
                  then
                    let '(a1, ev) :=
                      add_card_to_session (set_locked a true) (v_card_data best_match)
                                          art_variant (Some (v_rarity best_match)) in
                    Ok (a1, (ev ++ [SetStatus (AutoConfirmed (v_name best_match)
                                                            (v_rarity best_match)
                                                            (v_confidence best_match))])%list)
                  else
                    Ok (show_voice_card_options a final_variants card_name
                                                art_variant rarity)
              end
              end
          end
      end
  end.

End Scoring.

(** ** Routing a recognized utterance *)

Definition word1 : Re.regex := Re.Rep true 1 PyStr.is_word.      (* \w+ *)
Definition lazy1 : Re.regex := Re.Rep false 1 Re.dot.            (* .+? *)
Definition space_or_end : Re.regex := Re.Alt (Re.Cls PyStr.is_space) Re.Eol.  (* (?:\s|$) *)

Definition art_patterns : list Re.regex :=
  [ seq [Re.Str "art variant "; Re.Grp word1];                 (* art variant (\w+) *)
    seq [Re.Str "art "; Re.Grp word1];                         (* art (\w+) *)
    seq [Re.Str "variant "; Re.Grp word1];                     (* variant (\w+) *)
    seq [Re.Str "artwork "; Re.Grp word1];                     (* artwork (\w+) *)
    seq [Re.Str "art rarity "; Re.Grp lazy1; space_or_end];    (* art rarity (.+?)(?:\s|$) *)
    seq [Re.Str "art variant "; Re.Grp lazy1; space_or_end] ]. (* art variant (.+?)(?:\s|$) *)

(** The rarity patterns, each with whether it is one of the direct-match
    patterns (whose whole match is the rarity) or a group-based one. *)
Definition rarity_patterns : list (Re.regex * bool) :=
  [ (Re.Str "quarter century secret rare", true);
    (Re.Str "quarter century secret", true);
    (Re.Str "prismatic secret rare", true);
    (Re.Str "prismatic secret", true);
    (Re.Str "starlight rare", true);
    (seq [Re.Str "collector"; Re.Rep false 0 Re.dot; Re.Str "rare"], true);  (* collector.*?rare *)
    (Re.Str "ghost rare", true);
    (Re.Str "secret rare", true);
    (Re.Str "ultra rare", true);
    (Re.Str "super rare", true);
    (Re.Str "rare", true);
    (Re.Str "common", true);
    (seq [Re.Str "rarity "; Re.Grp lazy1; space_or_end], false);   (* rarity (.+?)(?:\s|$) *)
    (seq [Re.Str "rare "; Re.Grp lazy1; space_or_end], false);     (* rare (.+?)(?:\s|$) *)
    (seq [Re.Grp lazy1; Re.Str " rare"; space_or_end], false);     (* (.+?) rare(?:\s|$) *)
    (seq [Re.Grp lazy1; Re.Str " rarity"; space_or_end], false) ]. (* (.+?) rarity(?:\s|$) *)

(** The art-variant loop: the first pattern found in the utterance gives
    the hint and is cut out of the card name. *)
Fixpoint extract_art (ps : list Re.regex) (voice_text card_name : string)
  : option string * string :=
  match ps with
  | [] => (None, card_name)
  | p :: rest =>
      match Re.search p voice_text with
      | Some m => (Some (get (Re.group1 m) ""), PyStr.strip (Re.sub p "" card_name))
      | None => extract_art rest voice_text card_name
      end
  end.

(** The rarity loop. *)
Fixpoint extract_rarity (ps : list (Re.regex * bool)) (voice_text card_name : string)
  : option string * string :=
  match ps with
  | [] => (None, card_name)
  | (p, direct) :: rest =>
      match Re.search p voice_text with
      | Some m =>
          let rarity :=
            if direct then PyStr.strip (Re.group0 m)
            else PyStr.strip (get (Re.group1 m) "") in
          (Some rarity, PyStr.strip (Re.sub p "" card_name))
      | None => extract_rarity rest voice_text card_name
      end
  end.

Section Routing.

Variable fuzz_ratio : string -> string -> Z.
Variable fuzz_token_set_ratio : string -> string -> Z.

(** [process_voice_input] *)
Definition process_voice_input (a : app) (voice_text : string)
  : result (app * list event) :=
  let voice_text := PyStr.strip (PyStr.lower voice_text) in
  if pending_voice_confirmation a then
    Ok (handle_voice_selection a voice_text)
  else
    let '(art_variant, card_name) :=
      if auto_art_rarity_enabled a
      then extract_art art_patterns voice_text voice_text
      else (None, voice_text) in
    let '(rarity, card_name) :=
      if auto_rarity_enabled a
      then extract_rarity rarity_patterns voice_text card_name
      else (None, card_name) in
    let card_name := PyStr.strip (Re.sub spaces1 " " card_name) in
    match find_and_present_card_options fuzz_ratio fuzz_token_set_ratio
                                        a card_name art_variant rarity with
    | Ok (a', ev) => Ok (a', Processed card_name rarity art_variant :: ev)
    | Raise e => Raise e
    end.

End Routing.


(** ** The tie-breaker on binary64 numbers

    The same two loops as CPython runs them, on IEEE 754 doubles: [0.1] is
    the double nearest to one tenth, [in] compares doubles exactly, and
    [round(x, 1)] rounds the exact value of [x] to the nearest tenth (ties
    to even) and returns the double nearest to that decimal. *)

Module Binary64.

(** The exact value of a finite double. *)
Definition exact (x : float) : Q :=
  match Prim2SF x with
  | S754_finite s m e =>
      Qmult (Qmult (if s then (-1)%Q else 1%Q) (inject_Z (Zpos m))) (Qpower 2 e)
  | _ => 0%Q
  end.

(** The double of an integer below 2^53 in absolute value. *)
Definition of_Z (k : Z) : float :=
  match k with
  | Z0 => 0%float
  | Zpos _ => PrimFloat.of_uint63 (Uint63.of_Z k)
  | Zneg p => PrimFloat.opp (PrimFloat.of_uint63 (Uint63.of_Z (Zpos p)))
  end.

(** The double nearest to [k / d]: what the literal denotes. *)
Definition dec (k d : Z) : float := PrimFloat.div (of_Z k) (of_Z d).

Definition tenth : float := dec 1 10.

(** [round(x, 1)] *)
Definition round1 (x : float) : float :=
  dec (round_half_even (Qmult (exact x) (Zq 10))) 10.

Definition in_scores (c : float) (used : list float) : bool :=
  existsb (PrimFloat.eqb c) used.

Fixpoint climb (fuel : nat) (used : list float) (c : float) : float :=
  match fuel with
  | O => c
  | S f =>
      if in_scores c used then
        let c' := PrimFloat.add c tenth in
        if PrimFloat.ltb (of_Z 99) c' then c' else climb f used c'
      else c
  end.

Fixpoint descend (fuel : nat) (used : list float) (original c : float) : float :=
  match fuel with
  | O => c
  | S f =>
      if in_scores c used then
        let c' := PrimFloat.sub c tenth in
        if PrimFloat.ltb c' (of_Z 10)
        then climb (S (List.length used)) used (PrimFloat.add original tenth)
        else descend f used original c'
      else c
  end.

(** The confidences [ensure_unique_confidence_scores] leaves in the list,
    for the confidences it finds there. *)
Fixpoint ensure_unique_from (used : list float) (scores : list float) : list float :=
  match scores with
  | [] => []
  | original :: rest =>
      let c := round1 (descend (S (List.length used)) used original original) in
      c :: ensure_unique_from (c :: used) rest
  end.

Definition ensure_unique_confidence_scores (scores : list float) : list float :=
  ensure_unique_from [] scores.

End Binary64.

(** ** A reference instance of the fuzzywuzzy functions

    The library is not part of the repository; the scoring code above takes
    its two functions as parameters.  The instance below follows
    fuzzywuzzy's [fuzz.ratio] and [fuzz.token_set_ratio] with the
    Levenshtein backend, where the similarity of two texts is
    [2 * M / T] for [M] the length of a longest common subsequence and [T]
    the sum of the lengths.  It is used to run the model on examples. *)

Module FuzzRef.

(** One row of the longest-common-subsequence table. *)
Fixpoint lcs_row (c : ascii) (s2 : string) (prev : list nat) (diag left : nat) : list nat :=
  match s2, prev with
  | String d s2', p :: prev' =>
      let v := if Ascii.eqb c d then S diag else Nat.max p left in
      v :: lcs_row c s2' prev' p v
  | _, _ => []
  end.

Fixpoint lcs_rows (s1 s2 : string) (prev : list nat) : list nat :=
  match s1 with
  | EmptyString => prev
  | String c s1' => lcs_rows s1' s2 (lcs_row c s2 prev 0 0)
  end.

Definition lcs (s1 s2 : string) : nat :=
  last (lcs_rows s1 s2 (repeat 0 (String.length s2))) 0.

(** [fuzz.ratio] *)
Definition ratio (s1 s2 : string) : Z :=
  if String.eqb s1 s2 then 100%Z
  else if (String.length s1 =? 0) || (String.length s2 =? 0) then 0%Z
  else round_half_even
         (Qmake (200 * Z.of_nat (lcs s1 s2))
                (Pos.of_nat (String.length s1 + String.length s2))).

(** [utils.full_process]: non-word characters become spaces, then lower
    case and strip. *)
Fixpoint blank_non_word (s : string) : string :=
  match s with
  | EmptyString => EmptyString
  | String c t =>
      String (if PyStr.is_word c then c else " "%char) (blank_non_word t)
  end.

Definition full_process (s : string) : string :=
  PyStr.strip (PyStr.lower (blank_non_word s)).

Fixpoint insert_sorted (x : string) (l : list string) : list string :=
  match l with
  | [] => [x]
  | y :: r => if String.leb x y then x :: l else y :: insert_sorted x r
  end.

Definition mem (x : string) (l : list string) : bool := existsb (String.eqb x) l.

(** [sorted(set(l))] *)
Definition sorted_set (l : list string) : list string :=
  fold_right (fun x acc => if mem x acc then acc else insert_sorted x acc) [] l.

(** [fuzz.token_set_ratio] *)
Definition token_set_ratio (s1 s2 : string) : Z :=
  let p1 := full_process s1 in
  let p2 := full_process s2 in
  if (String.length p1 =? 0) || (String.length p2 =? 0) then 0%Z
  else
    let tokens1 := sorted_set (PyStr.split p1) in
    let tokens2 := sorted_set (PyStr.split p2) in
    let sorted_sect := PyStr.join " " (List.filter (fun t => mem t tokens2) tokens1) in
    let sorted_1to2 := PyStr.join " " (List.filter (fun t => negb (mem t tokens2)) tokens1) in
    let sorted_2to1 := PyStr.join " " (List.filter (fun t => negb (mem t tokens1)) tokens2) in
    let combined_1to2 := PyStr.strip (sorted_sect ++ " " ++ sorted_1to2) in
    let combined_2to1 := PyStr.strip (sorted_sect ++ " " ++ sorted_2to1) in
    let sorted_sect := PyStr.strip sorted_sect in
    Z.max (Z.max (ratio sorted_sect combined_1to2) (ratio sorted_sect combined_2to1))
          (ratio combined_1to2 combined_2to1).

End FuzzRef.

(** * Specification vocabulary *)

(** ** The pending selection *)

(** The ordinal an utterance carries, zero-based: what the first matching
    number pattern captured, minus one. *)
Definition spoken_index (text : string) : option Z :=
  match first_search number_patterns text with
  | Some m => Some (PyStr.int (get (Re.group1 m) "") - 1)%Z
  | None => None
  end.

Definition in_range (a : app) (i : Z) : Prop :=
  (0 <= i < Z.of_nat (List.length (pending_card_options a)))%Z.

(** The utterance is a valid ordinal for the pending options. *)
Definition valid_ordinal (a : app) (text : string) : Prop :=
  exists i, spoken_index text = Some i /\ in_range a i.

(** The utterance contains a word of the cancel vocabulary. *)
Definition cancel_match (text : string) : Prop :=
  exists w, In w reject_words /\ PyStr.contains w text = true.

(** No pending selection is left. *)
Definition idle (a : app) : Prop :=
  pending_voice_confirmation a = false /\
  pending_card_options a = [] /\
  pending_voice_data a = None.

(** Events that only a new query produces. *)
Definition query_event (e : event) : bool :=
  match e with
  | Processed _ _ _ => true
  | ShowDialog _ _ _ _ => true
  | SetStatus (NoMatchesFound _) => true
  | SetStatus (NoVariantsFound _) => true
  | SetStatus NoOptionsToDisplay => true
  | SetStatus (AutoConfirmed _ _ _) => true
  | SetStatus (WaitingForSelection _) => true
  | _ => false
  end.

(** The four outcomes of [handle_voice_selection]. *)
Inductive answer (a : app) (text : string) : app * list event -> Prop :=
| answer_commit i v :
    spoken_index text = Some i -> in_range a i ->
    nth_error (pending_card_options a) (Z.to_nat i) = Some v ->
    answer a text (commit_option a v (pending_art_variant a))
| answer_invalid i :
    spoken_index text = Some i -> ~ in_range a i ->
    answer a text (a, [SetStatus (InvalidSelection (List.length (pending_card_options a)))])
| answer_cancel :
    spoken_index text = None -> cancel_match text ->
    answer a text (clear_pending a, [SetStatus SelectionCancelled])
| answer_reprompt :
    spoken_index text = None -> ~ cancel_match text ->
    answer a text (a, [SetStatus (SayANumber (List.length (pending_card_options a)))]).


(** ** Example data *)

Definition mk_set (rarity code : string) : card_set :=
  {| set_rarity := Some rarity; set_code := Some code |}.

(** The catalog of the specification's examples. *)
Definition blue_eyes : card :=
  {| name := Some "Blue-Eyes White Dragon";
     card_sets := Some [mk_set "Ultra Rare" "LOB-001"; mk_set "Ghost Rare" "LOB-001"] |}.

(** A card printed in two sets. *)
Definition dark_magician : card :=
  {| name := Some "Dark Magician";
     card_sets := Some [mk_set "Ultra Rare" "LOB-005"; mk_set "Common" "SDY-006"] |}.

(** A catalog entry without a name. *)
Definition nameless : card :=
  {| name := None; card_sets := Some [mk_set "Common" "LOB-002"] |}.

Definition fresh_app (catalog : list card) (auto_confirm : bool) : app :=
  {| set_cards := catalog; cards := []; session_tracker := true;
     pending_voice_confirmation := false; pending_card_options := [];
     pending_voice_data := None; voice_status_locked := false;
     auto_rarity_enabled := true; auto_art_rarity_enabled := true;
     auto_confirm_var := auto_confirm; auto_confirm_threshold_var := Some 85%Z |}.

Definition mk_variant (c : card) (nm rarity code : string) (conf : Q) (prio : bool) : variant :=
  {| v_card_data := c; v_confidence := conf; v_name := nm; v_rarity := rarity;
     v_set_code := code; v_variant_key := nm ++ "_" ++ rarity ++ "_" ++ code;
     v_is_priority := prio |}.

(** Three options on offer. *)
Definition three_options : list variant :=
  [ mk_variant blue_eyes "Blue-Eyes White Dragon" "Ultra Rare" "LOB-001" 85 true;
    mk_variant blue_eyes "Blue-Eyes White Dragon" "Ghost Rare" "LOB-001" (849 # 10) true;
    mk_variant dark_magician "Dark Magician" "Common" "SDY-006" 60 false ].

Definition awaiting (opts : list variant) : app :=
  set_voice_data (set_pending (fresh_app [blue_eyes; dark_magician] false) true opts)
                 (Some {| original_input := "blue eyes"; vd_art_variant := None;
                          vd_rarity := None |}).

(** ** Scoring vocabulary *)

(** The printed variant's rarity equals the spoken one after lowercasing
    and trimming (a missing rarity counts as the empty text, as in the
    code), and a rarity was spoken at all. *)
Definition exact_rarity_match (rarity : option string) (cs : card_set) : bool :=
  truthy rarity &&
  String.eqb (PyStr.strip (PyStr.lower (get (set_rarity cs) "")))
             (PyStr.strip (PyStr.lower (get rarity ""))).

(** The rarity the variant carries is the spoken one, after lowercasing
    and trimming: the test of the summary printed for the final options. *)
Definition shown_rarity_match (rarity : option string) (v : variant) : bool :=
  truthy rarity &&
  String.eqb (PyStr.strip (PyStr.lower (v_rarity v)))
             (PyStr.strip (PyStr.lower (get rarity ""))).

(** Either text contains the other, after lowercasing and trimming. *)
Definition rarity_contains (input_rarity : string) (cs : card_set) : bool :=
  let s := PyStr.strip (PyStr.lower (get (set_rarity cs) "")) in
  let i := PyStr.strip (PyStr.lower input_rarity) in
  PyStr.contains i s || PyStr.contains s i.

Definition rarity_equal (input_rarity : string) (cs : card_set) : bool :=
  String.eqb (PyStr.strip (PyStr.lower (get (set_rarity cs) "")))
             (PyStr.strip (PyStr.lower input_rarity)).

(** The character-similarity ratio of the two rarities as compared. *)
Definition rarity_ratio (fuzz_ratio : string -> string -> Z)
           (input_rarity : string) (cs : card_set) : Z :=
  fuzz_ratio (PyStr.strip (PyStr.lower input_rarity))
             (PyStr.strip (PyStr.lower (get (set_rarity cs) ""))).

(** A card with the single printed variant [cs]. *)
Definition single_variant_card (nm : string) (cs : card_set) : card :=
  {| name := Some nm; card_sets := Some [cs] |}.

Section ScoringVocabulary.

Variable fuzz_ratio : string -> string -> Z.
Variable fuzz_token_set_ratio : string -> string -> Z.

(** The name score of a catalog name for the spoken card name, as both
    passes ask for it: a number, or the exception. *)
Definition name_score_of (card_name nm : string) : result Q :=
  calculate_name_confidence fuzz_ratio fuzz_token_set_ratio card_name nm
                            (get_card_name_variants card_name).

(** The first-pass total of the card [c] whose name scored [name_score]. *)
Definition card_total (rarity : option string) (c : card) (name_score : Q) : Q :=
  blend rarity name_score
        (if truthy rarity then calculate_rarity_confidence fuzz_ratio (get rarity "") c
         else 0%Q).

(** The score [calculate_rarity_confidence] gives one printing: 100 for an
    equal rarity, 80 when one text contains the other, and the similarity
    times 0.7 only when the similarity is 70 or more. *)
Definition card_rarity_score (input_rarity : string) (cs : card_set) : Q :=
  if rarity_equal input_rarity cs then 100%Q
  else if rarity_contains input_rarity cs then 80%Q
  else if (70 <=? rarity_ratio fuzz_ratio input_rarity cs)%Z
       then fmul (Zq (rarity_ratio fuzz_ratio input_rarity cs)) (fl (7 # 10))
       else 0%Q.

(** Following the specification's words: "the best rarity score (4.2)
    across that card's variants", the rarity score of 4.2 being the one
    without a floor on the similarity, and the total built on it. *)
Definition spec_best_rarity_score (input_rarity : string) (c : card) : Q :=
  fold_left py_max (map (variant_rarity_score fuzz_ratio input_rarity)
                        (get (card_sets c) [])) 0%Q.

Definition spec_total (rarity : string) (c : card) (name_score : Q) : Q :=
  blend (Some rarity) name_score (spec_best_rarity_score rarity c).

(** The score the cap is applied to: the blend of the name score with this
    variant's own rarity score. *)
Definition variant_blend (rarity : option string) (name_score : Q) (cs : card_set) : Q :=
  blend rarity name_score
        (if truthy rarity then variant_rarity_score fuzz_ratio (get rarity "") cs
         else 0%Q).

(** Following the specification's words: the blend against the rarity
    the variant carries, cut at 95 when that rarity is the spoken one and
    at 85 otherwise. *)
Definition spec_variant_confidence (rarity : option string) (name_score : Q)
           (v : variant) : Q :=
  let shown := mk_set (v_rarity v) (v_set_code v) in
  if shown_rarity_match rarity v
  then py_min 95 (variant_blend rarity name_score shown)
  else py_min 85 (variant_blend rarity name_score shown).

(** What the expansion has produced so far: every variant comes from a
    printing of its own card, carries that printing's labels and the
    capped confidence, and sits in the list its priority flag says. *)
Definition expanded (card_name : string) (rarity : option string) (in_exact : bool)
           (v : variant) : Prop :=
  exists cs name_score,
    In cs (get (card_sets (v_card_data v)) []) /\
    name (v_card_data v) = Some (v_name v) /\
    v_rarity v = get (set_rarity cs) "Unknown" /\
    v_set_code v = get (set_code cs) "N/A" /\
    name_score_of card_name (v_name v) = Ok name_score /\
    v_confidence v = variant_confidence fuzz_ratio rarity name_score cs /\
    v_is_priority v = is_priority fuzz_token_set_ratio card_name (v_name v) /\
    v_is_priority v = in_exact.

Definition all_expanded (card_name : string) (rarity : option string)
           (acc : list variant * list variant) : Prop :=
  Forall (expanded card_name rarity true) (fst acc) /\
  Forall (expanded card_name rarity false) (snd acc).

(** What holds of the rows once the cards [seen] have been scored. *)
Record rows_ok (card_name : string) (rarity : option string)
       (seen : list card) (rows : list card_match) : Prop := {
  rows_sound :
    forall m, In m rows ->
      In (m_card_data m) seen /\
      name (m_card_data m) = Some (m_name m) /\
      (exists name_score,
         name_score_of card_name (m_name m) = Ok name_score /\
         m_confidence m = card_total rarity (m_card_data m) name_score) /\
      (50 <= m_confidence m)%Q;
  rows_nodup : NoDup (map m_name rows);
  rows_best :
    forall c nm name_score,
      In c seen -> name c = Some nm ->
      name_score_of card_name nm = Ok name_score ->
      (50 <= card_total rarity c name_score)%Q ->
      exists m, In m rows /\ m_name m = nm /\
                (card_total rarity c name_score <= m_confidence m)%Q
}.

End ScoringVocabulary.

(** ** The Blue-Eyes examples *)

Definition ultra_set : card_set := mk_set "Ultra Rare" "LOB-001".
Definition ghost_set : card_set := mk_set "Ghost Rare" "LOB-001".

(** The variant the expansion builds for a printing of [blue_eyes]. *)
Definition blue_eyes_variant (cs : card_set) (conf : Q) (prio : bool) : variant :=
  {| v_card_data := blue_eyes; v_confidence := conf;
     v_name := "Blue-Eyes White Dragon";
     v_rarity := get (set_rarity cs) "Unknown";
     v_set_code := get (set_code cs) "N/A";
     v_variant_key :=
       "Blue-Eyes White Dragon" ++ "_" ++ get (set_rarity cs) "Unknown" ++ "_"
                                ++ get (set_code cs) "N/A";
     v_is_priority := prio |}.

(** The session entry and the state after the Ghost Rare printing has been
    committed without asking. *)
Definition ghost_rare_entry : session_card :=
  {| sc_card_data := blue_eyes; sc_card_name := "Blue-Eyes White Dragon";
     sc_card_rarity := "Ghost Rare"; sc_art_variant := "None"; sc_quantity := 1 |}.

Definition ghost_rare_committed (catalog : list card) : app :=
  set_locked (push_card (fresh_app catalog true) ghost_rare_entry) true.



(** The same catalog held as one entry per printing. *)
Definition blue_eyes_ultra : card :=
  {| name := Some "Blue-Eyes White Dragon"; card_sets := Some [ultra_set] |}.

Definition blue_eyes_ghost : card :=
  {| name := Some "Blue-Eyes White Dragon"; card_sets := Some [ghost_set] |}.

Definition split_catalog : list card := [blue_eyes_ultra; blue_eyes_ghost].

(** The variant the expansion builds for the printing [cs] of the entry [c]. *)
Definition printing_variant (c : card) (cs : card_set) (conf : Q) (prio : bool) : variant :=
  {| v_card_data := c; v_confidence := conf;
     v_name := "Blue-Eyes White Dragon";
     v_rarity := get (set_rarity cs) "Unknown";
     v_set_code := get (set_code cs) "N/A";
     v_variant_key :=
       "Blue-Eyes White Dragon" ++ "_" ++ get (set_rarity cs) "Unknown" ++ "_"
                                ++ get (set_code cs) "N/A";
     v_is_priority := prio |}.

Definition ghost_rare_entry_split : session_card :=
  {| sc_card_data := blue_eyes_ghost; sc_card_name := "Blue-Eyes White Dragon";
     sc_card_rarity := "Ghost Rare"; sc_art_variant := "None"; sc_quantity := 1 |}.

(** ** Ranking vocabulary *)

(** A variant of the examples with a given label, score and flag. *)
Definition scored (label : string) (conf : Q) (prio : bool) : variant :=
  mk_variant blue_eyes "Blue-Eyes White Dragon" label "LOB-001" conf prio.

(** Sorted by confidence, highest first. *)
Fixpoint sorted_desc (l : list variant) : Prop :=
  match l with
  | [] => True
  | a :: r => Forall (fun b => (v_confidence b <= v_confidence a)%Q) r /\ sorted_desc r
  end.

(** No confidence value occurs twice. *)
Fixpoint distinct_scores (l : list Q) : bool :=
  match l with
  | [] => true
  | q :: r => negb (in_scores q r) && distinct_scores r
  end.

(** The same rows in the same places, the confidence apart. *)
Definition same_rows (l l' : list variant) : Prop :=
  Forall2 (fun v v' => v' = set_confidence v (v_confidence v')) l l'.

(** Highest score first, and a priority variant never behind a
    non-priority one of equal or lower score. *)
Fixpoint ranked (l : list variant) : Prop :=
  match l with
  | [] => True
  | a :: r =>
      Forall (fun b => (v_confidence b <= v_confidence a)%Q /\
                       (v_is_priority a = false -> v_is_priority b = true ->
                        (v_confidence b < v_confidence a)%Q)) r
      /\ ranked r
  end.

(** A second card that scores above 50 for "dark magician" without being
    a near-exact match. *)
Definition dark_paladin : card :=
  {| name := Some "Dark Paladin"; card_sets := Some [mk_set "Ultra Rare" "MFC-105"] |}.

Definition dark_catalog : list card := [dark_magician; dark_paladin].

(** ** What a commit hands to the session *)

(** The rarity the session entry carries for a chosen label: the label
    itself unless it is empty. *)
Definition committed_rarity (c : card) (label : string) : string :=
  or_else (Some label) (get_card_rarity_display c (Some label)).

(** The session entry for the option [v] and the art-variant hint. *)
Definition committed_entry (v : variant) (art_variant : option string) : session_card :=
  {| sc_card_data := v_card_data v;
     sc_card_name := get (name (v_card_data v)) "Unknown Card";
     sc_card_rarity := committed_rarity (v_card_data v) (v_rarity v);
     sc_art_variant := or_else art_variant "None";
     sc_quantity := 1 |}.

(** The price request for the option [v]. *)
Definition committed_request (v : variant) (art_variant : option string)
  : result price_payload :=
  price_request (v_card_data v) art_variant
                (committed_rarity (v_card_data v) (v_rarity v)).

(** The set code of the card's first listed printing. *)
Definition first_set_code (c : card) : option string :=
  match get (card_sets c) [ {| set_rarity := None; set_code := None |} ] with
  | first :: _ => Some (get (set_code first) "")
  | [] => None
  end.

(** The two printings of [dark_magician] on offer. *)
Definition magician_options : list variant :=
  [ mk_variant dark_magician "Dark Magician" "Ultra Rare" "LOB-005" 85 true;
    mk_variant dark_magician "Dark Magician" "Common" "SDY-006" (849 # 10) true ].

(** ** Loop measures of the tie-breaker *)

(** How many used scores lie at or above [c], and at or below [c]. *)
Definition count_above (used : list Q) (c : Q) : nat :=
  List.length (List.filter (fun u => Qle_bool c u) used).

Definition count_below (used : list Q) (c : Q) : nat :=
  List.length (List.filter (fun u => Qle_bool u c) used).

(** * Vocabulary of the further properties *)

(** ** Bounds of the reference similarity *)

(** The entry of column [k + j + 1] is at most its column number. *)
Fixpoint column_bounded (k : nat) (row : list nat) : Prop :=
  match row with
  | [] => True
  | x :: r => x <= S k /\ column_bounded (S k) r
  end.


(** ** Pipeline vocabulary *)

(** The variant is a printing of a card of the catalog: its card is in the
    catalog under its name, and its rarity label and set code are those of
    one entry of that card's ['card_sets']. *)
Definition from_catalog (set_cards : list card) (v : variant) : Prop :=
  In (v_card_data v) set_cards /\
  name (v_card_data v) = Some (v_name v) /\
  exists cs,
    In cs (get (card_sets (v_card_data v)) []) /\
    v_rarity v = get (set_rarity cs) "Unknown" /\
    v_set_code v = get (set_code cs) "N/A".

(** The key under which the expansion files a printing. *)
Definition printing_key (nm : string) (cs : card_set) : string :=
  nm ++ "_" ++ get (set_rarity cs) "Unknown" ++ "_" ++ get (set_code cs) "N/A".

(** Some candidate carries the key [k]. *)
Definition has_key (acc : list variant * list variant) (k : string) : Prop :=
  exists v, In v (fst acc ++ snd acc)%list /\ v_variant_key v = k.

(** A selection is pending: flag set, between one and eight options, the
    hints stored. *)
Definition awaiting_answer (a : app) : Prop :=
  pending_voice_confirmation a = true /\
  1 <= List.length (pending_card_options a) <= 8 /\
  pending_voice_data a <> None.

(** The two states of the disambiguation. *)
Definition coherent (a : app) : Prop := idle a \/ awaiting_answer a.

(** The rarity of a session entry is the label of one of its card's
    printings. *)
Definition rarity_of_a_printing (e : session_card) : Prop :=
  exists cs,
    In cs (get (card_sets (sc_card_data e)) []) /\
    sc_card_rarity e = get (set_rarity cs) "Unknown".

(** The candidate the expansion builds for the printing [cs] of the card
    [c] named [nm], whose name scored [name_score]. *)
Definition variant_of (fuzz_ratio : string -> string -> Z)
           (rarity : option string) (is_priority_match : bool)
           (c : card) (nm : string) (name_score : Q) (cs : card_set) : variant :=
  {| v_card_data := c;
     v_confidence := variant_confidence fuzz_ratio rarity name_score cs;
     v_name := nm;
     v_rarity := get (set_rarity cs) "Unknown";
     v_set_code := get (set_code cs) "N/A";
     v_variant_key := printing_key nm cs;
     v_is_priority := is_priority_match |}.

(** A card whose name has no word left after cleaning. *)
Definition punctuation_card : card :=
  {| name := Some "???"; card_sets := Some [mk_set "Common" "LOB-002"] |}.

(** ** Vocabulary of the ordinal parser *)

(** The text holds an ASCII digit. *)
Fixpoint has_digit (s : string) : bool :=
  match s with
  | EmptyString => false
  | String c t => PyStr.is_digit c || has_digit t
  end.

(** Every character of the text is in the class. *)
Fixpoint all_chars (p : ascii -> bool) (s : string) : bool :=
  match s with
  | EmptyString => true
  | String c t => p c && all_chars p t
  end.

(** A continuation that fails on every text without a digit. *)
Definition dead {T : Type} (k : Re.cont T) : Prop :=
  forall rest g, has_digit rest = false -> k rest g = None.

(** A pattern that cannot match inside a text without a digit. *)
Definition needs_digit (r : Re.regex) : Prop :=
  forall (T : Type) (whole : string) (k : Re.cont T) rest g,
    has_digit rest = false -> Re.run whole r rest g k = None.

(** The text is empty or starts outside the class. *)
Definition stops (p : ascii -> bool) (s : string) : Prop :=
  match s with
  | EmptyString => True
  | String c _ => p c = false
  end.

(** ** Runs with the reference similarity functions *)

(** What a call returned, or the untouched state when it raised. *)
Definition outcome (a : app) (r : result (app * list event)) : app * list event :=
  match r with
  | Ok p => p
  | Raise _ => (a, [])
  end.

(** The search for "dark magician" in the two-card catalog. *)
Definition dark_search (auto_confirm : bool) : app * list event :=
  outcome (fresh_app dark_catalog auto_confirm)
          (find_and_present_card_options FuzzRef.ratio FuzzRef.token_set_ratio
             (fresh_app dark_catalog auto_confirm) "dark magician" None None).

Definition dark_rows : list card_match :=
  first_pass FuzzRef.ratio FuzzRef.token_set_ratio dark_catalog "dark magician" None.

Definition dark_expansion : list variant * list variant :=
  match expand_matches FuzzRef.ratio FuzzRef.token_set_ratio dark_catalog
                       "dark magician" None dark_rows ([], []) with
  | Ok acc => acc
  | Raise _ => ([], [])
  end.

(** ** The session tracker's quantity controls *)

Module Tracker.

(** A session entry as the controls see it. [add_card_to_session] copies
    the catalog card's keys into the entry, its ['id'] included, so two
    entries of one card (two rarities, say) carry the same id. A key that
    is missing is [None]. *)
Record entry : Type := {
  e_id : option Z;
  e_quantity : option Z;
  e_card_name : string;
  e_card_rarity : string }.

(** [card.get('id') == card_id]. The id a control is bound to is
    [card.get('id', 'unknown')]: [None] stands for the text ['unknown'],
    which equals the id of no entry. *)
Definition id_is (card_id : option Z) (card : entry) : bool :=
  match e_id card, card_id with
  | Some x, Some y => Z.eqb x y
  | _, _ => false
  end.

(** [card['quantity'] = q] *)
Definition set_quantity (card : entry) (q : Z) : entry :=
  {| e_id := e_id card; e_quantity := Some q;
     e_card_name := e_card_name card; e_card_rarity := e_card_rarity card |}.

(** [update_card_quantity_by_id]: the session's cards after the call. *)
Fixpoint update_card_quantity_by_id (cards : list entry) (card_id : option Z)
         (change : Z) : list entry :=
  match cards with
  | [] => []
  | card :: rest =>
      if id_is card_id card then
        let current_qty := get (e_quantity card) 1%Z in
        let new_qty := Z.max 1 (current_qty + change) in
        set_quantity card new_qty :: rest          (* break *)
      else card :: update_card_quantity_by_id rest card_id change
  end.

(** [remove_card_by_id] *)
Fixpoint remove_card_by_id (cards : list entry) (card_id : option Z) : list entry :=
  match cards with
  | [] => []
  | card :: rest =>
      if id_is card_id card then rest              (* del cards[i]; break *)
      else card :: remove_card_by_id rest card_id
  end.

(** [update_card_quantity] *)
Definition update_card_quantity (cards : list entry) (card_index new_quantity : Z)
  : list entry :=
  if ((0 <=? card_index)%Z && (card_index <? Z.of_nat (List.length cards))%Z)%bool then
    match nth_error cards (Z.to_nat card_index) with
    | Some card =>
        (firstn (Z.to_nat card_index) cards
           ++ set_quantity card new_quantity :: skipn (S (Z.to_nat card_index)) cards)%list
    | None => cards
    end
  else cards.

(** [remove_card_from_session] *)
Definition remove_card_from_session (cards : list entry) (card_index : Z) : list entry :=
  if ((0 <=? card_index)%Z && (card_index <? Z.of_nat (List.length cards))%Z)%bool then
    (firstn (Z.to_nat card_index) cards ++ skipn (S (Z.to_nat card_index)) cards)%list
  else cards.

(** The loop of the controls that [create_focus_mode_widget_fast] and
    [create_normal_mode_widget_fast] build: the index and the entry of the
    first card with the id, counting from [i]. *)
Fixpoint first_with_id (cards : list entry) (card_id : option Z) (i : Z)
  : option (Z * entry) :=
  match cards with
  | [] => None
  | session_card :: rest =>
      if id_is card_id session_card then Some (i, session_card)
      else first_with_id rest card_id (i + 1)
  end.

(** Their [decrease_qty], [increase_qty] and [remove_card] closures. *)
Definition decrease_qty (cards : list entry) (card_id : option Z) : list entry :=
  match first_with_id cards card_id 0 with
  | Some (i, session_card) =>
      let current_card_qty := get (e_quantity session_card) 1%Z in
      update_card_quantity cards i (Z.max 1 (current_card_qty - 1))
  | None => cards
  end.

Definition increase_qty (cards : list entry) (card_id : option Z) : list entry :=
  match first_with_id cards card_id 0 with
  | Some (i, session_card) =>
      let current_card_qty := get (e_quantity session_card) 1%Z in
      update_card_quantity cards i (current_card_qty + 1)
  | None => cards
  end.

Definition remove_card (cards : list entry) (card_id : option Z) : list entry :=
  match first_with_id cards card_id 0 with
  | Some (i, _) => remove_card_from_session cards i
  | None => cards
  end.

(** [get_widget_rows_used] *)
Definition get_widget_rows_used (visible_start_index visible_end_index : Z)
           (focus_mode : bool) : Z :=
  let visible_cards := (visible_end_index - visible_start_index)%Z in
  if (visible_cards <=? 0)%Z then 0%Z
  else if focus_mode then
    let cards_per_row := 4%Z in
    ((visible_cards + cards_per_row - 1) / cards_per_row)%Z
  else visible_cards.

(** The quantity an entry shows. *)
Definition shown_quantity (card : entry) : Z := get (e_quantity card) 1%Z.

(** Two printings of one card in the session. *)
Definition ultra_entry : entry :=
  {| e_id := Some 89631139%Z; e_quantity := Some 1%Z;
     e_card_name := "Blue-Eyes White Dragon"; e_card_rarity := "Ultra Rare" |}.

Definition ghost_entry : entry :=
  {| e_id := Some 89631139%Z; e_quantity := Some 2%Z;
     e_card_name := "Blue-Eyes White Dragon"; e_card_rarity := "Ghost Rare" |}.

End Tracker.

(** ** Vocabulary of the hint extraction *)

(** A continuation that succeeds only on a text containing [w]. *)
Definition demands {T : Type} (w : string) (k : Re.cont T) : Prop :=
  forall rest g x, k rest g = Some x -> PyStr.contains w rest = true.

(** The rarity patterns without ['rare (.+?)(?:\s|$)'] and
    ['(.+?) rare(?:\s|$)']. *)
Definition rarity_patterns_in_use : list (Re.regex * bool) :=
  (firstn 13 rarity_patterns ++ skipn 15 rarity_patterns)%list.

(** * Properties *)

(** ** A literal pattern is a substring test *)

Lemma ascii_eqb_dec (c d : ascii) :
  Ascii.eqb c d = if ascii_dec c d then true else false.
Proof.
  destruct (ascii_dec c d) as [->|Hne].
  - apply Ascii.eqb_refl.
  - now apply Ascii.eqb_neq.
Qed.

Lemma run_Str {T : Type} (whole w rest : string) (g : option string) (k : Re.cont T) :
  Re.run whole (Re.Str w) rest g k =
  if prefix w rest then k (PyStr.drop (String.length w) rest) g else None.
Proof.
  revert rest k. induction w as [|c t IH]; intros rest k.
  - simpl. destruct rest; reflexivity.
  - destruct t as [|c' t'].
    + cbn [Re.Str Re.run String.length]. destruct rest as [|d r]; [reflexivity|].
      rewrite ascii_eqb_dec. cbn [PyStr.drop]. simpl prefix.
      destruct (ascii_dec c d); [|reflexivity]. destruct r; reflexivity.
    + change (Re.Str (String c (String c' t')))
        with (Re.Cat (Re.Lit c) (Re.Str (String c' t'))).
      cbn [Re.run]. destruct rest as [|d r]; [reflexivity|].
      rewrite ascii_eqb_dec.
      cbn [String.length PyStr.drop].
      replace (prefix (String c (String c' t')) (String d r))
        with (if ascii_dec c d then prefix (String c' t') r else false) by reflexivity.
      destruct (ascii_dec c d); [|reflexivity].
      apply IH.
Qed.

Lemma search_from_Str (whole w rest : string) :
  (exists m, Re.search_from whole (Re.Str w) rest = Some m) <->
  PyStr.contains w rest = true.
Proof.
  induction rest as [|d r IH].
  - cbn [Re.search_from PyStr.contains]. unfold Re.match_at. rewrite run_Str.
    rewrite orb_false_r.
    destruct (prefix w "").
    + split; [reflexivity | intros _; eexists; reflexivity].
    + split; [intros [m Hm]; discriminate | discriminate].
  - cbn [Re.search_from PyStr.contains]. unfold Re.match_at. rewrite run_Str.
    destruct (prefix w (String d r)) eqn:Hp.
    + split; [reflexivity | intros _; eexists; reflexivity].
    + cbn [orb]. exact IH.
Qed.

(** [re.search(word, text)] succeeds exactly when [word in text]. *)
Lemma matches_Str (w text : string) :
  matches text (Re.Str w) = PyStr.contains w text.
Proof.
  unfold matches, Re.search.
  destruct (Re.search_from text (Re.Str w) text) as [m|] eqn:Hs.
  - symmetry. apply (search_from_Str text). eauto.
  - destruct (PyStr.contains w text) eqn:Hc; [|reflexivity].
    apply (search_from_Str text) in Hc. destruct Hc as [m Hm]. congruence.
Qed.

Lemma reject_patterns_spec (text : string) :
  existsb (matches text) reject_patterns = true <->
  exists w, In w reject_words /\ PyStr.contains w text = true.
Proof.
  unfold reject_patterns. rewrite existsb_exists. split.
  - intros [p [Hin Hm]]. apply in_map_iff in Hin. destruct Hin as [w [<- Hw]].
    exists w. split; [exact Hw|]. now rewrite <- matches_Str.
  - intros [w [Hw Hc]]. exists (Re.Str w). split.
    + now apply in_map.
    + now rewrite matches_Str.
Qed.

(** ** Rounding to the nearest double *)

Lemma pow2_pos (e : Z) : (0 < 2 ^ e)%Q.
Proof. apply Qpower_0_lt. reflexivity. Qed.

Lemma pow2_plus (a b : Z) : (2 ^ (a + b) == 2 ^ a * 2 ^ b)%Q.
Proof. apply Qpower_plus. discriminate. Qed.

Lemma pow2_succ (a : Z) : (2 ^ (a + 1) == 2 * 2 ^ a)%Q.
Proof. rewrite pow2_plus. change (2 ^ 1)%Q with 2%Q. ring. Qed.

Lemma pow2_cancel (e : Z) : (2 ^ (- e) * 2 ^ e == 1)%Q.
Proof. rewrite <- pow2_plus. replace (- e + e)%Z with 0%Z by lia. reflexivity. Qed.

Lemma pow2_le (a b : Z) : (a <= b)%Z -> (2 ^ a <= 2 ^ b)%Q.
Proof. intros H. apply Qpower_le_compat_l; [exact H | discriminate]. Qed.

Lemma pow2_lt_inv (a b : Z) : (2 ^ a < 2 ^ b)%Q -> (a < b)%Z.
Proof.
  intros H. destruct (Z_lt_le_dec a b) as [Hlt|Hle]; [exact Hlt|].
  apply pow2_le in Hle. lra.
Qed.

Lemma pow2_Z (a : Z) : (0 <= a)%Z -> (inject_Z (2 ^ a) == 2 ^ a)%Q.
Proof. intros H. now rewrite Zpower_Qpower. Qed.

(** [ilog2] is the binary order of magnitude. *)
Lemma ilog2_spec (x : Q) :
  (0 < x)%Q -> (2 ^ ilog2 x <= x /\ x < 2 ^ (ilog2 x + 1))%Q.
Proof.
  intros Hx. unfold ilog2.
  destruct x as [n d]. cbn [Qnum Qden].
  assert (Hn : (0 < n)%Z) by (unfold Qlt in Hx; cbn in Hx; lia).
  destruct (Z.log2_spec n Hn) as [Ha1 Ha2].
  destruct (Z.log2_spec (Zpos d) (Pos2Z.is_pos d)) as [Hb1 Hb2].
  pose proof (Z.log2_nonneg n) as Ha0. pose proof (Z.log2_nonneg (Zpos d)) as Hb0.
  set (a := Z.log2 n) in *. set (b := Z.log2 (Zpos d)) in *.
  assert (Hq : (n # d == inject_Z n / inject_Z (Zpos d))%Q) by apply Qmake_Qdiv.
  assert (Hd : (0 < inject_Z (Zpos d))%Q) by (unfold Qlt; cbn; lia).
  assert (Qa1 : (2 ^ a <= inject_Z n)%Q) by (rewrite <- pow2_Z, <- Zle_Qle; assumption).
  assert (Qa2 : (inject_Z n < 2 ^ (a + 1))%Q).
  { rewrite <- pow2_Z by lia. rewrite <- Zlt_Qlt. replace (a + 1)%Z with (Z.succ a) by lia.
    exact Ha2. }
  assert (Qb1 : (2 ^ b <= inject_Z (Zpos d))%Q) by (rewrite <- pow2_Z, <- Zle_Qle; assumption).
  assert (Qb2 : (inject_Z (Zpos d) < 2 ^ (b + 1))%Q).
  { rewrite <- pow2_Z by lia. rewrite <- Zlt_Qlt. replace (b + 1)%Z with (Z.succ b) by lia.
    exact Hb2. }
  pose proof (pow2_pos a) as Pa. pose proof (pow2_pos b) as Pb.
  pose proof (pow2_pos (a - b)) as Pk.
  assert (Ek : (2 ^ a == 2 ^ (a - b) * 2 ^ b)%Q).
  { rewrite <- pow2_plus. now replace (a - b + b)%Z with a by lia. }
  assert (Hup : (n # d < 2 ^ (a - b + 1))%Q).
  { rewrite Hq. apply Qlt_shift_div_r; [exact Hd|].
    rewrite pow2_succ. rewrite pow2_succ in Qa2. rewrite Ek in Qa2. nra. }
  assert (Hlo : (2 ^ (a - b - 1) < n # d)%Q).
  { rewrite Hq. apply Qlt_shift_div_l; [exact Hd|].
    assert (E1 : (2 ^ (a - b) == 2 * 2 ^ (a - b - 1))%Q).
    { rewrite <- pow2_succ. now replace (a - b - 1 + 1)%Z with (a - b)%Z by lia. }
    pose proof (pow2_pos (a - b - 1)) as Pk1.
    rewrite pow2_succ in Qb2. rewrite Ek, E1 in Qa1. nra. }
  destruct (Qle_bool (2 ^ (a - b)) (n # d)) eqn:E.
  - apply Qle_bool_iff in E. split; assumption.
  - split; [apply Qlt_le_weak; exact Hlo|].
    replace (a - b - 1 + 1)%Z with (a - b)%Z by lia.
    apply Qnot_le_lt. intros H. apply Qle_bool_iff in H. congruence.
Qed.

Lemma round_half_even_nonneg (x : Q) : (0 <= x)%Q -> (0 <= round_half_even x)%Z.
Proof.
  intros Hx. unfold round_half_even.
  assert (H0 : (0 <= Qfloor x)%Z).
  { change 0%Z with (Qfloor 0). now apply Qfloor_resp_le. }
  destruct (Qcompare _ _); [destruct (Z.even _)|..]; lia.
Qed.

Lemma round_half_even_bounds (x : Q) :
  (Qfloor x <= round_half_even x <= Qfloor x + 1)%Z.
Proof.
  unfold round_half_even. destruct (Qcompare _ _); [destruct (Z.even _)|..]; lia.
Qed.

Lemma round_half_even_ge (x : Q) (n : Z) : (Zq n <= x)%Q -> (n <= round_half_even x)%Z.
Proof.
  intros H. pose proof (round_half_even_bounds x) as [Hb _].
  apply Qfloor_resp_le in H. unfold Zq in H. rewrite Qfloor_Z in H. lia.
Qed.

Lemma round_half_even_le (x : Q) (n : Z) : (x <= Zq n)%Q -> (round_half_even x <= n)%Z.
Proof.
  intros Hx. unfold round_half_even.
  pose proof (Qfloor_le x) as Hf.
  assert (Hfn : (Qfloor x <= n)%Z).
  { rewrite Zle_Qle. eapply Qle_trans; eassumption. }
  destruct (Z.eq_dec (Qfloor x) n) as [E|E].
  - assert (Hd : (x - Zq (Qfloor x) < 1 # 2)%Q).
    { rewrite E in *. unfold Zq in *. lra. }
    rewrite Qlt_alt in Hd. rewrite Hd. lia.
  - destruct (Qcompare _ _); [destruct (Z.even _)|..]; lia.
Qed.

Lemma round_half_even_mono (x y : Q) :
  (x <= y)%Q -> (round_half_even x <= round_half_even y)%Z.
Proof.
  intros H. pose proof (Qfloor_resp_le _ _ H) as Hf.
  destruct (Z.eq_dec (Qfloor x) (Qfloor y)) as [E|E].
  - unfold round_half_even. rewrite <- E.
    assert (Hd : (x - Zq (Qfloor x) <= y - Zq (Qfloor x))%Q) by lra.
    destruct (Qcompare_spec (x - Zq (Qfloor x)) (1 # 2)) as [Cx|Cx|Cx];
      destruct (Qcompare_spec (y - Zq (Qfloor x)) (1 # 2)) as [Cy|Cy|Cy];
      try (destruct (Z.even (Qfloor x))); try lia; exfalso; lra.
  - pose proof (round_half_even_bounds x). pose proof (round_half_even_bounds y). lia.
Qed.

(** The significand of a positive number lies between 2^52 and 2^53. *)
Lemma scaled_range (x : Q) :
  (0 < x)%Q ->
  (Zq (2 ^ 52) <= x * 2 ^ (- (ilog2 x - 52)) /\ x * 2 ^ (- (ilog2 x - 52)) < Zq (2 ^ 53))%Q.
Proof.
  intros Hx. destruct (ilog2_spec x Hx) as [H1 H2].
  set (l := ilog2 x) in *.
  replace (- (l - 52))%Z with (52 + - l)%Z by lia.
  rewrite pow2_plus. pose proof (pow2_pos (- l)) as Pm. pose proof (pow2_pos l) as Pl.
  assert (Ec : (2 ^ (- l) * 2 ^ l == 1)%Q) by apply pow2_cancel.
  rewrite pow2_succ in H2.
  unfold Zq. rewrite !pow2_Z by lia.
  assert (E53 : (2 ^ 53 == 2 * 2 ^ 52)%Q) by reflexivity.
  pose proof (pow2_pos 52) as P52.
  split.
  - assert (1 <= x * 2 ^ (- l))%Q by nra. nra.
  - assert (x * 2 ^ (- l) < 2)%Q by nra. rewrite E53. nra.
Qed.

Lemma fl_pos_value (x : Q) :
  (fl_pos x == Zq (round_half_even (x * 2 ^ (- (ilog2 x - 52)))) * 2 ^ (ilog2 x - 52))%Q.
Proof. unfold fl_pos. cbn zeta. apply Qred_correct. Qed.

Lemma ilog2_mono (x y : Q) : (0 < x)%Q -> (x <= y)%Q -> (ilog2 x <= ilog2 y)%Z.
Proof.
  intros Hx Hxy. destruct (ilog2_spec x Hx) as [H1 _].
  destruct (ilog2_spec y ltac:(lra)) as [_ H2].
  assert (H : (2 ^ ilog2 x < 2 ^ (ilog2 y + 1))%Q) by lra.
  apply pow2_lt_inv in H. lia.
Qed.

Lemma fl_pos_mono (x y : Q) : (0 < x)%Q -> (x <= y)%Q -> (fl_pos x <= fl_pos y)%Q.
Proof.
  intros Hx Hxy. assert (Hy : (0 < y)%Q) by lra.
  rewrite !fl_pos_value.
  pose proof (ilog2_mono x y Hx Hxy) as Hl.
  destruct (scaled_range x Hx) as [Hx1 Hx2]. destruct (scaled_range y Hy) as [Hy1 Hy2].
  set (ex := (ilog2 x - 52)%Z) in *. set (ey := (ilog2 y - 52)%Z) in *.
  pose proof (pow2_pos ex) as Pex. pose proof (pow2_pos ey) as Pey.
  destruct (Z.eq_dec ex ey) as [E|E].
  - rewrite <- E in *.
    assert (Hs : (x * 2 ^ (- ex) <= y * 2 ^ (- ex))%Q).
    { pose proof (pow2_pos (- ex)). nra. }
    apply round_half_even_mono in Hs. rewrite Zle_Qle in Hs. unfold Zq. nra.
  - assert (Hlt : (ex + 1 <= ey)%Z) by (subst ex ey; lia).
    apply Qlt_le_weak in Hx2. apply round_half_even_le in Hx2.
    apply round_half_even_ge in Hy1.
    rewrite Zle_Qle in Hx2, Hy1. unfold Zq.
    apply pow2_le in Hlt. rewrite pow2_succ in Hlt.
    change (inject_Z (2 ^ 53)) with (2 * inject_Z (2 ^ 52))%Q in Hx2.
    assert (H52 : (0 < inject_Z (2 ^ 52))%Q) by reflexivity.
    set (rx := inject_Z (round_half_even (x * 2 ^ (- ex)))) in *.
    set (ry := inject_Z (round_half_even (y * 2 ^ (- ey)))) in *.
    apply Qle_trans with (2 * inject_Z (2 ^ 52) * 2 ^ ex)%Q; [nra|].
    apply Qle_trans with (inject_Z (2 ^ 52) * 2 ^ ey)%Q; nra.
Qed.

Lemma fl_pos_positive (x : Q) : (0 < x)%Q -> (0 < fl_pos x)%Q.
Proof.
  intros Hx. rewrite fl_pos_value. destruct (scaled_range x Hx) as [H1 _].
  apply round_half_even_ge in H1. rewrite Zle_Qle in H1.
  pose proof (pow2_pos (ilog2 x - 52)) as P.
  assert (H52 : (0 < inject_Z (2 ^ 52))%Q) by reflexivity.
  unfold Zq. nra.
Qed.

Lemma fl_sign (x : Q) :
  match Qnum x with
  | Z0 => (x == 0)%Q
  | Zpos _ => (0 < x)%Q
  | Zneg _ => (x < 0)%Q
  end.
Proof. destruct x as [[|p|p] d]; unfold Qeq, Qlt; cbn; lia. Qed.

(** Rounding keeps the order and the sign. *)
Lemma fl_mono (x y : Q) : (x <= y)%Q -> (fl x <= fl y)%Q.
Proof.
  intros H. unfold fl. pose proof (fl_sign x) as Sx. pose proof (fl_sign y) as Sy.
  destruct (Qnum x) eqn:Ex; destruct (Qnum y) eqn:Ey.
  - lra.
  - pose proof (fl_pos_positive y Sy). lra.
  - lra.
  - lra.
  - now apply fl_pos_mono.
  - lra.
  - pose proof (fl_pos_positive (- x) ltac:(lra)). lra.
  - pose proof (fl_pos_positive (- x) ltac:(lra)). pose proof (fl_pos_positive y Sy). lra.
  - assert (Hm : (fl_pos (- y) <= fl_pos (- x))%Q) by (apply fl_pos_mono; lra). lra.
Qed.

Lemma fl_nonneg (x : Q) : (0 <= x)%Q -> (0 <= fl x)%Q.
Proof. intros H. apply fl_mono in H. exact H. Qed.

(** A bound that is itself a double survives the rounding. *)
Lemma fl_le (x b : Q) : fl b = b -> (x <= b)%Q -> (fl x <= b)%Q.
Proof. intros Hb H. rewrite <- Hb. now apply fl_mono. Qed.

Lemma fl_ge (x b : Q) : fl b = b -> (b <= x)%Q -> (b <= fl x)%Q.
Proof. intros Hb H. rewrite <- Hb. now apply fl_mono. Qed.

(** The operations on floats keep the order in each argument that is not
    negative. *)
Lemma fmul_mono (a b c d : Q) :
  (0 <= a)%Q -> (a <= b)%Q -> (0 <= c)%Q -> (c <= d)%Q -> (fmul a c <= fmul b d)%Q.
Proof. intros Ha Hab Hc Hcd. apply fl_mono. nra. Qed.

Lemma fadd_mono (a b c d : Q) :
  (a <= b)%Q -> (c <= d)%Q -> (fadd a c <= fadd b d)%Q.
Proof. intros Hab Hcd. apply fl_mono. lra. Qed.

Lemma fmul_nonneg (a b : Q) : (0 <= a)%Q -> (0 <= b)%Q -> (0 <= fmul a b)%Q.
Proof. intros Ha Hb. apply fl_nonneg. nra. Qed.

Lemma fadd_nonneg (a b : Q) : (0 <= a)%Q -> (0 <= b)%Q -> (0 <= fadd a b)%Q.
Proof. intros Ha Hb. apply fl_nonneg. lra. Qed.

(** The double nearest to 0.7 lies just below it. *)
Lemma seven_tenths : (0 < fl (7 # 10))%Q /\ (fl (7 # 10) <= 7 # 10)%Q.
Proof. split; vm_compute; [reflexivity | discriminate]. Qed.

(** The rounding agrees with the primitive binary64 operations on the
    computations the scoring code makes: the literal 0.7, a scaled
    similarity, a blend, and the share of matched words. *)
Lemma fl_agrees_with_binary64 :
  let f := Binary64.of_Z in
  let c07 := Binary64.dec 7 10 in
  let c09 := Binary64.dec 9 10 in
  let c075 := Binary64.dec 3 4 in
  let c025 := Binary64.dec 1 4 in
  let scaled := PrimFloat.mul (f 57%Z) c07 in
  let blended := PrimFloat.add (PrimFloat.mul (f 100%Z) c075) (PrimFloat.mul scaled c025) in
  let share := PrimFloat.mul (PrimFloat.div (f 2%Z) (f 3%Z)) (f 100%Z) in
  let penalised := PrimFloat.mul (PrimFloat.div (f 3%Z) (f 7%Z)) c09 in
  (Binary64.exact c07 == fl (7 # 10))%Q /\
  (Binary64.exact scaled == fmul 57 (fl (7 # 10)))%Q /\
  (Binary64.exact blended
   == fadd (fmul 100 (3 # 4)) (fmul (fmul 57 (fl (7 # 10))) (1 # 4)))%Q /\
  (Binary64.exact (PrimFloat.mul share c075) == fmul (fmul (fdiv 2 3) 100) (3 # 4))%Q /\
  (Binary64.exact penalised == fmul (fdiv 3 7) (fl (9 # 10)))%Q.
Proof. cbn zeta. repeat split; vm_compute; reflexivity. Qed.


(** ** The reference similarity functions stay within 0..100 *)

Lemma lcs_row_bound (b : nat) (c : ascii) (s2 : string) :
  forall prev diag left,
    Forall (fun x => x <= b) prev -> diag <= b -> left <= S b ->
    Forall (fun x => x <= S b) (FuzzRef.lcs_row c s2 prev diag left).
Proof.
  induction s2 as [|d s2 IH]; intros prev diag left Hp Hd Hl; [constructor|].
  destruct prev as [|p prev]; cbn [FuzzRef.lcs_row]; [constructor|].
  inversion Hp as [|? ? Hp0 Hp1]; subst.
  assert (Hv : (if Ascii.eqb c d then S diag else Nat.max p left) <= S b)
    by (destruct (Ascii.eqb c d); lia).
  constructor; [exact Hv|]. apply IH; auto.
Qed.

Lemma lcs_row_columns (c : ascii) (s2 : string) :
  forall k prev diag left,
    column_bounded k prev -> diag <= k -> left <= k ->
    column_bounded k (FuzzRef.lcs_row c s2 prev diag left).
Proof.
  induction s2 as [|d s2 IH]; intros k prev diag left Hp Hd Hl; [exact I|].
  destruct prev as [|p prev]; cbn [FuzzRef.lcs_row]; [exact I|].
  destruct Hp as [Hp0 Hp1].
  assert (Hv : (if Ascii.eqb c d then S diag else Nat.max p left) <= S k)
    by (destruct (Ascii.eqb c d); lia).
  split; [exact Hv|]. apply IH; auto.
Qed.

Lemma lcs_row_length (c : ascii) (s2 : string) :
  forall prev diag left,
    List.length prev = String.length s2 ->
    List.length (FuzzRef.lcs_row c s2 prev diag left) = String.length s2.
Proof.
  induction s2 as [|d s2 IH]; intros prev diag left H; [reflexivity|].
  destruct prev as [|p prev]; [discriminate|]. cbn in *. f_equal. apply IH. lia.
Qed.

Lemma lcs_rows_bound (s1 s2 : string) :
  forall b prev,
    Forall (fun x => x <= b) prev -> column_bounded 0 prev ->
    List.length prev = String.length s2 ->
    Forall (fun x => x <= b + String.length s1) (FuzzRef.lcs_rows s1 s2 prev) /\
    column_bounded 0 (FuzzRef.lcs_rows s1 s2 prev) /\
    List.length (FuzzRef.lcs_rows s1 s2 prev) = String.length s2.
Proof.
  induction s1 as [|c s1 IH]; intros b prev Hb Hc Hl; cbn [FuzzRef.lcs_rows String.length].
  - rewrite Nat.add_0_r. auto.
  - replace (b + S (String.length s1)) with (S b + String.length s1) by lia.
    apply IH.
    + apply lcs_row_bound; auto; lia.
    + apply lcs_row_columns; auto.
    + now apply lcs_row_length.
Qed.

Lemma last_bounds (row : list nat) :
  forall b k, Forall (fun x => x <= b) row -> column_bounded k row ->
              last row 0 <= b /\ last row 0 <= k + List.length row.
Proof.
  induction row as [|x r IH]; intros b k Hb Hc; cbn [last List.length]; [lia|].
  inversion Hb as [|? ? Hx Hr]; subst. destruct Hc as [Hc0 Hc1].
  destruct r as [|y r]; [lia|].
  destruct (IH b (S k) Hr Hc1) as [H1 H2]. cbn [List.length] in *. lia.
Qed.

Lemma lcs_le (s1 s2 : string) :
  FuzzRef.lcs s1 s2 <= String.length s1 /\ FuzzRef.lcs s1 s2 <= String.length s2.
Proof.
  unfold FuzzRef.lcs.
  assert (H0 : Forall (fun x => x <= 0) (repeat 0 (String.length s2))).
  { apply Forall_forall. intros x Hx. apply repeat_spec in Hx. lia. }
  assert (Hc : forall n k, column_bounded k (repeat 0 n)).
  { induction n as [|n IH]; intros k; cbn; [exact I|]. split; [lia | apply IH]. }
  specialize (Hc (String.length s2) 0).
  destruct (lcs_rows_bound s1 s2 0 _ H0 Hc (repeat_length _ _)) as (Hb & Hcol & Hlen).
  destruct (last_bounds _ _ 0 Hb Hcol) as [H1 H2]. rewrite Hlen in H2. lia.
Qed.

Lemma FuzzRef_ratio_range (s1 s2 : string) : (0 <= FuzzRef.ratio s1 s2 <= 100)%Z.
Proof.
  unfold FuzzRef.ratio.
  destruct (String.eqb s1 s2); [lia|].
  destruct ((String.length s1 =? 0) || (String.length s2 =? 0)) eqn:E; [lia|].
  apply orb_false_iff in E. destruct E as [E1 E2].
  apply Nat.eqb_neq in E1, E2.
  destruct (lcs_le s1 s2) as [H1 H2].
  set (l := FuzzRef.lcs s1 s2) in *.
  set (t := String.length s1 + String.length s2) in *.
  assert (Ht : t <> 0) by (unfold t; lia).
  assert (Hp : Z.pos (Pos.of_nat t) = Z.of_nat t).
  { rewrite <- positive_nat_Z, Nat2Pos.id by exact Ht. reflexivity. }
  split.
  - apply round_half_even_nonneg. unfold Qle. cbn [Qnum Qden]. lia.
  - apply round_half_even_le. unfold Qle, Zq, inject_Z. cbn [Qnum Qden].
    rewrite Hp. unfold t. lia.
Qed.

Lemma FuzzRef_token_set_ratio_range (s1 s2 : string) :
  (0 <= FuzzRef.token_set_ratio s1 s2 <= 100)%Z.
Proof.
  unfold FuzzRef.token_set_ratio.
  destruct (_ || _); [lia|]. cbn zeta.
  match goal with
  | |- (0 <= Z.max (Z.max (FuzzRef.ratio ?a ?b) (FuzzRef.ratio ?c ?d)) (FuzzRef.ratio ?e ?f) <= 100)%Z =>
      pose proof (FuzzRef_ratio_range a b); pose proof (FuzzRef_ratio_range c d);
      pose proof (FuzzRef_ratio_range e f)
  end.
  lia.
Qed.

(** ** The pending selection *)

Lemma add_card_pending (a : app) (c : card) (art rarity : option string) :
  let a' := fst (add_card_to_session a c art rarity) in
  pending_voice_confirmation a' = pending_voice_confirmation a /\
  pending_card_options a' = pending_card_options a /\
  pending_voice_data a' = pending_voice_data a /\
  set_cards a' = set_cards a.
Proof.
  unfold add_card_to_session. cbn zeta.
  destruct (negb (session_tracker (push_card a _))); cbn; auto.
Qed.

Lemma add_card_no_query (a : app) (c : card) (art rarity : option string) :
  forallb (fun e => negb (query_event e)) (snd (add_card_to_session a c art rarity)) = true.
Proof.
  unfold add_card_to_session. cbn zeta.
  destruct (negb (session_tracker (push_card a _))); reflexivity.
Qed.

Lemma commit_option_idle (a : app) (v : variant) (art : option string) :
  idle (fst (commit_option a v art)).
Proof.
  unfold commit_option.
  pose proof (add_card_pending (set_pending a false []) (v_card_data v) art
                               (Some (v_rarity v))) as H.
  destruct (add_card_to_session _ _ _ _) as [a2 ev]. cbn in *.
  destruct H as (H1 & H2 & _). unfold idle. cbn. auto.
Qed.

Lemma commit_option_no_query (a : app) (v : variant) (art : option string) :
  forallb (fun e => negb (query_event e)) (snd (commit_option a v art)) = true.
Proof.
  unfold commit_option.
  pose proof (add_card_no_query (set_pending a false []) (v_card_data v) art
                                (Some (v_rarity v))) as H.
  destruct (add_card_to_session _ _ _ _) as [a2 ev]. exact H.
Qed.

Lemma handle_voice_selection_answer (a : app) (text : string) :
  answer a text (handle_voice_selection a text).
Proof.
  unfold handle_voice_selection.
  destruct (first_search number_patterns text) as [m|] eqn:Hs.
  - set (i := (PyStr.int (get (Re.group1 m) "") - 1)%Z).
    assert (Hi : spoken_index text = Some i) by (unfold spoken_index; now rewrite Hs).
    destruct ((0 <=? i)%Z && (i <? Z.of_nat (List.length (pending_card_options a)))%Z)
      eqn:Hr.
    + apply andb_true_iff in Hr. destruct Hr as [H0 H1].
      apply Z.leb_le in H0. apply Z.ltb_lt in H1.
      destruct (nth_error (pending_card_options a) (Z.to_nat i)) as [v|] eqn:Hn.
      * apply (answer_commit a text i v); [exact Hi | split; assumption | exact Hn].
      * exfalso. apply nth_error_None in Hn. lia.
    + apply (answer_invalid a text i); [exact Hi|].
      intros [H0 H1]. apply Z.leb_le in H0. apply Z.ltb_lt in H1.
      rewrite H0, H1 in Hr. discriminate.
  - assert (Hi : spoken_index text = None) by (unfold spoken_index; now rewrite Hs).
    destruct (existsb (matches text) reject_patterns) eqn:Hc.
    + apply answer_cancel; [exact Hi|]. now apply reject_patterns_spec.
    + apply answer_reprompt; [exact Hi|].
      intros H. apply reject_patterns_spec in H. congruence.
Qed.

Lemma handle_voice_selection_no_query (a : app) (text : string) :
  forallb (fun e => negb (query_event e)) (snd (handle_voice_selection a text)) = true.
Proof.
  destruct (handle_voice_selection_answer a text); try reflexivity.
  apply commit_option_no_query.
Qed.

(** Outside a pending selection an utterance that is processed to the end
    always logs the start of a query. *)
Lemma idle_utterance_starts_query
      (fuzz_ratio fuzz_token_set_ratio : string -> string -> Z)
      (a a' : app) (ev : list event) (utterance : string) :
  pending_voice_confirmation a = false ->
  process_voice_input fuzz_ratio fuzz_token_set_ratio a utterance = Ok (a', ev) ->
  existsb query_event ev = true.
Proof.
  intros Hp. unfold process_voice_input. rewrite Hp.
  destruct (if auto_art_rarity_enabled a then _ else _) as [art nm].
  destruct (if auto_rarity_enabled a then _ else _) as [rar nm'].
  destruct (find_and_present_card_options _ _ _ _ _ _) as [[a1 e1]|e]; [|discriminate].
  intros H. injection H as <- <-. reflexivity.
Qed.

(** C1. While a selection is pending, a recognized utterance is handed to
    the ordinal/cancel parser and starts no query; the pending selection is
    dropped only on a valid in-range ordinal or on a cancel word, and every
    other utterance (an out-of-range ordinal, a text that is neither) leaves
    the whole state, the option list included, as it was. *)
Theorem pending_selection_only_answered
        (fuzz_ratio fuzz_token_set_ratio : string -> string -> Z)
        (a : app) (utterance : string) :
  pending_voice_confirmation a = true ->
  let text := PyStr.strip (PyStr.lower utterance) in
  exists a' ev,
    process_voice_input fuzz_ratio fuzz_token_set_ratio a utterance = Ok (a', ev) /\
    (a', ev) = handle_voice_selection a text /\
    forallb (fun e => negb (query_event e)) ev = true /\
    (pending_voice_confirmation a' = false \/
     pending_card_options a' <> pending_card_options a ->
     (valid_ordinal a text \/ cancel_match text) /\ idle a') /\
    ((exists i, spoken_index text = Some i /\ ~ in_range a i) -> a' = a) /\
    (~ valid_ordinal a text -> ~ cancel_match text -> a' = a).
Proof.
  intros Hp text.
  destruct (handle_voice_selection a text) as [a' ev] eqn:Hh.
  exists a', ev. split.
  - unfold process_voice_input. rewrite Hp. fold text. now rewrite Hh.
  - split; [reflexivity|]. split.
    + pose proof (handle_voice_selection_no_query a text) as H. now rewrite Hh in H.
    + pose proof (handle_voice_selection_answer a text) as Ha. rewrite Hh in Ha.
      inversion Ha as [i v Hi Hr Hn Hc | i Hi Hr [H1 H2] | Hi Hc [H1 H2] | Hi Hc [H1 H2]];
        subst.
      * pose proof (commit_option_idle a v (pending_art_variant a)) as Hidle.
        rewrite Hc in Hidle. cbn [fst] in Hidle.
        split; [intros _; split; [left; exists i; auto | exact Hidle]|].
        split.
        -- intros [j [Hj Hnr]]. rewrite Hi in Hj. injection Hj as <-. contradiction.
        -- intros Hv. exfalso. apply Hv. exists i. auto.
      * split.
        -- intros [H|H]; [congruence | contradiction].
        -- auto.
      * split.
        -- intros _. split; [right; exact Hc|]. unfold idle, clear_pending. cbn. auto.
        -- split.
           ++ intros [j [Hj _]]. congruence.
           ++ intros _ Hn. contradiction.
      * split.
        -- intros [H|H]; [congruence | contradiction].
        -- auto.
Qed.

(** C1, witnessed on the utterance "5" against three pending options. *)
Lemma pending_selection_only_answered_witness :
  exists a' ev,
    process_voice_input FuzzRef.ratio FuzzRef.token_set_ratio
                        (awaiting three_options) "5" = Ok (a', ev) /\
    a' = awaiting three_options.
Proof.
  destruct (pending_selection_only_answered
              FuzzRef.ratio FuzzRef.token_set_ratio (awaiting three_options) "5"
              eq_refl) as (a' & ev & H1 & _ & _ & _ & H2 & _).
  exists a', ev. split; [exact H1|].
  apply H2. exists 4%Z. split; [reflexivity|].
  unfold in_range. cbn. lia.
Defined.

(** The dialog's cancel button drops the pending selection as the cancel
    word does. *)
Lemma cancel_selection_idle (a : app) :
  idle (fst (cancel_selection a)) /\ cards (fst (cancel_selection a)) = cards a.
Proof. unfold idle. cbn. auto. Qed.

(** An ordinal pattern that matches settles the utterance: the cancel
    vocabulary is not looked at. *)
Lemma ordinal_before_cancel (a : app) (text : string) (m : Re.mtch) :
  first_search number_patterns text = Some m ->
  snd (handle_voice_selection a text) <> [SetStatus SelectionCancelled].
Proof.
  intros Hs. unfold handle_voice_selection. rewrite Hs.
  destruct (_ && _)%bool.
  - destruct (nth_error _ _) as [v|]; [|discriminate].
    unfold commit_option, add_card_to_session. cbn zeta.
    destruct (negb _); cbn; discriminate.
  - discriminate.
Qed.

(** C10. An utterance that matches none of the ordinal patterns and
    contains a cancel word anywhere, as a substring, drops the pending
    selection; nothing is committed. *)
Theorem cancel_word_anywhere_clears (a : app) (text : string) :
  first_search number_patterns text = None ->
  cancel_match text ->
  handle_voice_selection a text = (clear_pending a, [SetStatus SelectionCancelled]) /\
  idle (clear_pending a) /\
  cards (clear_pending a) = cards a.
Proof.
  intros Hs Hc. split.
  - unfold handle_voice_selection. rewrite Hs.
    apply reject_patterns_spec in Hc. now rewrite Hc.
  - unfold idle. cbn. auto.
Qed.

(** C10, witnessed on "knockout", which contains "no". *)
Lemma cancel_word_anywhere_clears_witness :
  handle_voice_selection (awaiting three_options) "knockout"
  = (clear_pending (awaiting three_options), [SetStatus SelectionCancelled]).
Proof.
  apply (cancel_word_anywhere_clears (awaiting three_options) "knockout").
  - reflexivity.
  - exists "no". split; [cbn; auto | reflexivity].
Defined.

Example unknown_cancels :
  fst (handle_voice_selection (awaiting three_options) "unknown")
  = clear_pending (awaiting three_options).
Proof. reflexivity. Qed.

Example ordinal_then_cancel_word_stays :
  handle_voice_selection (awaiting three_options) "option 9 cancel"
  = (awaiting three_options, [SetStatus (InvalidSelection 3)]).
Proof. reflexivity. Qed.

Example option_two_commits_second :
  exists v, nth_error three_options 1 = Some v /\
            handle_voice_selection (awaiting three_options) "option 2"
            = commit_option (awaiting three_options) v None.
Proof. eexists. split; reflexivity. Qed.

(** ** What a commit hands to the session *)

Lemma add_card_to_session_outcome (a : app) (v : variant) (art_variant : option string) :
  let r := add_card_to_session a (v_card_data v) art_variant (Some (v_rarity v)) in
  cards (fst r) = (cards a ++ [committed_entry v art_variant])%list /\
  (session_tracker a = true -> In (FetchPrice (committed_request v art_variant)) (snd r)) /\
  (forall p, In (FetchPrice p) (snd r) -> p = committed_request v art_variant).
Proof.
  cbn zeta. unfold add_card_to_session. cbn zeta. cbn [session_tracker push_card].
  destruct (session_tracker a); cbn [negb fst snd].
  - split; [reflexivity|]. split.
    + intros _. right. now left.
    + intros p [H|[H|[]]]; [discriminate | now injection H as <-].
  - split; [reflexivity|]. split; [discriminate | intros p []].
Qed.

Lemma commit_option_outcome (a : app) (v : variant) (art_variant : option string) :
  let r := commit_option a v art_variant in
  cards (fst r) = (cards a ++ [committed_entry v art_variant])%list /\
  (session_tracker a = true -> In (FetchPrice (committed_request v art_variant)) (snd r)) /\
  (forall p, In (FetchPrice p) (snd r) -> p = committed_request v art_variant).
Proof.
  cbn zeta. unfold commit_option.
  pose proof (add_card_to_session_outcome (set_pending a false []) v art_variant) as H.
  cbn zeta in H.
  destruct (add_card_to_session _ _ _ _) as [a2 ev]. cbn [fst snd] in *. exact H.
Qed.

(** The price request carries the chosen rarity and the hint, and as card
    number the set code of the card's first listed printing. *)
Lemma committed_request_fields (v : variant) (art_variant : option string)
      (p : price_payload) :
  committed_request v art_variant = Ok p ->
  first_set_code (v_card_data v) = Some (pp_card_number p) /\
  pp_card_rarity p = committed_rarity (v_card_data v) (v_rarity v) /\
  pp_art_variant p = or_else art_variant "" /\
  pp_card_name p = get (name (v_card_data v)) "".
Proof.
  unfold committed_request, price_request, first_set_code.
  destruct (get (card_sets (v_card_data v)) _) as [|first rest]; [discriminate|].
  intros H. injection H as <-. cbn. auto.
Qed.

Lemma committed_rarity_label (c : card) (label : string) :
  label <> "" -> committed_rarity c label = label.
Proof.
  intros H. unfold committed_rarity, or_else.
  destruct (String.eqb label "") eqn:E; [|reflexivity].
  apply String.eqb_eq in E. contradiction.
Qed.

Section Commit.

Variable fuzz_ratio : string -> string -> Z.
Variable fuzz_token_set_ratio : string -> string -> Z.

(** An automatic confirmation commits the head of the ranked list. *)
Lemma auto_confirm_outcome (a a' : app) (ev : list event) (card_name : string)
      (art_variant rarity : option string) :
  find_and_present_card_options fuzz_ratio fuzz_token_set_ratio a card_name
                                art_variant rarity = Ok (a', ev) ->
  cards a' <> cards a ->
  exists exact_name_matches all_variants best_match rest,
    expand_matches fuzz_ratio fuzz_token_set_ratio (set_cards a) card_name rarity
                   (first_pass fuzz_ratio fuzz_token_set_ratio (set_cards a)
                               card_name rarity)
                   ([], []) = Ok (exact_name_matches, all_variants) /\
    rank_variants exact_name_matches all_variants = best_match :: rest /\
    cards a' = (cards a ++ [committed_entry best_match art_variant])%list /\
    (session_tracker a = true ->
     In (FetchPrice (committed_request best_match art_variant)) ev) /\
    (forall p, In (FetchPrice p) ev -> p = committed_request best_match art_variant).
Proof.
  unfold find_and_present_card_options.
  destruct (set_cards a) as [|c0 cs] eqn:Hsc.
  { intros H. injection H as <- <-. congruence. }
  rewrite <- Hsc. clear Hsc.
  destruct (first_pass fuzz_ratio fuzz_token_set_ratio (set_cards a) card_name rarity)
    as [|m ms].
  { intros H. injection H as <- <-. congruence. }
  destruct (expand_matches _ _ _ _ _ _ _) as [[ex al]|e] eqn:He; [|discriminate].
  destruct (ex ++ al)%list as [|x xs] eqn:Hxs.
  { intros H. injection H as <- <-. congruence. }
  destruct (rank_variants ex al) as [|best rest] eqn:Hr; [discriminate|].
  destruct (auto_confirm_var a && _)%bool.
  - pose proof (add_card_to_session_outcome (set_locked a true) best art_variant) as Ho.
    cbn zeta in Ho.
    destruct (add_card_to_session _ _ _ _) as [a1 e1]. cbn [fst snd] in Ho.
    intros H _. injection H as <- <-.
    destruct Ho as (H1 & H2 & H3).
    exists ex, al, best, rest.
    split; [reflexivity|]. split; [exact Hr|]. split; [exact H1|]. split.
    + intros Ht. apply in_or_app. left. now apply H2.
    + intros p Hp. apply in_app_or in Hp. destruct Hp as [Hp|[Hp|[]]]; [|discriminate].
      now apply H3.
  - unfold show_voice_card_options. intros H. injection H as <- <-.
    cbn. congruence.
Qed.

(** C2 (amended). Every successful resolution, by a spoken ordinal, by a
    click on an option or by automatic confirmation, hands the session the
    chosen option's card, the chosen rarity label and the art-variant hint;
    the price request that follows is keyed by the set code of the card's
    first listed printing. *)
Theorem commit_hands_card_rarity_art :
  (forall a text i v,
     spoken_index text = Some i -> in_range a i ->
     nth_error (pending_card_options a) (Z.to_nat i) = Some v ->
     let r := handle_voice_selection a text in
     cards (fst r) = (cards a ++ [committed_entry v (pending_art_variant a)])%list /\
     (forall p, In (FetchPrice p) (snd r) ->
                p = committed_request v (pending_art_variant a))) /\
  (forall card_matches art_variant a index v,
     (0 <= index < Z.of_nat (List.length card_matches))%Z ->
     nth_error card_matches (Z.to_nat index) = Some v ->
     let r := select_option card_matches art_variant a index in
     cards (fst r) = (cards a ++ [committed_entry v art_variant])%list /\
     (forall p, In (FetchPrice p) (snd r) -> p = committed_request v art_variant)) /\
  (forall a a' ev card_name art_variant rarity,
     find_and_present_card_options fuzz_ratio fuzz_token_set_ratio a card_name
                                   art_variant rarity = Ok (a', ev) ->
     cards a' <> cards a ->
     exists exact_name_matches all_variants best_match rest,
       expand_matches fuzz_ratio fuzz_token_set_ratio (set_cards a) card_name rarity
                      (first_pass fuzz_ratio fuzz_token_set_ratio (set_cards a)
                                  card_name rarity)
                      ([], []) = Ok (exact_name_matches, all_variants) /\
       rank_variants exact_name_matches all_variants = best_match :: rest /\
       cards a' = (cards a ++ [committed_entry best_match art_variant])%list /\
       (forall p, In (FetchPrice p) ev -> p = committed_request best_match art_variant)) /\
  (forall v art_variant,
     sc_card_data (committed_entry v art_variant) = v_card_data v /\
     sc_art_variant (committed_entry v art_variant) = or_else art_variant "None" /\
     (v_rarity v <> "" -> sc_card_rarity (committed_entry v art_variant) = v_rarity v) /\
     (forall p, committed_request v art_variant = Ok p ->
        first_set_code (v_card_data v) = Some (pp_card_number p) /\
        pp_card_rarity p = sc_card_rarity (committed_entry v art_variant) /\
        pp_art_variant p = or_else art_variant "")).
Proof.
  split; [|split; [|split]].
  - intros a text i v Hi Hr Hn. cbn zeta.
    unfold handle_voice_selection. unfold spoken_index in Hi.
    destruct (first_search number_patterns text) as [m|]; [|discriminate].
    injection Hi as Hi. rewrite Hi.
    destruct Hr as [H0 H1]. apply Z.leb_le in H0. apply Z.ltb_lt in H1.
    rewrite H0, H1. cbn [andb]. rewrite Hn.
    pose proof (commit_option_outcome a v (pending_art_variant a)) as H. cbn zeta in H.
    tauto.
  - intros card_matches art_variant a index v [H0 H1] Hn. cbn zeta.
    unfold select_option. apply Z.leb_le in H0. apply Z.ltb_lt in H1.
    rewrite H0, H1. cbn [andb]. rewrite Hn.
    pose proof (commit_option_outcome a v art_variant) as H. cbn zeta in H. tauto.
  - intros a a' ev card_name art_variant rarity H Hc.
    destruct (auto_confirm_outcome a a' ev card_name art_variant rarity H Hc)
      as (ex & al & best & rest & H1 & H2 & H3 & _ & H5).
    exists ex, al, best, rest. auto.
  - intros v art_variant. split; [reflexivity|]. split; [reflexivity|]. split.
    + intros Hne. now apply committed_rarity_label.
    + intros p Hp. apply committed_request_fields in Hp. tauto.
Qed.

End Commit.

(** C2 as stated fails: with the two printings of "Dark Magician" on offer
    (LOB-005 and SDY-006), saying "2" or clicking the second option commits
    the Common printing, whose set code is SDY-006, but the session entry
    holds no set code of its own and the price request is sent for
    LOB-005. *)
Lemma chosen_set_code_counterexample :
  exists chosen request,
    nth_error magician_options 1 = Some chosen /\
    v_set_code chosen = "SDY-006" /\
    snd (handle_voice_selection (awaiting magician_options) "2")
    = [SetStatus (Added "Dark Magician" "Common"); FetchPrice (Ok request)] /\
    snd (select_option magician_options None (awaiting magician_options) 1)
    = [SetStatus (Added "Dark Magician" "Common"); FetchPrice (Ok request)] /\
    cards (fst (handle_voice_selection (awaiting magician_options) "2"))
    = [committed_entry chosen None] /\
    pp_card_number request = "LOB-005" /\
    pp_card_number request <> v_set_code chosen.
Proof.
  eexists. eexists. repeat split; try reflexivity. discriminate.
Qed.

(** C2 (amended), witnessed on the same selection. *)
Lemma commit_hands_card_rarity_art_witness :
  exists chosen,
    nth_error magician_options 1 = Some chosen /\
    cards (fst (handle_voice_selection (awaiting magician_options) "2"))
    = [committed_entry chosen None].
Proof.
  destruct (commit_hands_card_rarity_art FuzzRef.ratio FuzzRef.token_set_ratio)
    as (Hvoice & _).
  eexists. split; [reflexivity|].
  apply (Hvoice (awaiting magician_options) "2" 1%Z).
  - reflexivity.
  - unfold in_range. cbn. lia.
  - reflexivity.
Defined.

(** ** Numbers *)

Lemma Qltb_lt (a b : Q) : Qltb a b = true <-> (a < b)%Q.
Proof.
  unfold Qltb. rewrite negb_true_iff. split.
  - intros H. apply Qnot_le_lt. intros Hle. apply Qle_bool_iff in Hle. congruence.
  - intros H. destruct (Qle_bool b a) eqn:E; [|reflexivity].
    apply Qle_bool_iff in E. exfalso. exact (Qlt_not_le _ _ H E).
Qed.

Lemma Qltb_ge (a b : Q) : Qltb a b = false <-> (b <= a)%Q.
Proof.
  unfold Qltb. rewrite negb_false_iff. apply Qle_bool_iff.
Qed.

Lemma py_min_le_l (a b : Q) : (py_min a b <= a)%Q.
Proof.
  unfold py_min. destruct (Qltb b a) eqn:E.
  - apply Qltb_lt in E. now apply Qlt_le_weak.
  - apply Qle_refl.
Qed.

Lemma py_min_le_r (a b : Q) : (py_min a b <= b)%Q.
Proof.
  unfold py_min. destruct (Qltb b a) eqn:E.
  - apply Qle_refl.
  - now apply Qltb_ge in E.
Qed.

Lemma py_max_ge_l (a b : Q) : (a <= py_max a b)%Q.
Proof.
  unfold py_max. destruct (Qltb a b) eqn:E.
  - apply Qltb_lt in E. now apply Qlt_le_weak.
  - apply Qle_refl.
Qed.

Lemma py_max_ge_r (a b : Q) : (b <= py_max a b)%Q.
Proof.
  unfold py_max. destruct (Qltb a b) eqn:E.
  - apply Qle_refl.
  - now apply Qltb_ge in E.
Qed.

(** ** The rarity scorer *)

Section RarityScores.

Variable fuzz_ratio : string -> string -> Z.

(** An integer times 0.7 is never 100: 142 gives less and 143 gives more. *)
Lemma scaled_ratio_not_100 (z : Z) : Qeq_bool (fmul (Zq z) (fl (7 # 10))) 100 = false.
Proof.
  destruct (Qeq_bool (fmul (Zq z) (fl (7 # 10))) 100) eqn:E; [|reflexivity].
  apply Qeq_bool_iff in E. exfalso.
  destruct seven_tenths as [Hc _].
  destruct (Z_le_gt_dec z 142) as [Hz|Hz].
  - assert (H : (fmul (Zq z) (fl (7 # 10)) <= fmul (Zq 142) (fl (7 # 10)))%Q).
    { apply fl_mono. apply Qmult_le_compat_r; [|now apply Qlt_le_weak].
      unfold Zq. now rewrite <- Zle_Qle. }
    assert (H142 : (fmul (Zq 142) (fl (7 # 10)) < 100)%Q) by (vm_compute; reflexivity).
    lra.
  - assert (H : (fmul (Zq 143) (fl (7 # 10)) <= fmul (Zq z) (fl (7 # 10)))%Q).
    { apply fl_mono. apply Qmult_le_compat_r; [|now apply Qlt_le_weak].
      unfold Zq. rewrite <- Zle_Qle. lia. }
    assert (H143 : (100 < fmul (Zq 143) (fl (7 # 10)))%Q) by (vm_compute; reflexivity).
    lra.
Qed.

(** From a similarity of 70 on, the scaled score is positive. *)
Lemma scaled_ratio_positive (z : Z) :
  (70 <= z)%Z -> (0 < fmul (Zq z) (fl (7 # 10)))%Q.
Proof.
  intros Hz. destruct seven_tenths as [Hc _].
  assert (H : (fmul (Zq 70) (fl (7 # 10)) <= fmul (Zq z) (fl (7 # 10)))%Q).
  { apply fl_mono. apply Qmult_le_compat_r; [|now apply Qlt_le_weak].
    unfold Zq. now rewrite <- Zle_Qle. }
  assert (H70 : (0 < fmul (Zq 70) (fl (7 # 10)))%Q) by (vm_compute; reflexivity).
  lra.
Qed.

Lemma variant_rarity_score_100 (input_rarity : string) (cs : card_set) :
  Qeq_bool (variant_rarity_score fuzz_ratio input_rarity cs) 100
  = rarity_equal input_rarity cs.
Proof.
  unfold variant_rarity_score, rarity_equal.
  destruct (String.eqb _ _); [reflexivity|].
  destruct (_ || _)%bool; [reflexivity|].
  apply scaled_ratio_not_100.
Qed.

(** The three cases of the in-line scorer of the variant expansion. *)
Lemma variant_rarity_score_cases (input_rarity : string) (cs : card_set) :
  variant_rarity_score fuzz_ratio input_rarity cs =
  if rarity_equal input_rarity cs then 100%Q
  else if rarity_contains input_rarity cs then 80%Q
       else fmul (Zq (rarity_ratio fuzz_ratio input_rarity cs)) (fl (7 # 10)).
Proof. reflexivity. Qed.

(** The card-level scorer on a card with one printed variant: the fuzzy
    branch counts only from a ratio of 70 on. *)
Lemma calculate_rarity_confidence_single (input_rarity nm : string) (cs : card_set) :
  calculate_rarity_confidence fuzz_ratio input_rarity (single_variant_card nm cs) =
  if rarity_equal input_rarity cs then 100%Q
  else if rarity_contains input_rarity cs then 80%Q
       else if (70 <=? rarity_ratio fuzz_ratio input_rarity cs)%Z
            then fmul (Zq (rarity_ratio fuzz_ratio input_rarity cs)) (fl (7 # 10))
            else 0%Q.
Proof.
  unfold calculate_rarity_confidence, single_variant_card, rarity_equal,
    rarity_contains, rarity_ratio.
  cbn [card_sets get best_rarity_from].
  destruct (String.eqb _ _); [reflexivity|].
  destruct (_ || _)%bool; [reflexivity|].
  destruct (70 <=? _)%Z eqn:E; [|reflexivity].
  apply Z.leb_le in E.
  unfold py_max.
  destruct (Qltb 0 _) eqn:El; [reflexivity|].
  apply Qltb_ge in El. exfalso.
  pose proof (scaled_ratio_positive _ E) as Hp. lra.
Qed.

(** C5, as the code has it. For every spoken rarity and printed variant:
    equal after lowercasing and trimming gives 100, containment either way
    gives 80; otherwise the per-variant score of the variant expansion is
    the character-similarity ratio times 0.7 with no threshold, while the
    card-level [calculate_rarity_confidence] of the first pass gives ratio
    times 0.7 only when the ratio is at least 70, and 0 below. The product
    is the one of the code, a double: [fmul ratio (fl 0.7)]. *)
Theorem rarity_score_rule (input_rarity nm : string) (cs : card_set) :
  let ratio := rarity_ratio fuzz_ratio input_rarity cs in
  let per_variant := variant_rarity_score fuzz_ratio input_rarity cs in
  let card_level :=
    calculate_rarity_confidence fuzz_ratio input_rarity (single_variant_card nm cs) in
  (rarity_equal input_rarity cs = true -> per_variant = 100%Q /\ card_level = 100%Q) /\
  (rarity_equal input_rarity cs = false -> rarity_contains input_rarity cs = true ->
   per_variant = 80%Q /\ card_level = 80%Q) /\
  (rarity_equal input_rarity cs = false -> rarity_contains input_rarity cs = false ->
   per_variant = fmul (Zq ratio) (fl (7 # 10)) /\
   ((70 <= ratio)%Z -> card_level = fmul (Zq ratio) (fl (7 # 10))) /\
   ((ratio < 70)%Z -> card_level = 0%Q)).
Proof.
  cbn zeta.
  rewrite variant_rarity_score_cases, calculate_rarity_confidence_single.
  repeat split; intros.
  - now rewrite H.
  - now rewrite H.
  - now rewrite H, H0.
  - now rewrite H, H0.
  - now rewrite H, H0.
  - rewrite H, H0. apply Z.leb_le in H1. now rewrite H1.
  - rewrite H, H0. apply Z.leb_gt in H1. now rewrite H1.
Qed.

End RarityScores.

(** C5 as stated fails for the card-level scorer: "ghost rare" against a
    card whose only printing is "Ultra Rare" are neither equal nor
    contained in one another, their ratio is 60, and the score is 0, not
    60 x 0.7 = 42. *)
Lemma rarity_score_threshold_counterexample :
  let cs := mk_set "Ultra Rare" "LOB-001" in
  rarity_equal "ghost rare" cs = false /\
  rarity_contains "ghost rare" cs = false /\
  rarity_ratio FuzzRef.ratio "ghost rare" cs = 60%Z /\
  calculate_rarity_confidence FuzzRef.ratio "ghost rare"
    (single_variant_card "Blue-Eyes White Dragon" cs) = 0%Q /\
  ~ (calculate_rarity_confidence FuzzRef.ratio "ghost rare"
       (single_variant_card "Blue-Eyes White Dragon" cs)
     == fmul (Zq (rarity_ratio FuzzRef.ratio "ghost rare" cs)) (fl (7 # 10)))%Q /\
  fmul (Zq 60) (fl (7 # 10)) = 42%Q.
Proof.
  cbn zeta. repeat split; try reflexivity.
  vm_compute. discriminate.
Qed.

(** C5 (amended), witnessed on the same pair. *)
Lemma rarity_score_rule_witness :
  variant_rarity_score FuzzRef.ratio "ghost rare" (mk_set "Ultra Rare" "LOB-001")
  = 42%Q /\
  calculate_rarity_confidence FuzzRef.ratio "ghost rare"
    (single_variant_card "Blue-Eyes White Dragon" (mk_set "Ultra Rare" "LOB-001")) = 0%Q.
Proof.
  destruct (rarity_score_rule FuzzRef.ratio "ghost rare" "Blue-Eyes White Dragon"
                              (mk_set "Ultra Rare" "LOB-001"))
    as (_ & _ & H).
  destruct (H eq_refl eq_refl) as (H1 & _ & H3).
  split; [rewrite H1; vm_compute; reflexivity|]. apply H3. vm_compute. reflexivity.
Defined.

(** ** The first pass over the catalog *)

Lemma NoDup_snoc {A : Type} (l : list A) (x : A) :
  NoDup l -> ~ In x l -> NoDup (l ++ [x]).
Proof.
  induction l as [|y r IH]; cbn; intros Hnd Hx.
  - constructor; [tauto | constructor].
  - inversion Hnd as [|? ? Hy Hr]; subst. constructor.
    + intros Hin. apply in_app_or in Hin. destruct Hin as [Hin|[->|[]]]; tauto.
    + apply IH; tauto.
Qed.

Lemma remove_match_incl (nm : string) (l : list card_match) (m : card_match) :
  In m (remove_match nm l) -> In m l.
Proof.
  induction l as [|x r IH]; cbn; [tauto|].
  destruct (String.eqb (m_name x) nm); cbn; tauto.
Qed.

Lemma remove_match_keeps (nm : string) (l : list card_match) (m : card_match) :
  In m l -> m_name m <> nm -> In m (remove_match nm l).
Proof.
  induction l as [|x r IH]; cbn; [tauto|].
  intros [->|Hin] Hne.
  - destruct (String.eqb (m_name m) nm) eqn:E.
    + apply String.eqb_eq in E. contradiction.
    + now left.
  - destruct (String.eqb (m_name x) nm); [exact Hin|]. right. now apply IH.
Qed.

Lemma remove_match_names (nm : string) (l : list card_match) :
  NoDup (map m_name l) ->
  NoDup (map m_name (remove_match nm l)) /\ ~ In nm (map m_name (remove_match nm l)).
Proof.
  induction l as [|x r IH]; cbn; intros Hnd.
  - split; [constructor | tauto].
  - inversion Hnd as [|? ? Hx Hr]; subst.
    destruct (String.eqb (m_name x) nm) eqn:E.
    + apply String.eqb_eq in E. subst nm. split; assumption.
    + apply String.eqb_neq in E. destruct (IH Hr) as [H1 H2]. cbn. split.
      * constructor; [|exact H1]. intros Hin. apply Hx.
        apply in_map_iff in Hin. destruct Hin as [m [Hm Hin]].
        apply in_map_iff. exists m. split; [exact Hm|].
        now apply remove_match_incl in Hin.
      * intros [H|H]; [contradiction | now apply H2].
Qed.

Lemma find_name_none (nm : string) (l : list card_match) :
  find (fun m => String.eqb (m_name m) nm) l = None -> ~ In nm (map m_name l).
Proof.
  intros Hf Hin. apply in_map_iff in Hin. destruct Hin as [m [Hm Hin]].
  pose proof (find_none _ _ Hf m Hin) as H. cbn in H.
  rewrite Hm, String.eqb_refl in H. discriminate.
Qed.

Lemma same_name_same_row (l : list card_match) (m1 m2 : card_match) :
  NoDup (map m_name l) -> In m1 l -> In m2 l -> m_name m1 = m_name m2 -> m1 = m2.
Proof.
  induction l as [|x r IH]; cbn; [tauto|].
  intros Hnd H1 H2 He. inversion Hnd as [|? ? Hx Hr]; subst.
  destruct H1 as [->|H1], H2 as [->|H2]; auto.
  - exfalso. apply Hx. rewrite He. now apply in_map.
  - exfalso. apply Hx. rewrite <- He. now apply in_map.
Qed.

Section FirstPass.

Variable fuzz_ratio : string -> string -> Z.
Variable fuzz_token_set_ratio : string -> string -> Z.
Variable card_name : string.
Variable rarity : option string.

Local Abbreviation total := (card_total fuzz_ratio rarity).
Local Abbreviation score := (name_score_of fuzz_ratio fuzz_token_set_ratio card_name).
Local Abbreviation step := (score_card fuzz_ratio fuzz_token_set_ratio card_name rarity
                                   (get_card_name_variants card_name)).

Local Abbreviation rows_ok := (rows_ok fuzz_ratio fuzz_token_set_ratio card_name rarity).

Lemma rows_ok_nil : rows_ok [] [].
Proof.
  split.
  - intros m [].
  - constructor.
  - intros c nm n [].
Qed.

Lemma rows_ok_more (seen : list card) (rows : list card_match) (c : card) :
  rows_ok seen rows ->
  (forall nm n, name c = Some nm -> score nm = Ok n -> (50 <= total c n)%Q ->
                exists m, In m rows /\ m_name m = nm /\ (total c n <= m_confidence m)%Q) ->
  rows_ok (seen ++ [c]) rows.
Proof.
  intros [Hs Hn Hb] Hc. split.
  - intros m Hm. destruct (Hs m Hm) as (H1 & H2). split; [|exact H2].
    apply in_or_app. now left.
  - exact Hn.
  - intros c' nm n Hin Hnm Hsc Ht. apply in_app_or in Hin. destruct Hin as [Hin|[<-|[]]].
    + now apply (Hb c' nm n).
    + now apply (Hc nm n).
Qed.

Lemma score_card_ok (seen : list card) (rows : list card_match) (c : card) :
  rows_ok seen rows -> rows_ok (seen ++ [c]) (step rows c).
Proof.
  intros Hok. unfold score_card.
  destruct (name c) as [nm|] eqn:Hnm.
  2:{ apply rows_ok_more; [exact Hok|]. intros nm n H. congruence. }
  fold (name_score_of fuzz_ratio fuzz_token_set_ratio card_name nm).
  destruct (score nm) as [n|e] eqn:Hsc.
  2:{ apply rows_ok_more; [exact Hok|]. intros nm' n' H Hs'.
      rewrite Hnm in H. injection H as <-. congruence. }
  fold (card_total fuzz_ratio rarity c n).
  destruct (Qle_bool 50 (total c n)) eqn:H50.
  2:{ apply rows_ok_more; [exact Hok|]. intros nm' n' H Hs' Ht.
      rewrite Hnm in H. injection H as <-. rewrite Hsc in Hs'. injection Hs' as <-.
      apply Qle_bool_iff in Ht. congruence. }
  apply Qle_bool_iff in H50.
  set (row := {| m_card_data := c; m_confidence := total c n; m_name := nm;
                 m_rarity := get_card_rarity_display c rarity |}).
  assert (Hrow : In c (seen ++ [c]) /\ name (m_card_data row) = Some (m_name row) /\
                 (exists name_score,
                    score (m_name row) = Ok name_score /\
                    m_confidence row = total (m_card_data row) name_score) /\
                 (50 <= m_confidence row)%Q).
  { cbn. repeat split; auto; [apply in_or_app; right; now left|].
    exists n. auto. }
  destruct Hok as [Hs Hn Hb].
  destruct (find _ rows) as [existing|] eqn:Hf.
  - apply find_some in Hf. destruct Hf as [Hex Hename].
    apply String.eqb_eq in Hename.
    destruct (Qltb (m_confidence existing) (total c n)) eqn:Hlt.
    + apply Qltb_lt in Hlt.
      destruct (remove_match_names nm rows Hn) as [Hn1 Hn2].
      split.
      * intros m Hm. apply in_app_or in Hm. destruct Hm as [Hm|[<-|[]]].
        -- apply remove_match_incl in Hm. destruct (Hs m Hm) as (H1 & H2).
           split; [apply in_or_app; now left | exact H2].
        -- exact Hrow.
      * rewrite map_app. cbn [map]. now apply NoDup_snoc.
      * intros c' nm' n' Hin Hnm' Hs' Ht. apply in_app_or in Hin.
        destruct Hin as [Hin|[<-|[]]].
        -- destruct (Hb c' nm' n' Hin Hnm' Hs' Ht) as (m & Hm & Hmn & Hle).
           destruct (string_dec nm' nm) as [->|Hne].
           ++ assert (m = existing) by
                (apply (same_name_same_row rows); auto; congruence).
              subst m. exists row. split; [apply in_or_app; right; now left|].
              split; [reflexivity|]. cbn.
              apply Qle_trans with (m_confidence existing); [exact Hle|].
              now apply Qlt_le_weak.
           ++ exists m. split; [|split; assumption].
              apply in_or_app. left. apply remove_match_keeps; congruence.
        -- rewrite Hnm in Hnm'. injection Hnm' as <-.
           rewrite Hsc in Hs'. injection Hs' as <-.
           exists row. split; [apply in_or_app; right; now left|].
           split; [reflexivity | apply Qle_refl].
    + apply Qltb_ge in Hlt. apply rows_ok_more; [split; assumption|].
      intros nm' n' H Hs' Ht. rewrite Hnm in H. injection H as <-.
      rewrite Hsc in Hs'. injection Hs' as <-.
      exists existing. auto.
  - pose proof (find_name_none nm rows Hf) as Hfresh. split.
    + intros m Hm. apply in_app_or in Hm. destruct Hm as [Hm|[<-|[]]].
      * destruct (Hs m Hm) as (H1 & H2).
        split; [apply in_or_app; now left | exact H2].
      * exact Hrow.
    + rewrite map_app. cbn [map]. now apply NoDup_snoc.
    + intros c' nm' n' Hin Hnm' Hs' Ht. apply in_app_or in Hin.
      destruct Hin as [Hin|[<-|[]]].
      * destruct (Hb c' nm' n' Hin Hnm' Hs' Ht) as (m & Hm & Hmn & Hle).
        exists m. split; [apply in_or_app; now left | split; assumption].
      * rewrite Hnm in Hnm'. injection Hnm' as <-.
        rewrite Hsc in Hs'. injection Hs' as <-.
        exists row. split; [apply in_or_app; right; now left|].
        split; [reflexivity | apply Qle_refl].
Qed.

Lemma fold_score_card_ok (l seen : list card) (rows : list card_match) :
  rows_ok seen rows -> rows_ok (seen ++ l) (fold_left step l rows).
Proof.
  revert seen rows. induction l as [|c r IH]; intros seen rows Hok.
  - now rewrite app_nil_r.
  - cbn [fold_left]. replace (seen ++ c :: r)%list with ((seen ++ [c]) ++ r)%list
      by (now rewrite <- app_assoc).
    apply IH. now apply score_card_ok.
Qed.

(** *** The rarity part of the total *)

Lemma py_max_cases (a b : Q) :
  (py_max a b = a /\ (b <= a)%Q) \/ (py_max a b = b /\ (a < b)%Q).
Proof.
  unfold py_max. destruct (Qltb a b) eqn:E.
  - right. split; [reflexivity | now apply Qltb_lt].
  - left. split; [reflexivity | now apply Qltb_ge].
Qed.

Lemma card_rarity_score_range (input_rarity : string) (cs : card_set) :
  (forall a b, (fuzz_ratio a b <= 100)%Z) ->
  (0 <= card_rarity_score fuzz_ratio input_rarity cs <= 100)%Q.
Proof.
  intros Hr. unfold card_rarity_score.
  destruct (rarity_equal _ _); [lra|].
  destruct (rarity_contains _ _); [lra|].
  destruct (70 <=? _)%Z eqn:E; [|lra].
  apply Z.leb_le in E. pose proof (scaled_ratio_positive _ E) as Hp.
  split; [lra|].
  destruct seven_tenths as [Hc0 Hc1].
  apply fl_le; [reflexivity|].
  specialize (Hr (PyStr.strip (PyStr.lower input_rarity))
                 (PyStr.strip (PyStr.lower (get (set_rarity cs) "")))).
  fold (rarity_ratio fuzz_ratio input_rarity cs) in Hr.
  assert (Hz : (Zq (rarity_ratio fuzz_ratio input_rarity cs) <= 100)%Q).
  { unfold Zq. change 100%Q with (inject_Z 100). now rewrite <- Zle_Qle. }
  assert (H0 : (0 <= Zq (rarity_ratio fuzz_ratio input_rarity cs))%Q).
  { unfold Zq. change 0%Q with (inject_Z 0). rewrite <- Zle_Qle. lia. }
  nra.
Qed.

Lemma best_rarity_step (input_rarity : string) (cs : card_set) (rest : list card_set)
      (best best' r : Q) :
  (best <= best' <= 100)%Q ->
  (card_rarity_score fuzz_ratio input_rarity cs <= best')%Q ->
  (best' = best \/ best' = card_rarity_score fuzz_ratio input_rarity cs) ->
  ((best' <= r <= 100)%Q /\
   (forall x, In x rest -> (card_rarity_score fuzz_ratio input_rarity x <= r)%Q) /\
   (r = best' \/ exists x, In x rest /\ r = card_rarity_score fuzz_ratio input_rarity x)) ->
  (best <= r <= 100)%Q /\
  (forall x, In x (cs :: rest) -> (card_rarity_score fuzz_ratio input_rarity x <= r)%Q) /\
  (r = best \/
   exists x, In x (cs :: rest) /\ r = card_rarity_score fuzz_ratio input_rarity x).
Proof.
  intros B1 B2 B3 (H1 & H2 & H3). split; [lra|]. split.
  - intros x [<-|Hx]; [lra | now apply H2].
  - destruct H3 as [->|(x & Hx & ->)].
    + destruct B3 as [->| ->]; [now left|]. right. exists cs. split; [now left | reflexivity].
    + right. exists x. split; [now right | reflexivity].
Qed.

(** The loop of [calculate_rarity_confidence] keeps the best score seen. *)
Lemma best_rarity_from_best (input_rarity : string) (sets : list card_set) :
  (forall a b, (fuzz_ratio a b <= 100)%Z) ->
  forall best,
    (0 <= best <= 100)%Q ->
    let r := best_rarity_from fuzz_ratio best (PyStr.strip (PyStr.lower input_rarity)) sets in
    (best <= r <= 100)%Q /\
    (forall cs, In cs sets -> (card_rarity_score fuzz_ratio input_rarity cs <= r)%Q) /\
    (r = best \/ exists cs, In cs sets /\ r = card_rarity_score fuzz_ratio input_rarity cs).
Proof.
  intros Hr. induction sets as [|cs rest IH]; intros best Hb; cbn zeta.
  - cbn [best_rarity_from]. split; [lra|]. split; [intros cs [] | now left].
  - cbn [best_rarity_from].
    pose proof (card_rarity_score_range input_rarity cs Hr) as Hcs.
    assert (Hall : forall x, (card_rarity_score fuzz_ratio input_rarity x <= 100)%Q).
    { intros x. apply card_rarity_score_range. exact Hr. }
    revert Hcs. unfold card_rarity_score at 1 2.
    unfold rarity_equal, rarity_contains, rarity_ratio. cbn zeta.
    destruct (String.eqb _ _) eqn:Eeq.
    { intros _.
      assert (Es : card_rarity_score fuzz_ratio input_rarity cs = 100%Q).
      { unfold card_rarity_score, rarity_equal. now rewrite Eeq. }
      split; [lra|]. split.
      - intros x _. apply Hall.
      - right. exists cs. split; [now left | now rewrite Es]. }
    destruct (_ || _)%bool eqn:Ec.
    { intros _.
      assert (Es : card_rarity_score fuzz_ratio input_rarity cs = 80%Q).
      { unfold card_rarity_score, rarity_equal, rarity_contains. now rewrite Eeq, Ec. }
      apply (best_rarity_step input_rarity cs rest best (py_max best 80)).
      - destruct (py_max_cases best 80) as [[-> Hm]|[-> Hm]]; lra.
      - rewrite Es. apply py_max_ge_r.
      - rewrite Es. destruct (py_max_cases best 80) as [[-> Hm]|[-> Hm]]; auto.
      - apply IH. destruct (py_max_cases best 80) as [[-> Hm]|[-> Hm]]; lra. }
    destruct (70 <=? _)%Z eqn:E70.
    { intros Hcs.
      assert (Es : card_rarity_score fuzz_ratio input_rarity cs
                   = fmul (Zq (fuzz_ratio (PyStr.strip (PyStr.lower input_rarity))
                                          (PyStr.strip
                                             (PyStr.lower (get (set_rarity cs) "")))))
                          (fl (7 # 10))).
      { unfold card_rarity_score, rarity_equal, rarity_contains, rarity_ratio.
        now rewrite Eeq, Ec, E70. }
      rewrite <- Es in *.
      set (sc := card_rarity_score fuzz_ratio input_rarity cs) in *.
      apply (best_rarity_step input_rarity cs rest best (py_max best sc)).
      - destruct (py_max_cases best sc) as [[-> Hm]|[-> Hm]]; lra.
      - apply py_max_ge_r.
      - destruct (py_max_cases best sc) as [[-> Hm]|[-> Hm]]; auto.
      - apply IH. destruct (py_max_cases best sc) as [[-> Hm]|[-> Hm]]; lra. }
    intros _.
    assert (Es : card_rarity_score fuzz_ratio input_rarity cs = 0%Q).
    { unfold card_rarity_score, rarity_equal, rarity_contains, rarity_ratio.
      now rewrite Eeq, Ec, E70. }
    apply (best_rarity_step input_rarity cs rest best best).
    + lra.
    + rewrite Es. lra.
    + now left.
    + now apply IH.
Qed.

(** The rows of the first pass satisfy the invariant, and each of them
    has a name whose score returned. *)
Lemma first_pass_ok (set_cards : list card) :
  rows_ok set_cards (first_pass fuzz_ratio fuzz_token_set_ratio set_cards card_name rarity).
Proof. exact (fold_score_card_ok set_cards [] [] rows_ok_nil). Qed.

Lemma first_pass_scored (set_cards : list card) (m : card_match) :
  In m (first_pass fuzz_ratio fuzz_token_set_ratio set_cards card_name rarity) ->
  exists n, score (m_name m) = Ok n.
Proof.
  intros Hin. destruct (rows_sound _ _ _ _ _ _ (first_pass_ok set_cards) m Hin)
    as (_ & _ & (n & Hn & _) & _).
  now exists n.
Qed.

(** C8 (amended). With a rarity spoken, the first-pass total of a card is
    0.75 x name score + 0.25 x rarity score in double arithmetic, halved
    when the name score is below 40, and the name score alone otherwise.
    The rarity score is the best score, over the card's printings, of the
    card-level scorer: 100 for an equal rarity, 80 for containment, and
    similarity x 0.7 only from a similarity of 70 on, else 0. A card is
    scored when it has a name and its name score returns; the rows kept
    all have a total of at least 50, no two rows share a card name, and
    the row of a name carries the highest total among the scored catalog
    cards of that name that reach 50. *)
Theorem first_pass_rows (set_cards : list card) :
  let rows := first_pass fuzz_ratio fuzz_token_set_ratio set_cards card_name rarity in
  (forall c n,
     let r := calculate_rarity_confidence fuzz_ratio (get rarity "") c in
     (truthy rarity = true -> (40 <= n)%Q ->
      total c n = fadd (fmul n (3 # 4)) (fmul r (1 # 4))) /\
     (truthy rarity = true -> (n < 40)%Q ->
      total c n = fmul (fadd (fmul n (3 # 4)) (fmul r (1 # 4))) (1 # 2)) /\
     (truthy rarity = false -> total c n = n)) /\
  ((forall a b, (fuzz_ratio a b <= 100)%Z) ->
   forall input_rarity c,
     let r := calculate_rarity_confidence fuzz_ratio input_rarity c in
     (forall cs, In cs (get (card_sets c) []) ->
                 (card_rarity_score fuzz_ratio input_rarity cs <= r)%Q) /\
     (get (card_sets c) [] = [] -> r = 0%Q) /\
     (get (card_sets c) [] <> [] ->
      exists cs, In cs (get (card_sets c) []) /\
                 r = card_rarity_score fuzz_ratio input_rarity cs)) /\
  (forall m, In m rows ->
     In (m_card_data m) set_cards /\
     name (m_card_data m) = Some (m_name m) /\
     (exists n, score (m_name m) = Ok n /\ m_confidence m = total (m_card_data m) n) /\
     (50 <= m_confidence m)%Q) /\
  NoDup (map m_name rows) /\
  (forall c nm n, In c set_cards -> name c = Some nm -> score nm = Ok n ->
     (50 <= total c n)%Q ->
     exists m, In m rows /\ m_name m = nm /\ (total c n <= m_confidence m)%Q).
Proof.
  cbn zeta. split; [|split].
  - intros c n. unfold card_total, blend. repeat split; intros Ht.
    + intros Hn. rewrite Ht. apply Qltb_ge in Hn. now rewrite Hn.
    + intros Hn. rewrite Ht. apply Qltb_lt in Hn. now rewrite Hn.
    + now rewrite Ht.
  - intros Hr input_rarity c. unfold calculate_rarity_confidence.
    destruct (best_rarity_from_best input_rarity (get (card_sets c) []) Hr 0%Q
                                    ltac:(lra)) as (H1 & H2 & H3).
    split; [exact H2|]. split.
    + intros E. rewrite E. reflexivity.
    + intros Hne. destruct H3 as [H3|H3]; [|exact H3].
      destruct (get (card_sets c) []) as [|cs rest] eqn:E; [congruence|].
      exists cs. split; [now left|].
      pose proof (H2 cs (or_introl eq_refl)) as Hle.
      pose proof (card_rarity_score_range input_rarity cs Hr) as Hcs.
      rewrite H3 in Hle. rewrite H3.
      assert (Hz : (card_rarity_score fuzz_ratio input_rarity cs == 0)%Q) by lra.
      revert Hz. unfold card_rarity_score.
      destruct (rarity_equal _ _); [intros Hz; lra|].
      destruct (rarity_contains _ _); [intros Hz; lra|].
      destruct (70 <=? _)%Z eqn:E70; [|reflexivity].
      intros Hz. apply Z.leb_le in E70. pose proof (scaled_ratio_positive _ E70). lra.
  - destruct (fold_score_card_ok set_cards [] [] rows_ok_nil) as [Hs Hn Hb].
    cbn [List.app] in *. unfold first_pass. auto.
Qed.

End FirstPass.

(** C8 as stated, with the rarity score of the specification (similarity
    x 0.7 without a floor), fails: "blue eyes white dragon" with "ghost
    rare" against a card whose only printing is Ultra Rare has a name score
    of 100 and a similarity of 60 between the rarities; the claim's total
    is 75 + 0.25 x 42 = 85.5, the first pass keeps the card with 75. *)
Lemma first_pass_total_counterexample :
  name_score_of FuzzRef.ratio FuzzRef.token_set_ratio
                "blue eyes white dragon" "Blue-Eyes White Dragon" = Ok 100%Q /\
  spec_best_rarity_score FuzzRef.ratio "ghost rare" blue_eyes_ultra = 42%Q /\
  spec_total FuzzRef.ratio "ghost rare" blue_eyes_ultra 100 = (171 # 2)%Q /\
  calculate_rarity_confidence FuzzRef.ratio "ghost rare" blue_eyes_ultra = 0%Q /\
  map m_confidence
      (first_pass FuzzRef.ratio FuzzRef.token_set_ratio [blue_eyes_ultra]
                  "blue eyes white dragon" (Some "ghost rare")) = [75%Q] /\
  map m_confidence
      (first_pass FuzzRef.ratio FuzzRef.token_set_ratio [blue_eyes_ultra]
                  "blue eyes white dragon" (Some "ghost rare"))
  <> [spec_total FuzzRef.ratio "ghost rare" blue_eyes_ultra 100].
Proof. vm_compute. repeat split; try reflexivity. discriminate. Qed.

(** The threshold is met or missed on doubles: a name score of two words
    matched out of three, with a rarity spoken that matches nothing, gives
    0.75 x 66.66666666666667 = 49.99999999999999, below 50, where exact
    arithmetic would give 50. *)
Lemma two_thirds_below_threshold :
  fmul (fdiv 2 3) 100 = (2345624805922133 # 35184372088832)%Q /\
  blend (Some "rare") (fmul (fdiv 2 3) 100) 0
  = (7036874417766399 # 140737488355328)%Q /\
  (blend (Some "rare") (fmul (fdiv 2 3) 100) 0 < 50)%Q.
Proof. vm_compute. repeat split; reflexivity. Qed.
(** ** The confidence of an expanded variant *)

Section VariantConfidence.

Variable fuzz_ratio : string -> string -> Z.
Variable fuzz_token_set_ratio : string -> string -> Z.

(** The blend in numbers. *)
Lemma blend_spoken (rarity : option string) (name_score rarity_score : Q) :
  truthy rarity = true ->
  blend rarity name_score rarity_score =
  if Qltb name_score 40
  then fmul (fadd (fmul name_score (3 # 4)) (fmul rarity_score (1 # 4))) (1 # 2)
  else fadd (fmul name_score (3 # 4)) (fmul rarity_score (1 # 4)).
Proof. intros H. unfold blend. now rewrite H. Qed.

Lemma blend_silent (rarity : option string) (name_score rarity_score : Q) :
  truthy rarity = false -> blend rarity name_score rarity_score = name_score.
Proof. intros H. unfold blend. now rewrite H. Qed.

Lemma variant_confidence_cap (rarity : option string) (name_score : Q) (cs : card_set) :
  variant_confidence fuzz_ratio rarity name_score cs =
  if exact_rarity_match rarity cs
  then py_min 95 (variant_blend fuzz_ratio rarity name_score cs)
  else py_min 85 (variant_blend fuzz_ratio rarity name_score cs).
Proof.
  unfold variant_confidence, exact_rarity_match, variant_blend.
  destruct (truthy rarity) eqn:Ht; cbn [andb].
  - rewrite variant_rarity_score_100. unfold rarity_equal. reflexivity.
  - reflexivity.
Qed.

Lemma expand_sets_expanded (card_name : string) (rarity : option string)
      (c : card) (nm : string) (sets : list card_set) :
  name c = Some nm ->
  (forall cs, In cs sets -> In cs (get (card_sets c) [])) ->
  forall acc acc',
    all_expanded fuzz_ratio fuzz_token_set_ratio card_name rarity acc ->
    expand_sets fuzz_ratio fuzz_token_set_ratio card_name rarity
                (is_priority fuzz_token_set_ratio card_name nm) c nm sets acc = Ok acc' ->
    all_expanded fuzz_ratio fuzz_token_set_ratio card_name rarity acc'.
Proof.
  intros Hn. induction sets as [|cs rest IH]; intros Hin acc acc' Hacc H.
  - cbn in H. now injection H as <-.
  - destruct acc as [ex al]. cbn [expand_sets] in H.
    assert (Hrest : forall cs', In cs' rest -> In cs' (get (card_sets c) []))
      by (intros cs' H'; apply Hin; now right).
    destruct (existsb _ al); [now apply (IH Hrest (ex, al) acc')|].
    destruct (calculate_name_confidence _ _ _ _ _) as [n|e] eqn:Hsc; [|discriminate].
    apply (IH Hrest) in H; [exact H|].
    destruct Hacc as [Hex Hal]. cbn [fst snd] in *.
    assert (Hv : forall b, is_priority fuzz_token_set_ratio card_name nm = b ->
                 expanded fuzz_ratio fuzz_token_set_ratio card_name rarity b
                   {| v_card_data := c;
                      v_confidence := variant_confidence fuzz_ratio rarity n cs;
                      v_name := nm;
                      v_rarity := get (set_rarity cs) "Unknown";
                      v_set_code := get (set_code cs) "N/A";
                      v_variant_key :=
                        nm ++ "_" ++ get (set_rarity cs) "Unknown" ++ "_"
                           ++ get (set_code cs) "N/A";
                      v_is_priority := is_priority fuzz_token_set_ratio card_name nm |}).
    { intros b Hb. exists cs, n. cbn. repeat split; auto. apply Hin. now left. }
    destruct (is_priority fuzz_token_set_ratio card_name nm) eqn:Hp.
    + split; cbn [fst snd]; [|exact Hal].
      apply Forall_app. split; [exact Hex|]. constructor; [|constructor].
      now apply Hv.
    + split; cbn [fst snd]; [exact Hex|].
      apply Forall_app. split; [exact Hal|]. constructor; [|constructor].
      now apply Hv.
Qed.

Lemma expand_cards_expanded (card_name : string) (rarity : option string)
      (to_find : string) (set_cards : list card) :
  forall acc acc',
    all_expanded fuzz_ratio fuzz_token_set_ratio card_name rarity acc ->
    expand_cards fuzz_ratio fuzz_token_set_ratio card_name rarity
                 (is_priority fuzz_token_set_ratio card_name to_find)
                 to_find set_cards acc = Ok acc' ->
    all_expanded fuzz_ratio fuzz_token_set_ratio card_name rarity acc'.
Proof.
  induction set_cards as [|c rest IH]; intros acc acc' Hacc H.
  - cbn in H. now injection H as <-.
  - cbn [expand_cards] in H. destruct (name c) as [nm|] eqn:Hn; [|discriminate].
    destruct (String.eqb nm to_find) eqn:He; [|now apply (IH acc acc')].
    apply String.eqb_eq in He. subst to_find.
    destruct (expand_sets _ _ _ _ _ _ _ _ _) as [acc1|e] eqn:Hs; [|discriminate].
    apply (IH acc1 acc'); [|exact H].
    exact (expand_sets_expanded card_name rarity c nm (get (card_sets c) []) Hn
             (fun _ H' => H') acc acc1 Hacc Hs).
Qed.

Lemma expand_matches_expanded (set_cards : list card) (card_name : string)
      (rarity : option string) (card_matches : list card_match) :
  forall acc acc',
    all_expanded fuzz_ratio fuzz_token_set_ratio card_name rarity acc ->
    expand_matches fuzz_ratio fuzz_token_set_ratio set_cards card_name rarity
                   card_matches acc = Ok acc' ->
    all_expanded fuzz_ratio fuzz_token_set_ratio card_name rarity acc'.
Proof.
  induction card_matches as [|m rest IH]; intros acc acc' Hacc H.
  - cbn in H. now injection H as <-.
  - cbn [expand_matches] in H.
    destruct (expand_cards _ _ _ _ _ _ _ _) as [acc1|e] eqn:Hc; [|discriminate].
    apply IH in H; [exact H|].
    now apply expand_cards_expanded in Hc.
Qed.

(** The loop over the printings returns whenever the name score of the
    card does: it is the only call of the loop that can raise. *)
Lemma expand_sets_returns (card_name : string) (rarity : option string)
      (is_priority_match : bool) (c : card) (nm : string) (name_score : Q) :
  name_score_of fuzz_ratio fuzz_token_set_ratio card_name nm = Ok name_score ->
  forall sets acc,
  exists acc',
    expand_sets fuzz_ratio fuzz_token_set_ratio card_name rarity is_priority_match
                c nm sets acc = Ok acc'.
Proof.
  intros Hn. unfold name_score_of in Hn.
  induction sets as [|cs rest IH]; intros acc.
  - now exists acc.
  - destruct acc as [ex al]. cbn [expand_sets].
    destruct (existsb _ al); [apply IH|].
    rewrite Hn. apply IH.
Qed.

(** Every variant the expansion produces carries the blend of the name
    score with the rarity score of its printing, cut at 95 when the
    printing's ['set_rarity'] (empty when the key is missing) equals the
    spoken rarity after lowercasing and trimming, and at 85 in every other
    case, the one where no rarity was spoken included. *)
Lemma expanded_variant_cap (set_cards : list card) (card_name : string)
      (rarity : option string) (card_matches : list card_match)
      (exact_name_matches all_variants : list variant) (v : variant) :
  expand_matches fuzz_ratio fuzz_token_set_ratio set_cards card_name rarity
                 card_matches ([], []) = Ok (exact_name_matches, all_variants) ->
  In v (exact_name_matches ++ all_variants)%list ->
  exists cs name_score,
    In cs (get (card_sets (v_card_data v)) []) /\
    v_rarity v = get (set_rarity cs) "Unknown" /\
    calculate_name_confidence fuzz_ratio fuzz_token_set_ratio card_name (v_name v)
                              (get_card_name_variants card_name) = Ok name_score /\
    let blended := variant_blend fuzz_ratio rarity name_score cs in
    (exact_rarity_match rarity cs = true ->
     v_confidence v = py_min 95 blended /\ (v_confidence v <= 95)%Q) /\
    (exact_rarity_match rarity cs = false ->
     v_confidence v = py_min 85 blended /\ (v_confidence v <= 85)%Q) /\
    (truthy rarity = false -> v_confidence v = py_min 85 name_score) /\
    (truthy rarity = true ->
     let rarity_score := variant_rarity_score fuzz_ratio (get rarity "") cs in
     blended =
       if Qltb name_score 40
       then fmul (fadd (fmul name_score (3 # 4)) (fmul rarity_score (1 # 4))) (1 # 2)
       else fadd (fmul name_score (3 # 4)) (fmul rarity_score (1 # 4))).
Proof.
  intros He Hin.
  apply expand_matches_expanded in He; [|split; constructor].
  destruct He as [Hex Hal]. cbn [fst snd] in *.
  assert (Hv : exists b, expanded fuzz_ratio fuzz_token_set_ratio card_name rarity b v).
  { apply in_app_or in Hin. destruct Hin as [Hin|Hin].
    - exists true. rewrite Forall_forall in Hex. now apply Hex.
    - exists false. rewrite Forall_forall in Hal. now apply Hal. }
  destruct Hv as [b (cs & n & Hcs & _ & Hr & _ & Hn & Hc & _)].
  exists cs, n. split; [exact Hcs|]. split; [exact Hr|]. split; [exact Hn|]. cbn zeta.
  rewrite variant_confidence_cap in Hc. rewrite Hc.
  split; [|split; [|split]].
  - intros E. rewrite E. split; [reflexivity | apply py_min_le_l].
  - intros E. rewrite E. split; [reflexivity | apply py_min_le_l].
  - intros Ht. unfold exact_rarity_match. rewrite Ht. cbn [andb].
    unfold variant_blend. now rewrite blend_silent.
  - intros Ht. unfold variant_blend. rewrite Ht. now apply blend_spoken.
Qed.

(** For a printing that has a ['set_rarity'], the variant carries it, and
    the confidence is the one the specification describes. *)
Lemma labelled_printing_confidence (rarity : option string) (name_score : Q)
      (cs : card_set) (v : variant) (label : string) :
  set_rarity cs = Some label ->
  v_rarity v = get (set_rarity cs) "Unknown" ->
  v_confidence v = variant_confidence fuzz_ratio rarity name_score cs ->
  shown_rarity_match rarity v = exact_rarity_match rarity cs /\
  v_confidence v = spec_variant_confidence fuzz_ratio rarity name_score v.
Proof.
  intros Hl Hr Hc. unfold spec_variant_confidence, shown_rarity_match.
  rewrite Hc, variant_confidence_cap, Hr.
  unfold exact_rarity_match, variant_blend, variant_rarity_score, mk_set.
  cbn [set_rarity]. rewrite Hl. cbn [get]. split; reflexivity.
Qed.

End VariantConfidence.


(** ** A catalog entry without a name *)

Section MalformedEntry.

Variable fuzz_ratio : string -> string -> Z.
Variable fuzz_token_set_ratio : string -> string -> Z.

(** The first loop skips a card without a name: the rows are those of the
    catalog without it. *)
Lemma first_pass_skips_nameless (before after : list card) (c : card)
      (card_name : string) (rarity : option string) :
  name c = None ->
  first_pass fuzz_ratio fuzz_token_set_ratio (before ++ c :: after) card_name rarity
  = first_pass fuzz_ratio fuzz_token_set_ratio (before ++ after) card_name rarity.
Proof.
  intros Hn. unfold first_pass. rewrite !fold_left_app. cbn [fold_left].
  unfold score_card at 2. now rewrite Hn.
Qed.

(** The loop of the expansion over the catalog reads the name of every
    card: one card without a name makes it raise, here for a matched name
    whose score returns. *)
Lemma expand_cards_nameless (card_name : string) (rarity : option string)
      (prio : bool) (to_find : string) (name_score : Q)
      (set_cards : list card) (c : card) :
  name_score_of fuzz_ratio fuzz_token_set_ratio card_name to_find = Ok name_score ->
  In c set_cards -> name c = None ->
  forall acc,
    expand_cards fuzz_ratio fuzz_token_set_ratio card_name rarity prio to_find
                 set_cards acc = Raise (KeyError "name").
Proof.
  intros Hs Hin Hn. induction set_cards as [|x r IH]; [destruct Hin|].
  intros acc. cbn [expand_cards]. destruct Hin as [->|Hin].
  - now rewrite Hn.
  - destruct (name x) as [nm|]; [|reflexivity].
    destruct (String.eqb nm to_find) eqn:E; [|now apply IH].
    apply String.eqb_eq in E. subst nm.
    destruct (expand_sets_returns fuzz_ratio fuzz_token_set_ratio card_name rarity prio
                x to_find name_score Hs (get (card_sets x) []) acc) as [acc' Ha].
    rewrite Ha. now apply IH.
Qed.

(** Whenever the first pass keeps at least one card, a catalog with a
    nameless entry aborts the whole search with [KeyError]: nothing is
    presented and nothing is committed. *)
Lemma nameless_entry_aborts (a : app) (c : card) (card_name : string)
      (art_variant rarity : option string) :
  In c (set_cards a) -> name c = None ->
  first_pass fuzz_ratio fuzz_token_set_ratio (set_cards a) card_name rarity <> [] ->
  find_and_present_card_options fuzz_ratio fuzz_token_set_ratio a card_name
                                art_variant rarity
  = Raise (KeyError "name").
Proof.
  intros Hin Hn Hfp. unfold find_and_present_card_options.
  destruct (set_cards a) as [|c0 rest] eqn:Hsc; [destruct Hin|].
  pose proof (first_pass_scored fuzz_ratio fuzz_token_set_ratio card_name rarity
                                (c0 :: rest)) as Hsco.
  destruct (first_pass _ _ _ _ _) as [|m ms]; [contradiction|].
  destruct (Hsco m (or_introl eq_refl)) as [n Hm].
  cbn [expand_matches].
  now rewrite (expand_cards_nameless card_name rarity _ (m_name m) n (c0 :: rest) c Hm Hin Hn).
Qed.

(** The spoken name of the examples scores at least 100 against the
    catalog name, whatever the similarity functions return: all four
    spoken words are found in the card's words, and with four words on
    each side the score is returned. *)
Lemma blue_eyes_name_score :
  exists n,
    name_score_of fuzz_ratio fuzz_token_set_ratio
                  "blue eyes white dragon" "Blue-Eyes White Dragon" = Ok n /\
    (100 <= n)%Q.
Proof.
  unfold name_score_of.
  set (vs := get_card_name_variants "blue eyes white dragon").
  set (bf := best_fuzzy_from fuzz_token_set_ratio 0 "Blue-Eyes White Dragon" vs).
  set (cs := fuzz_ratio "blueeyeswhitedragon" "blueeyeswhitedragon").
  assert (E : calculate_name_confidence fuzz_ratio fuzz_token_set_ratio
                "blue eyes white dragon" "Blue-Eyes White Dragon" vs
              = Ok (fmul (py_max (py_max (Zq bf) 100) (Zq cs)) 1)).
  { unfold calculate_name_confidence. fold bf. reflexivity. }
  rewrite E. eexists. split; [reflexivity|].
  pose proof (py_max_ge_r (Zq bf) 100) as H1.
  pose proof (py_max_ge_l (py_max (Zq bf) 100) (Zq cs)) as H2.
  unfold fmul. apply fl_ge; [reflexivity|]. lra.
Qed.

End MalformedEntry.
(** ** The examples of the specification, for any similarity functions *)

Lemma result_eta {A : Type} (r : result A) :
  match r with Ok a => Ok a | Raise e => Raise e end = r.
Proof. now destruct r. Qed.

Section BlueEyes.

Variable fuzz_ratio : string -> string -> Z.
Variable fuzz_token_set_ratio : string -> string -> Z.

Local Abbreviation spoken := ("blue eyes white dragon").
Local Abbreviation N :=
  (name_score_of fuzz_ratio fuzz_token_set_ratio spoken "Blue-Eyes White Dragon").
Local Abbreviation prio :=
  (is_priority fuzz_token_set_ratio spoken "Blue-Eyes White Dragon").

Lemma first_pass_single (c : card) (nm card_name : string) (rarity : option string)
      (n : Q) :
  name c = Some nm ->
  name_score_of fuzz_ratio fuzz_token_set_ratio card_name nm = Ok n ->
  (50 <= card_total fuzz_ratio rarity c n)%Q ->
  first_pass fuzz_ratio fuzz_token_set_ratio [c] card_name rarity
  = [ {| m_card_data := c;
         m_confidence := card_total fuzz_ratio rarity c n;
         m_name := nm;
         m_rarity := get_card_rarity_display c rarity |} ].
Proof.
  intros Hn Hs H50. unfold first_pass. cbn [fold_left]. unfold score_card.
  rewrite Hn. unfold name_score_of in Hs. rewrite Hs.
  change (blend rarity _ _) with (card_total fuzz_ratio rarity c n).
  apply Qle_bool_iff in H50. rewrite H50. reflexivity.
Qed.

(** One turn of the loop over the printings, for a name whose score
    returns. *)
Lemma expand_sets_step (card_name : string) (rarity : option string) (p : bool)
      (c : card) (nm : string) (n : Q) (cs : card_set) (rest : list card_set)
      (ex al : list variant) :
  name_score_of fuzz_ratio fuzz_token_set_ratio card_name nm = Ok n ->
  let key := nm ++ "_" ++ get (set_rarity cs) "Unknown" ++ "_" ++ get (set_code cs) "N/A" in
  let v := {| v_card_data := c;
              v_confidence := variant_confidence fuzz_ratio rarity n cs;
              v_name := nm;
              v_rarity := get (set_rarity cs) "Unknown";
              v_set_code := get (set_code cs) "N/A";
              v_variant_key := key;
              v_is_priority := p |} in
  expand_sets fuzz_ratio fuzz_token_set_ratio card_name rarity p c nm (cs :: rest) (ex, al)
  = if existsb (fun v => String.eqb (v_variant_key v) key) al
    then expand_sets fuzz_ratio fuzz_token_set_ratio card_name rarity p c nm rest (ex, al)
    else expand_sets fuzz_ratio fuzz_token_set_ratio card_name rarity p c nm rest
                     (if p then ((ex ++ [v])%list, al) else (ex, (al ++ [v])%list)).
Proof.
  intros Hs. unfold name_score_of in Hs. cbn zeta. cbn [expand_sets].
  now rewrite Hs.
Qed.

Lemma expand_sets_nil (card_name : string) (rarity : option string) (p : bool)
      (c : card) (nm : string) (acc : list variant * list variant) :
  expand_sets fuzz_ratio fuzz_token_set_ratio card_name rarity p c nm [] acc = Ok acc.
Proof. reflexivity. Qed.

(** The expansion of one row over a catalog of one card of that name. *)
Lemma expand_one_card (card_name : string) (rarity : option string) (row : card_match)
      (c : card) (acc : list variant * list variant) :
  name c = Some (m_name row) ->
  expand_matches fuzz_ratio fuzz_token_set_ratio [c] card_name rarity [row] acc
  = expand_sets fuzz_ratio fuzz_token_set_ratio card_name rarity
                (is_priority fuzz_token_set_ratio card_name (m_name row))
                c (m_name row) (get (card_sets c) []) acc.
Proof.
  intros Hn. cbn [expand_matches expand_cards]. rewrite Hn, String.eqb_refl.
  now rewrite !result_eta.
Qed.

Section Scored.

Variable n : Q.
Hypothesis Hscore : N = Ok n.
Hypothesis Hn : (100 <= n)%Q.

(** With a name score of 100 or more the blend is at least 75, and at
    least 100 with a rarity score of 100. *)
Lemma spoken_blend_floor (rarity : option string) (r : Q) :
  truthy rarity = true -> (0 <= r)%Q -> (75 <= blend rarity n r)%Q.
Proof.
  intros Ht Hr. rewrite blend_spoken by exact Ht.
  assert (H40 : Qltb n 40 = false) by (apply Qltb_ge; lra). rewrite H40.
  assert (H1 : (75 <= fmul n (3 # 4))%Q) by (apply fl_ge; [reflexivity | lra]).
  pose proof (fmul_nonneg r (1 # 4) Hr ltac:(lra)) as H2.
  apply fl_ge; [reflexivity | lra].
Qed.

Lemma spoken_blend_top (rarity : option string) (r : Q) :
  truthy rarity = true -> (80 <= r)%Q -> (95 <= blend rarity n r)%Q.
Proof.
  intros Ht Hr. rewrite blend_spoken by exact Ht.
  assert (H40 : Qltb n 40 = false) by (apply Qltb_ge; lra). rewrite H40.
  assert (H1 : (75 <= fmul n (3 # 4))%Q) by (apply fl_ge; [reflexivity | lra]).
  assert (H2 : (20 <= fmul r (1 # 4))%Q) by (apply fl_ge; [reflexivity | lra]).
  apply fl_ge; [reflexivity | lra].
Qed.

(** The expansion of the one matched name over the catalog [blue_eyes]. *)
Lemma expand_blue_eyes (rarity : option string) (row : card_match) :
  m_name row = "Blue-Eyes White Dragon" ->
  let cu := variant_confidence fuzz_ratio rarity n ultra_set in
  let cg := variant_confidence fuzz_ratio rarity n ghost_set in
  let both := [blue_eyes_variant ultra_set cu prio; blue_eyes_variant ghost_set cg prio] in
  expand_matches fuzz_ratio fuzz_token_set_ratio [blue_eyes] spoken rarity [row] ([], [])
  = Ok (if prio then (both, []) else ([], both)).
Proof.
  intros Hrow. cbn zeta. rewrite expand_one_card by (now rewrite Hrow).
  rewrite Hrow. cbn [blue_eyes card_sets get].
  rewrite (expand_sets_step _ _ _ _ _ n) by exact Hscore. cbn [existsb].
  destruct prio.
  - rewrite (expand_sets_step _ _ _ _ _ n) by exact Hscore. reflexivity.
  - rewrite (expand_sets_step _ _ _ _ _ n) by exact Hscore. reflexivity.
Qed.

Lemma ghost_rare_total :
  (95 <= card_total fuzz_ratio (Some "ghost rare") blue_eyes n)%Q.
Proof.
  unfold card_total.
  assert (E : (if truthy (Some "ghost rare")
               then calculate_rarity_confidence fuzz_ratio (get (Some "ghost rare") "")
                                                blue_eyes
               else 0%Q)
              = if (70 <=? fuzz_ratio "ghost rare" "ultra rare")%Z then 100%Q else 100%Q)
    by reflexivity.
  rewrite E. apply spoken_blend_top; [reflexivity|].
  destruct (70 <=? _)%Z; lra.
Qed.

Lemma ghost_rare_confidence :
  variant_confidence fuzz_ratio (Some "ghost rare") n ghost_set = 95%Q.
Proof.
  rewrite variant_confidence_cap.
  change (exact_rarity_match (Some "ghost rare") ghost_set) with true. cbn iota.
  unfold variant_blend.
  change (if truthy (Some "ghost rare") then _ else _) with 100%Q.
  pose proof (spoken_blend_top (Some "ghost rare") 100 eq_refl ltac:(lra)) as H.
  unfold py_min.
  assert (H95 : Qltb (blend (Some "ghost rare") n 100) 95 = false)
    by (apply Qltb_ge; lra).
  now rewrite H95.
Qed.

Lemma ultra_rare_confidence :
  (variant_confidence fuzz_ratio (Some "ghost rare") n ultra_set <= 85)%Q.
Proof.
  rewrite variant_confidence_cap.
  change (exact_rarity_match (Some "ghost rare") ultra_set) with false. cbn iota.
  apply py_min_le_l.
Qed.

(** With "ghost rare" spoken the ranked list starts with the Ghost Rare
    printing at 95. *)
Lemma rank_ghost_first :
  let cu := variant_confidence fuzz_ratio (Some "ghost rare") n ultra_set in
  let both := [blue_eyes_variant ultra_set cu prio; blue_eyes_variant ghost_set 95 prio] in
  exists rest,
    rank_variants (fst (if prio then (both, []) else ([], both)))
                  (snd (if prio then (both, []) else ([], both)))
    = blue_eyes_variant ghost_set 95 prio :: rest.
Proof.
  cbn zeta. pose proof ultra_rare_confidence as Hu.
  set (cu := variant_confidence fuzz_ratio (Some "ghost rare") n ultra_set) in *.
  assert (Hs : sort_by_confidence
                 [blue_eyes_variant ultra_set cu prio; blue_eyes_variant ghost_set 95 prio]
               = [blue_eyes_variant ghost_set 95 prio; blue_eyes_variant ultra_set cu prio]).
  { unfold sort_by_confidence. cbn [fold_right insert_variant v_confidence blue_eyes_variant].
    assert (Hle : Qle_bool 95 cu = false).
    { destruct (Qle_bool 95 cu) eqn:E; [|reflexivity].
      apply Qle_bool_iff in E. lra. }
    now rewrite Hle. }
  unfold rank_variants.
  destruct prio; cbn [fst snd List.app]; rewrite Hs; eexists; reflexivity.
Qed.

Lemma ghost_rare_auto_confirmed_scored :
  process_voice_input fuzz_ratio fuzz_token_set_ratio (fresh_app [blue_eyes] true)
                      "blue eyes white dragon ghost rare"
  = Ok (ghost_rare_committed [blue_eyes],
        [ Processed "blue eyes white dragon" (Some "ghost rare") None;
          SetStatus (Added "Blue-Eyes White Dragon" "Ghost Rare");
          FetchPrice (Ok {| pp_card_number := "LOB-001";
                            pp_card_name := "Blue-Eyes White Dragon";
                            pp_card_rarity := "Ghost Rare";
                            pp_art_variant := "";
                            pp_force_refresh := false |});
          SetStatus (AutoConfirmed "Blue-Eyes White Dragon" "Ghost Rare" 95) ]).
Proof.
  assert (E : process_voice_input fuzz_ratio fuzz_token_set_ratio
                (fresh_app [blue_eyes] true) "blue eyes white dragon ghost rare"
              = match find_and_present_card_options fuzz_ratio fuzz_token_set_ratio
                        (fresh_app [blue_eyes] true) spoken None (Some "ghost rare") with
                | Ok (a', ev) =>
                    Ok (a', Processed spoken (Some "ghost rare") None :: ev)
                | Raise e => Raise e
                end) by reflexivity.
  rewrite E. clear E.
  unfold find_and_present_card_options. cbn [set_cards fresh_app].
  rewrite (first_pass_single blue_eyes "Blue-Eyes White Dragon" _ _ n) by
    (reflexivity || exact Hscore || (pose proof ghost_rare_total; lra)).
  rewrite expand_blue_eyes by reflexivity. cbn zeta.
  rewrite ghost_rare_confidence.
  destruct rank_ghost_first as [rest Hr]. cbn zeta in Hr.
  destruct prio eqn:Hp; cbn [fst snd] in Hr; cbn [List.app];
    rewrite Hr; reflexivity.
Qed.

(** The same for the catalog held as one entry per printing: the first
    pass keeps one row for the name, whichever entry scored higher. *)
Lemma first_pass_split :
  exists row,
    first_pass fuzz_ratio fuzz_token_set_ratio split_catalog spoken (Some "ghost rare")
    = [row] /\
    m_name row = "Blue-Eyes White Dragon".
Proof.
  unfold name_score_of in Hscore.
  unfold first_pass, split_catalog. cbn [fold_left].
  unfold score_card at 2. cbn [name blue_eyes_ultra]. rewrite Hscore.
  set (r1 := if truthy (Some "ghost rare")
             then calculate_rarity_confidence fuzz_ratio (get (Some "ghost rare") "")
                                              blue_eyes_ultra
             else 0%Q).
  assert (Hr1 : (0 <= r1)%Q).
  { assert (E : r1 = if (70 <=? fuzz_ratio "ghost rare" "ultra rare")%Z
                     then py_max 0 (fmul (Zq (fuzz_ratio "ghost rare" "ultra rare"))
                                         (fl (7 # 10)))
                     else 0%Q) by reflexivity.
    rewrite E. destruct (70 <=? _)%Z; [apply py_max_ge_l | apply Qle_refl]. }
  pose proof (spoken_blend_floor (Some "ghost rare") r1 eq_refl Hr1) as Hb1.
  assert (H1 : Qle_bool 50 (blend (Some "ghost rare") n r1) = true)
    by (apply Qle_bool_iff; lra).
  rewrite H1. cbn [find List.app].
  unfold score_card. cbn [name blue_eyes_ghost]. rewrite Hscore.
  change (if truthy (Some "ghost rare")
          then calculate_rarity_confidence fuzz_ratio (get (Some "ghost rare") "")
                                           blue_eyes_ghost
          else 0%Q) with 100%Q.
  pose proof (spoken_blend_floor (Some "ghost rare") 100 eq_refl ltac:(lra)) as Hb2.
  assert (H2 : Qle_bool 50 (blend (Some "ghost rare") n 100) = true)
    by (apply Qle_bool_iff; lra).
  rewrite H2. cbn [find m_name String.eqb Ascii.eqb Bool.eqb m_confidence].
  destruct (Qltb _ _); eexists; split; reflexivity.
Qed.

Lemma expand_split (row : card_match) :
  m_name row = "Blue-Eyes White Dragon" ->
  let cu := variant_confidence fuzz_ratio (Some "ghost rare") n ultra_set in
  let cg := variant_confidence fuzz_ratio (Some "ghost rare") n ghost_set in
  let both := [printing_variant blue_eyes_ultra ultra_set cu prio;
               printing_variant blue_eyes_ghost ghost_set cg prio] in
  expand_matches fuzz_ratio fuzz_token_set_ratio split_catalog spoken
                 (Some "ghost rare") [row] ([], [])
  = Ok (if prio then (both, []) else ([], both)).
Proof.
  intros Hrow. cbn zeta. cbn [expand_matches]. rewrite Hrow.
  unfold split_catalog. cbn [expand_cards name blue_eyes_ultra blue_eyes_ghost].
  rewrite String.eqb_refl. cbn [card_sets get blue_eyes_ultra blue_eyes_ghost].
  rewrite (expand_sets_step _ _ _ _ _ n) by exact Hscore. cbn [existsb].
  destruct prio.
  - rewrite expand_sets_nil. cbv beta iota.
    rewrite (expand_sets_step _ _ _ _ _ n) by exact Hscore. reflexivity.
  - rewrite expand_sets_nil. cbv beta iota.
    rewrite (expand_sets_step _ _ _ _ _ n) by exact Hscore. reflexivity.
Qed.

Lemma rank_ghost_first_split :
  let cu := variant_confidence fuzz_ratio (Some "ghost rare") n ultra_set in
  let both := [printing_variant blue_eyes_ultra ultra_set cu prio;
               printing_variant blue_eyes_ghost ghost_set 95 prio] in
  exists rest,
    rank_variants (fst (if prio then (both, []) else ([], both)))
                  (snd (if prio then (both, []) else ([], both)))
    = printing_variant blue_eyes_ghost ghost_set 95 prio :: rest.
Proof.
  cbn zeta. pose proof ultra_rare_confidence as Hu.
  set (cu := variant_confidence fuzz_ratio (Some "ghost rare") n ultra_set) in *.
  assert (Hs : sort_by_confidence
                 [printing_variant blue_eyes_ultra ultra_set cu prio;
                  printing_variant blue_eyes_ghost ghost_set 95 prio]
               = [printing_variant blue_eyes_ghost ghost_set 95 prio;
                  printing_variant blue_eyes_ultra ultra_set cu prio]).
  { unfold sort_by_confidence. cbn [fold_right insert_variant v_confidence printing_variant].
    assert (Hle : Qle_bool 95 cu = false).
    { destruct (Qle_bool 95 cu) eqn:E; [|reflexivity].
      apply Qle_bool_iff in E. lra. }
    now rewrite Hle. }
  unfold rank_variants.
  destruct prio; cbn [fst snd List.app]; rewrite Hs; eexists; reflexivity.
Qed.

Lemma ghost_rare_auto_confirmed_split_scored :
  process_voice_input fuzz_ratio fuzz_token_set_ratio (fresh_app split_catalog true)
                      "blue eyes white dragon ghost rare"
  = Ok (set_locked (push_card (fresh_app split_catalog true) ghost_rare_entry_split) true,
        [ Processed "blue eyes white dragon" (Some "ghost rare") None;
          SetStatus (Added "Blue-Eyes White Dragon" "Ghost Rare");
          FetchPrice (Ok {| pp_card_number := "LOB-001";
                            pp_card_name := "Blue-Eyes White Dragon";
                            pp_card_rarity := "Ghost Rare";
                            pp_art_variant := "";
                            pp_force_refresh := false |});
          SetStatus (AutoConfirmed "Blue-Eyes White Dragon" "Ghost Rare" 95) ]).
Proof.
  assert (E : process_voice_input fuzz_ratio fuzz_token_set_ratio
                (fresh_app split_catalog true) "blue eyes white dragon ghost rare"
              = match find_and_present_card_options fuzz_ratio fuzz_token_set_ratio
                        (fresh_app split_catalog true) spoken None (Some "ghost rare") with
                | Ok (a', ev) =>
                    Ok (a', Processed spoken (Some "ghost rare") None :: ev)
                | Raise e => Raise e
                end) by reflexivity.
  rewrite E. clear E.
  unfold find_and_present_card_options. cbn [set_cards fresh_app].
  destruct first_pass_split as (row & Hfp & Hname).
  change (blue_eyes_ultra :: [blue_eyes_ghost]) with split_catalog.
  rewrite Hfp. rewrite (expand_split row Hname). cbn zeta.
  rewrite ghost_rare_confidence.
  destruct rank_ghost_first_split as [rest Hr]. cbn zeta in Hr.
  destruct prio eqn:Hp; cbn [fst snd] in Hr; cbn [List.app];
    rewrite Hr; reflexivity.
Qed.

(** Without a spoken rarity both printings are cut at 85. *)
Lemma silent_confidence (cs : card_set) :
  variant_confidence fuzz_ratio None n cs = 85%Q.
Proof.
  unfold variant_confidence. cbn [truthy andb]. rewrite blend_silent by reflexivity.
  unfold py_min. assert (H : Qltb n 85 = false) by (apply Qltb_ge; lra). now rewrite H.
Qed.

Lemma silent_total :
  card_total fuzz_ratio None blue_eyes n = n.
Proof. unfold card_total. now rewrite blend_silent. Qed.

Lemma blue_eyes_two_options_scored :
  exists a' ev,
    process_voice_input fuzz_ratio fuzz_token_set_ratio (fresh_app [blue_eyes] false)
                        "blue eyes white dragon" = Ok (a', ev) /\
    pending_voice_confirmation a' = true /\
    map (fun v => (v_rarity v, v_confidence v)) (pending_card_options a')
    = [("Ultra Rare", 85%Q); ("Ghost Rare", (849 # 10)%Q)].
Proof.
  assert (E : process_voice_input fuzz_ratio fuzz_token_set_ratio
                (fresh_app [blue_eyes] false) "blue eyes white dragon"
              = match find_and_present_card_options fuzz_ratio fuzz_token_set_ratio
                        (fresh_app [blue_eyes] false) spoken None None with
                | Ok (a', ev) => Ok (a', Processed spoken None None :: ev)
                | Raise e => Raise e
                end) by reflexivity.
  rewrite E. clear E.
  unfold find_and_present_card_options. cbn [set_cards fresh_app].
  rewrite (first_pass_single blue_eyes "Blue-Eyes White Dragon" _ _ n) by
    (reflexivity || exact Hscore || (rewrite silent_total; lra)).
  rewrite expand_blue_eyes by reflexivity. cbn zeta.
  rewrite !silent_confidence.
  destruct prio; eexists; eexists; (split; [reflexivity | split; reflexivity]).
Qed.

Lemma nameless_entry_raises_scored :
  process_voice_input fuzz_ratio fuzz_token_set_ratio
                      (fresh_app [blue_eyes; nameless] false) "blue eyes white dragon"
  = Raise (KeyError "name").
Proof.
  assert (E : process_voice_input fuzz_ratio fuzz_token_set_ratio
                (fresh_app [blue_eyes; nameless] false) "blue eyes white dragon"
              = match find_and_present_card_options fuzz_ratio fuzz_token_set_ratio
                        (fresh_app [blue_eyes; nameless] false) spoken None None with
                | Ok (a', ev) => Ok (a', Processed spoken None None :: ev)
                | Raise e => Raise e
                end) by reflexivity.
  rewrite E. clear E.
  rewrite (nameless_entry_aborts fuzz_ratio fuzz_token_set_ratio _ nameless);
    [reflexivity | cbn; auto | reflexivity |].
  cbn [set_cards fresh_app].
  rewrite (first_pass_skips_nameless fuzz_ratio fuzz_token_set_ratio [blue_eyes] [] nameless)
    by reflexivity.
  cbn [List.app].
  rewrite (first_pass_single blue_eyes "Blue-Eyes White Dragon" _ _ n) by
    (reflexivity || exact Hscore || (rewrite silent_total; lra)).
  discriminate.
Qed.





End Scored.

(** C7. With the catalog holding "Blue-Eyes White Dragon" in Ultra Rare and
    Ghost Rare (both LOB-001), auto-confirm on and the threshold at 85, the
    utterance "blue eyes white dragon ghost rare" commits the Ghost Rare
    printing at once, with a confidence of at least 95, and no selection is
    left pending; this holds whatever the similarity functions return. *)
Theorem ghost_rare_auto_confirmed :
  exists conf,
    process_voice_input fuzz_ratio fuzz_token_set_ratio (fresh_app [blue_eyes] true)
                        "blue eyes white dragon ghost rare"
    = Ok (ghost_rare_committed [blue_eyes],
          [ Processed "blue eyes white dragon" (Some "ghost rare") None;
            SetStatus (Added "Blue-Eyes White Dragon" "Ghost Rare");
            FetchPrice (Ok {| pp_card_number := "LOB-001";
                              pp_card_name := "Blue-Eyes White Dragon";
                              pp_card_rarity := "Ghost Rare";
                              pp_art_variant := "";
                              pp_force_refresh := false |});
            SetStatus (AutoConfirmed "Blue-Eyes White Dragon" "Ghost Rare" conf) ]) /\
    (95 <= conf)%Q /\
    cards (ghost_rare_committed [blue_eyes]) = [ghost_rare_entry] /\
    idle (ghost_rare_committed [blue_eyes]).
Proof.
  exists 95%Q.
  split; [|split; [apply Qle_refl | split; [reflexivity | unfold idle; cbn; auto]]].
  destruct (blue_eyes_name_score fuzz_ratio fuzz_token_set_ratio) as (n & Hscore & Hn).
  exact (ghost_rare_auto_confirmed_scored n Hscore Hn).
Qed.

(** The Ghost Rare printing is committed at once from the catalog held as
    one entry per printing too. *)
Lemma ghost_rare_auto_confirmed_split :
  process_voice_input fuzz_ratio fuzz_token_set_ratio (fresh_app split_catalog true)
                      "blue eyes white dragon ghost rare"
  = Ok (set_locked (push_card (fresh_app split_catalog true) ghost_rare_entry_split) true,
        [ Processed "blue eyes white dragon" (Some "ghost rare") None;
          SetStatus (Added "Blue-Eyes White Dragon" "Ghost Rare");
          FetchPrice (Ok {| pp_card_number := "LOB-001";
                            pp_card_name := "Blue-Eyes White Dragon";
                            pp_card_rarity := "Ghost Rare";
                            pp_art_variant := "";
                            pp_force_refresh := false |});
          SetStatus (AutoConfirmed "Blue-Eyes White Dragon" "Ghost Rare" 95) ]).
Proof.
  destruct (blue_eyes_name_score fuzz_ratio fuzz_token_set_ratio) as (n & Hscore & Hn).
  exact (ghost_rare_auto_confirmed_split_scored n Hscore Hn).
Qed.

(** The same catalog and spoken name without a rarity, auto-confirm off:
    the two printings are offered, at 85 and 84.9. *)
Lemma blue_eyes_two_options :
  exists a' ev,
    process_voice_input fuzz_ratio fuzz_token_set_ratio (fresh_app [blue_eyes] false)
                        "blue eyes white dragon" = Ok (a', ev) /\
    pending_voice_confirmation a' = true /\
    map (fun v => (v_rarity v, v_confidence v)) (pending_card_options a')
    = [("Ultra Rare", 85%Q); ("Ghost Rare", (849 # 10)%Q)].
Proof.
  destruct (blue_eyes_name_score fuzz_ratio fuzz_token_set_ratio) as (n & Hscore & Hn).
  exact (blue_eyes_two_options_scored n Hscore Hn).
Qed.

(** C6, at a failing input. The catalog of the examples with one entry
    without a name added: the search for "blue eyes white dragon" raises
    [KeyError] in the variant expansion, where the catalog without that
    entry offers its two printings. *)
Theorem nameless_entry_failing_input :
  process_voice_input fuzz_ratio fuzz_token_set_ratio
                      (fresh_app [blue_eyes; nameless] false) "blue eyes white dragon"
  = Raise (KeyError "name") /\
  exists a' ev,
    process_voice_input fuzz_ratio fuzz_token_set_ratio (fresh_app [blue_eyes] false)
                        "blue eyes white dragon" = Ok (a', ev) /\
    map v_rarity (pending_card_options a') = ["Ultra Rare"; "Ghost Rare"].
Proof.
  destruct (blue_eyes_name_score fuzz_ratio fuzz_token_set_ratio) as (n & Hscore & Hn).
  split.
  - exact (nameless_entry_raises_scored n Hscore Hn).
  - destruct (blue_eyes_two_options_scored n Hscore Hn) as (a' & ev & H1 & _ & H2).
    exists a', ev. split; [exact H1|].
    rewrite <- (map_map (fun v => (v_rarity v, v_confidence v)) fst), H2. reflexivity.
Qed.


End BlueEyes.

(** ** The loops of the tie-breaker end within their fuel *)

Lemma count_above_le_length (used : list Q) (c : Q) :
  count_above used c <= List.length used.
Proof. apply filter_length_le. Qed.

Lemma count_below_le_length (used : list Q) (c : Q) :
  count_below used c <= List.length used.
Proof. apply filter_length_le. Qed.

(** A score that is taken is counted, and stops being counted one step
    further up. *)
Lemma count_above_step (used : list Q) (c : Q) :
  in_scores c used = true ->
  count_above used (c + (1 # 10)) < count_above used c.
Proof.
  unfold in_scores, count_above.
  induction used as [|u r IH]; cbn [existsb List.filter]; [discriminate|].
  assert (Hmono : List.length (List.filter (fun u => Qle_bool (c + (1 # 10)) u) r)
                  <= List.length (List.filter (fun u => Qle_bool c u) r)).
  { clear. induction r as [|x r IH]; cbn [List.filter]; [lia|].
    destruct (Qle_bool (c + (1 # 10)) x) eqn:E1.
    - apply Qle_bool_iff in E1.
      assert (E2 : Qle_bool c x = true) by (apply Qle_bool_iff; lra).
      rewrite E2. cbn [List.length]. lia.
    - destruct (Qle_bool c x); cbn [List.length]; lia. }
  intros H. apply orb_true_iff in H. destruct H as [H|H].
  - apply Qeq_bool_iff in H.
    assert (E1 : Qle_bool (c + (1 # 10)) u = false).
    { destruct (Qle_bool (c + (1 # 10)) u) eqn:E; [|reflexivity].
      apply Qle_bool_iff in E. lra. }
    assert (E2 : Qle_bool c u = true) by (apply Qle_bool_iff; lra).
    rewrite E1, E2. cbn [List.length]. lia.
  - specialize (IH H).
    destruct (Qle_bool (c + (1 # 10)) u) eqn:E1.
    + apply Qle_bool_iff in E1.
      assert (E2 : Qle_bool c u = true) by (apply Qle_bool_iff; lra).
      rewrite E2. cbn [List.length]. lia.
    + destruct (Qle_bool c u); cbn [List.length]; lia.
Qed.

Lemma count_below_step (used : list Q) (c : Q) :
  in_scores c used = true ->
  count_below used (c - (1 # 10)) < count_below used c.
Proof.
  unfold in_scores, count_below.
  induction used as [|u r IH]; cbn [existsb List.filter]; [discriminate|].
  assert (Hmono : List.length (List.filter (fun u => Qle_bool u (c - (1 # 10))) r)
                  <= List.length (List.filter (fun u => Qle_bool u c) r)).
  { clear. induction r as [|x r IH]; cbn [List.filter]; [lia|].
    destruct (Qle_bool x (c - (1 # 10))) eqn:E1.
    - apply Qle_bool_iff in E1.
      assert (E2 : Qle_bool x c = true) by (apply Qle_bool_iff; lra).
      rewrite E2. cbn [List.length]. lia.
    - destruct (Qle_bool x c); cbn [List.length]; lia. }
  intros H. apply orb_true_iff in H. destruct H as [H|H].
  - apply Qeq_bool_iff in H.
    assert (E1 : Qle_bool u (c - (1 # 10)) = false).
    { destruct (Qle_bool u (c - (1 # 10))) eqn:E; [|reflexivity].
      apply Qle_bool_iff in E. lra. }
    assert (E2 : Qle_bool u c = true) by (apply Qle_bool_iff; lra).
    rewrite E1, E2. cbn [List.length]. lia.
  - specialize (IH H).
    destruct (Qle_bool u (c - (1 # 10))) eqn:E1.
    + apply Qle_bool_iff in E1.
      assert (E2 : Qle_bool u c = true) by (apply Qle_bool_iff; lra).
      rewrite E2. cbn [List.length]. lia.
    + destruct (Qle_bool u c); cbn [List.length]; lia.
Qed.

(** With more fuel than there are used scores at or above the start, the
    climb gives the same result: it has ended by itself. *)
Lemma climb_fuel (used : list Q) (f1 f2 : nat) (c : Q) :
  count_above used c < f1 -> count_above used c < f2 ->
  climb f1 used c = climb f2 used c.
Proof.
  revert f2 c. induction f1 as [|f1 IH]; intros f2 c H1 H2; [lia|].
  destruct f2 as [|f2]; [lia|]. cbn [climb].
  destruct (in_scores c used) eqn:Hin; [|reflexivity].
  destruct (Qltb _ _); [reflexivity|].
  pose proof (count_above_step used c Hin).
  apply IH; lia.
Qed.

Lemma descend_fuel (used : list Q) (f1 f2 : nat) (original c : Q) :
  count_below used c < f1 -> count_below used c < f2 ->
  descend f1 used original c = descend f2 used original c.
Proof.
  revert f2 c. induction f1 as [|f1 IH]; intros f2 c H1 H2; [lia|].
  destruct f2 as [|f2]; [lia|]. cbn [descend].
  destruct (in_scores c used) eqn:Hin; [|reflexivity].
  destruct (Qltb _ _); [reflexivity|].
  pose proof (count_below_step used c Hin).
  apply IH; lia.
Qed.

(** The fuel the model gives the two loops is never used up: any larger
    amount yields the same confidence. *)
Lemma unique_confidence_total (used : list Q) (original : Q) (extra : nat) :
  round1 (descend (S (List.length used) + extra) used original original)
  = unique_confidence used original /\
  forall c, climb (S (List.length used) + extra) used c
            = climb (S (List.length used)) used c.
Proof.
  split.
  - unfold unique_confidence. f_equal.
    pose proof (count_below_le_length used original).
    apply descend_fuel; lia.
  - intros c. pose proof (count_above_le_length used c). apply climb_fuel; lia.
Qed.

(** ** Tie-breaking *)

(** The tie-breaker rewrites confidences only: rows keep their places. *)
Lemma ensure_unique_from_same_rows (used : list Q) (l : list variant) :
  same_rows l (ensure_unique_from used l).
Proof.
  revert used. induction l as [|v r IH]; intros used; cbn.
  - constructor.
  - constructor; [reflexivity | apply IH].
Qed.

Lemma ensure_unique_same_rows (l : list variant) :
  same_rows l (ensure_unique_confidence_scores l).
Proof. apply ensure_unique_from_same_rows. Qed.

Lemma same_rows_nth (l l' : list variant) (i : nat) (v' : variant) :
  same_rows l l' -> nth_error l' i = Some v' ->
  exists v, nth_error l i = Some v /\ v' = set_confidence v (v_confidence v').
Proof.
  intros H. revert i. induction H as [|x x' r r' Hx Hr IH]; intros i Hn.
  - destruct i; discriminate.
  - destruct i as [|i]; cbn in *.
    + injection Hn as <-. exists x. auto.
    + now apply IH.
Qed.

(** C3, at two failing inputs. Two printings of one card, sorted, scored
    85 and 84.975 (a name score of 100 blended with rarity ratios of 60,
    capped, and of 57): the second score is not in the set of used scores,
    so the loop leaves it as it is, and only then is it rounded, to 85.0;
    both variants end with the same confidence, in exact arithmetic and on
    doubles alike. On doubles the walk down does not even separate plain
    ties: four variants all at 85 end as 85, 84.9, 84.8 and 84.8, because
    the double 84.9 - 0.1 is not the double 84.8 that the set of used
    scores holds. The rows themselves keep their places. *)
Theorem tie_breaking_failing_input :
  let input := [scored "Ultra Rare" 85 true; scored "Ghost Rare" (84975 # 1000) true] in
  (sorted_desc input /\
   map v_confidence (ensure_unique_confidence_scores input) = [85%Q; 85%Q] /\
   distinct_scores (map v_confidence (ensure_unique_confidence_scores input)) = false /\
   same_rows input (ensure_unique_confidence_scores input)) /\
  Binary64.ensure_unique_confidence_scores [Binary64.of_Z 85; Binary64.dec 84975 1000]
  = [Binary64.of_Z 85; Binary64.of_Z 85] /\
  Binary64.ensure_unique_confidence_scores
    [Binary64.of_Z 85; Binary64.of_Z 85; Binary64.of_Z 85; Binary64.of_Z 85]
  = [Binary64.of_Z 85; Binary64.dec 849 10; Binary64.dec 848 10; Binary64.dec 848 10].
Proof.
  cbn zeta. split; [split; [|split; [|split]] | split].
  - cbn. repeat split; try constructor; try constructor.
    unfold Qle. cbn. lia.
  - reflexivity.
  - reflexivity.
  - apply ensure_unique_same_rows.
  - vm_compute. reflexivity.
  - vm_compute. reflexivity.
Qed.

(** On one-decimal scores that tie, the walk down does separate them. *)
Example tie_breaking_on_ties :
  map v_confidence
      (ensure_unique_confidence_scores
         [scored "A" 85 true; scored "B" 85 true; scored "C" 85 false; scored "D" (848 # 10) false])
  = [85%Q; (849 # 10)%Q; (424 # 5)%Q; (847 # 10)%Q].
Proof. reflexivity. Qed.

(** ** Ranking *)

Lemma insert_variant_Forall (P : variant -> Prop) (x : variant) (l : list variant) :
  P x -> Forall P l -> Forall P (insert_variant x l).
Proof.
  intros Hx. induction l as [|y r IH]; cbn; intros Hl.
  - constructor; [exact Hx | constructor].
  - destruct (Qle_bool _ _).
    + constructor; assumption.
    + inversion Hl; subst. constructor; auto.
Qed.

Lemma insert_variant_In (x v : variant) (l : list variant) :
  In v (insert_variant x l) -> v = x \/ In v l.
Proof.
  induction l as [|y r IH]; cbn.
  - intros [<-|[]]. now left.
  - destruct (Qle_bool _ _); cbn.
    + intros [<-|H]; auto.
    + intros [<-|H]; auto. destruct (IH H); auto.
Qed.

Lemma sort_by_confidence_In (v : variant) (l : list variant) :
  In v (sort_by_confidence l) -> In v l.
Proof.
  induction l as [|x r IH]; cbn; [tauto|].
  intros H. apply insert_variant_In in H. destruct H as [->|H]; auto.
Qed.

Lemma sort_by_confidence_Forall (P : variant -> Prop) (l : list variant) :
  Forall P l -> Forall P (sort_by_confidence l).
Proof.
  induction 1 as [|x r Hx Hr IH]; cbn; [constructor|].
  now apply insert_variant_Forall.
Qed.

(** Inserting keeps the ranking, provided the newcomer is a priority
    variant or the list holds none. *)
Lemma insert_variant_ranked (x : variant) (l : list variant) :
  ranked l ->
  (v_is_priority x = true \/ Forall (fun b => v_is_priority b = false) l) ->
  ranked (insert_variant x l).
Proof.
  induction l as [|y r IH]; intros Hr Hx.
  - cbn. split; [constructor | exact I].
  - cbn [insert_variant]. destruct Hr as [Hy Hr].
    destruct (Qle_bool (v_confidence y) (v_confidence x)) eqn:E.
    + apply Qle_bool_iff in E. cbn [ranked]. split; [|split; assumption].
      constructor.
      * split; [exact E|]. intros Hxf Hyt.
        destruct Hx as [Hx|Hx]; [congruence|].
        inversion Hx; subst. congruence.
      * rewrite Forall_forall in Hy. apply Forall_forall.
        intros b Hb. destruct (Hy b Hb) as [Hle _].
        split; [eapply Qle_trans; eassumption|].
        intros Hxf Hbt. destruct Hx as [Hx|Hx]; [congruence|].
        inversion Hx as [|? ? _ Hx']; subst. rewrite Forall_forall in Hx'.
        specialize (Hx' b Hb). congruence.
    + assert (Hlt : (v_confidence x < v_confidence y)%Q).
      { apply Qnot_le_lt. intros H. apply Qle_bool_iff in H. congruence. }
      cbn [ranked]. split.
      * apply insert_variant_Forall; [|exact Hy].
        split; [now apply Qlt_le_weak | intros _ _; exact Hlt].
      * apply IH; [exact Hr|]. destruct Hx as [Hx|Hx]; [now left|].
        right. now inversion Hx.
Qed.

Lemma sort_by_confidence_ranked (exact_name_matches all_variants : list variant) :
  Forall (fun v => v_is_priority v = true) exact_name_matches ->
  Forall (fun v => v_is_priority v = false) all_variants ->
  ranked (sort_by_confidence (exact_name_matches ++ all_variants)).
Proof.
  intros He Ha. induction He as [|x r Hx Hr IH]; cbn [List.app].
  - induction Ha as [|y s Hy Hs IH]; cbn; [exact I|].
    apply insert_variant_ranked; [exact IH|]. right.
    now apply sort_by_confidence_Forall.
  - cbn [sort_by_confidence fold_right]. apply insert_variant_ranked; [exact IH|].
    now left.
Qed.

Lemma ranked_nth (l : list variant) (i j : nat) (a b : variant) :
  ranked l -> i < j -> nth_error l i = Some a -> nth_error l j = Some b ->
  (v_confidence b <= v_confidence a)%Q /\
  (v_is_priority a = false -> v_is_priority b = true ->
   (v_confidence b < v_confidence a)%Q).
Proof.
  revert i j. induction l as [|x r IH]; intros i j Hr Hij Hi Hj.
  - destruct i; discriminate.
  - destruct Hr as [Hx Hr]. destruct j as [|j]; [lia|]. cbn in Hj.
    destruct i as [|i]; cbn in Hi.
    + injection Hi as <-. rewrite Forall_forall in Hx. apply Hx.
      eapply nth_error_In; eassumption.
    + apply (IH i j); auto. lia.
Qed.

Lemma nth_error_firstn_some {A : Type} (n i : nat) (l : list A) (x : A) :
  nth_error (firstn n l) i = Some x -> nth_error l i = Some x.
Proof.
  revert i l. induction n as [|n IH]; intros i l H.
  - destruct i; discriminate.
  - destruct l as [|y r]; [destruct i; discriminate|].
    destruct i as [|i]; cbn in *; auto.
Qed.

Section PriorityOrder.

Variable fuzz_ratio : string -> string -> Z.
Variable fuzz_token_set_ratio : string -> string -> Z.

Lemma expanded_flags (set_cards : list card) (card_name : string)
      (rarity : option string) (card_matches : list card_match)
      (exact_name_matches all_variants : list variant) :
  expand_matches fuzz_ratio fuzz_token_set_ratio set_cards card_name rarity
                 card_matches ([], []) = Ok (exact_name_matches, all_variants) ->
  Forall (fun v => v_is_priority v = true /\
                   v_is_priority v = is_priority fuzz_token_set_ratio card_name (v_name v))
         exact_name_matches /\
  Forall (fun v => v_is_priority v = false /\
                   v_is_priority v = is_priority fuzz_token_set_ratio card_name (v_name v))
         all_variants.
Proof.
  intros He. apply expand_matches_expanded in He; [|split; constructor].
  destruct He as [Hex Hal]. cbn [fst snd] in *. split.
  - eapply Forall_impl; [|exact Hex]. intros v (cs & ns & _ & _ & _ & _ & _ & _ & H1 & H2). auto.
  - eapply Forall_impl; [|exact Hal]. intros v (cs & ns & _ & _ & _ & _ & _ & _ & H1 & H2). auto.
Qed.

(** C4. In the list that is presented, every priority variant (name
    similarity of at least 90 by token overlap, or one of the spoken and
    the card name inside the other) stands before every non-priority
    variant whose confidence, the score the variants are ranked by, is
    equal to or lower than its own. The list is the ranking by that score
    with the values alone adjusted for display: the variants [n0] and [p0]
    of the ranking stand at the places of [n] and [p]. *)
Theorem priority_first_by_score (set_cards : list card) (card_name : string)
        (rarity : option string) (card_matches : list card_match)
        (exact_name_matches all_variants : list variant)
        (i j : nat) (n p : variant) :
  expand_matches fuzz_ratio fuzz_token_set_ratio set_cards card_name rarity
                 card_matches ([], []) = Ok (exact_name_matches, all_variants) ->
  let by_score := sort_by_confidence (exact_name_matches ++ all_variants) in
  let final_variants := rank_variants exact_name_matches all_variants in
  nth_error final_variants i = Some n ->
  nth_error final_variants j = Some p ->
  v_is_priority p = true ->
  v_is_priority n = false ->
  exists n0 p0,
    nth_error by_score i = Some n0 /\ n = set_confidence n0 (v_confidence n) /\
    nth_error by_score j = Some p0 /\ p = set_confidence p0 (v_confidence p) /\
    is_priority fuzz_token_set_ratio card_name (v_name p) = true /\
    is_priority fuzz_token_set_ratio card_name (v_name n) = false /\
    ((v_confidence n0 <= v_confidence p0)%Q -> j < i).
Proof.
  intros He by_score final_variants Hi Hj Hp Hn.
  apply expanded_flags in He. destruct He as [Hex Hal].
  assert (Hr : ranked by_score).
  { apply sort_by_confidence_ranked.
    - eapply Forall_impl; [|exact Hex]. now intros v [H _].
    - eapply Forall_impl; [|exact Hal]. now intros v [H _]. }
  assert (Hflag : forall v, In v by_score ->
            v_is_priority v = is_priority fuzz_token_set_ratio card_name (v_name v)).
  { intros v Hv. apply sort_by_confidence_In in Hv. apply in_app_or in Hv.
    rewrite Forall_forall in Hex, Hal.
    destruct Hv as [Hv|Hv]; [now apply Hex | now apply Hal]. }
  unfold final_variants, rank_variants in Hi, Hj. fold by_score in Hi, Hj.
  apply nth_error_firstn_some in Hi, Hj.
  destruct (same_rows_nth _ _ _ _ (ensure_unique_same_rows by_score) Hi) as (n0 & Hn0 & En).
  destruct (same_rows_nth _ _ _ _ (ensure_unique_same_rows by_score) Hj) as (p0 & Hp0 & Ep).
  assert (Hpn0 : v_is_priority n0 = false) by (rewrite En in Hn; exact Hn).
  assert (Hpp0 : v_is_priority p0 = true) by (rewrite Ep in Hp; exact Hp).
  assert (Nn : v_name n = v_name n0) by (rewrite En; reflexivity).
  assert (Np : v_name p = v_name p0) by (rewrite Ep; reflexivity).
  exists n0, p0. repeat split; auto.
  - rewrite Np, <- Hpp0. symmetry. apply Hflag. eapply nth_error_In; eassumption.
  - rewrite Nn, <- Hpn0. symmetry. apply Hflag. eapply nth_error_In; eassumption.
  - intros Hle. destruct (Nat.lt_trichotomy i j) as [Hlt|[Heq|Hgt]]; [|subst j|exact Hgt].
    + destruct (ranked_nth by_score i j n0 p0 Hr Hlt Hn0 Hp0) as [_ Hs].
      specialize (Hs Hpn0 Hpp0). exfalso. exact (Qlt_not_le _ _ Hs Hle).
    + rewrite Hn0 in Hp0. injection Hp0 as <-. congruence.
Qed.

End PriorityOrder.

(** C4, witnessed on the search for "dark magician" in a catalog
    with "Dark Magician" (priority) and "Dark Paladin" (not). *)
Lemma priority_first_by_score_witness :
  exists n0 p0,
    v_name n0 = "Dark Paladin" /\ v_name p0 = "Dark Magician" /\
    ((v_confidence n0 <= v_confidence p0)%Q -> 0 < 2).
Proof.
  destruct (priority_first_by_score
              FuzzRef.ratio FuzzRef.token_set_ratio dark_catalog "dark magician" None
              (first_pass FuzzRef.ratio FuzzRef.token_set_ratio dark_catalog
                          "dark magician" None)
              [mk_variant dark_magician "Dark Magician" "Ultra Rare" "LOB-005" 85 true;
               mk_variant dark_magician "Dark Magician" "Common" "SDY-006" 85 true]
              [mk_variant dark_paladin "Dark Paladin" "Ultra Rare" "MFC-105" 64 false]
              2 0
              (mk_variant dark_paladin "Dark Paladin" "Ultra Rare" "MFC-105" 64 false)
              (mk_variant dark_magician "Dark Magician" "Ultra Rare" "LOB-005" 85 true)
              eq_refl eq_refl eq_refl eq_refl eq_refl)
    as (n0 & p0 & Hn0 & _ & Hp0 & _ & _ & _ & H).
  exists n0, p0. cbn in Hn0, Hp0.
  injection Hn0 as <-. injection Hp0 as <-.
  split; [reflexivity | split; [reflexivity | exact H]].
Defined.

(** * Further properties *)

(** ** Ranges of the scores *)

Lemma py_max_range (lo hi a b : Q) :
  (lo <= a <= hi)%Q -> (lo <= b <= hi)%Q -> (lo <= py_max a b <= hi)%Q.
Proof. intros Ha Hb. destruct (py_max_cases a b) as [[-> _] | [-> _]]; assumption. Qed.

Lemma Zq_range (z : Z) : (0 <= z <= 100)%Z -> (0 <= Zq z <= 100)%Q.
Proof.
  intros [H0 H1]. unfold Zq. split.
  - change 0%Q with (inject_Z 0). now rewrite <- Zle_Qle.
  - change 100%Q with (inject_Z 100). now rewrite <- Zle_Qle.
Qed.

Section ScoreRanges.

Variable fuzz_ratio : string -> string -> Z.
Variable fuzz_token_set_ratio : string -> string -> Z.
Hypothesis ratio_range : forall a b, (0 <= fuzz_ratio a b <= 100)%Z.
Hypothesis token_set_ratio_range : forall a b, (0 <= fuzz_token_set_ratio a b <= 100)%Z.

Lemma best_fuzzy_from_range (card_name : string) (search_variants : list string) :
  forall best, (0 <= best <= 100)%Z ->
  (0 <= best_fuzzy_from fuzz_token_set_ratio best card_name search_variants <= 100)%Z.
Proof.
  induction search_variants as [|v r IH]; intros best Hb; cbn [best_fuzzy_from]; [exact Hb|].
  apply IH. pose proof (token_set_ratio_range (PyStr.lower v) (PyStr.lower card_name)). lia.
Qed.

Lemma matched_words_le (input_words card_words : list string) :
  matched_words fuzz_ratio input_words card_words <= List.length input_words.
Proof.
  induction input_words as [|w r IH]; cbn [matched_words List.length]; [lia|].
  destruct (_ && _); lia.
Qed.

Lemma word_share_range (m n : nat) :
  m <= n -> 0 < n ->
  (0 <= fmul (fdiv (Zq (Z.of_nat m)) (Zq (Z.of_nat n))) 100 <= 100)%Q.
Proof.
  intros Hmn Hn. unfold Zq.
  assert (Hn' : (0 < inject_Z (Z.of_nat n))%Q).
  { change 0%Q with (inject_Z 0). rewrite <- Zlt_Qlt. lia. }
  assert (Hm0 : (0 <= inject_Z (Z.of_nat m))%Q).
  { change 0%Q with (inject_Z 0). rewrite <- Zle_Qle. lia. }
  assert (Hmn' : (inject_Z (Z.of_nat m) <= inject_Z (Z.of_nat n))%Q).
  { rewrite <- Zle_Qle. lia. }
  assert (H0 : (0 <= inject_Z (Z.of_nat m) / inject_Z (Z.of_nat n))%Q).
  { apply Qle_shift_div_l; [exact Hn'|]. lra. }
  assert (H1 : (inject_Z (Z.of_nat m) / inject_Z (Z.of_nat n) <= 1)%Q).
  { apply Qle_shift_div_r; [exact Hn'|]. lra. }
  assert (F0 : (0 <= fdiv (inject_Z (Z.of_nat m)) (inject_Z (Z.of_nat n)))%Q)
    by (apply fl_nonneg; exact H0).
  assert (F1 : (fdiv (inject_Z (Z.of_nat m)) (inject_Z (Z.of_nat n)) <= 1)%Q)
    by (apply fl_le; [reflexivity | exact H1]).
  split.
  - apply fl_nonneg. lra.
  - apply fl_le; [reflexivity | lra].
Qed.

(** The two penalties below 1 are doubles between 0 and 1. *)
Lemma penalty_range :
  (0 <= fl (8 # 10) <= 1)%Q /\ (0 <= fl (9 # 10) <= 1)%Q.
Proof. repeat split; vm_compute; discriminate. Qed.

Lemma raw_name_score_range (bf cs : Z) (wms : Q) :
  (0 <= bf <= 100)%Z -> (0 <= cs <= 100)%Z -> (0 <= wms <= 100)%Q ->
  (0 <= py_max (py_max (Zq bf) wms) (Zq cs) <= 100)%Q.
Proof.
  intros Hbf Hcs Hw. apply Zq_range in Hbf, Hcs.
  repeat apply py_max_range; assumption.
Qed.

(** X1. When [calculate_name_confidence] returns, its value stays between
    0 and 100 whenever the two similarity functions of the library do: the
    best of the three methods is in that range and the length penalty only
    lowers it. It raises only [UnboundLocalError] for [length_penalty],
    and only when the spoken name or the card name has no word left after
    cleaning; it returns whenever both have one. *)
Theorem name_confidence_range (input_name card_name : string)
        (search_variants : list string) :
  let score := calculate_name_confidence fuzz_ratio fuzz_token_set_ratio
                 input_name card_name search_variants in
  (forall v, score = Ok v -> (0 <= v <= 100)%Q) /\
  (forall e, score = Raise e ->
     e = UnboundLocalError "length_penalty" /\
     (PyStr.split (clean input_name) = [] \/ PyStr.split (clean card_name) = [])) /\
  (PyStr.split (clean input_name) <> [] -> PyStr.split (clean card_name) <> [] ->
   exists v, score = Ok v).
Proof.
  cbn zeta. unfold calculate_name_confidence.
  set (input_words := PyStr.split (clean input_name)).
  set (card_words := PyStr.split (clean card_name)).
  set (bf := best_fuzzy_from fuzz_token_set_ratio 0 card_name search_variants).
  set (cs := fuzz_ratio _ _).
  set (wms := match input_words with [] => 0%Q | _ => _ end).
  assert (Hw : (0 <= wms <= 100)%Q).
  { unfold wms. destruct input_words as [|w r] eqn:E; [lra|].
    rewrite <- E. apply word_share_range.
    - apply matched_words_le.
    - rewrite E. cbn. lia. }
  assert (Hraw : (0 <= py_max (py_max (Zq bf) wms) (Zq cs) <= 100)%Q).
  { apply raw_name_score_range; [|apply ratio_range|exact Hw].
    apply best_fuzzy_from_range. lia. }
  set (raw := py_max (py_max (Zq bf) wms) (Zq cs)) in *.
  destruct penalty_range as [P8 P9].
  destruct ((0 <? List.length input_words) && (0 <? List.length card_words))%bool eqn:El.
  - split; [|split].
    + intros v Hv. injection Hv as <-.
      destruct (Qltb _ (1 # 2)); [|destruct (Qltb _ (fl (7 # 10)))].
      * split; [apply fl_nonneg; nra | apply fl_le; [reflexivity | nra]].
      * split; [apply fl_nonneg; nra | apply fl_le; [reflexivity | nra]].
      * split; [apply fl_nonneg; lra | apply fl_le; [reflexivity | lra]].
    + intros e He. discriminate.
    + intros _ _. eexists. reflexivity.
  - assert (Hempty : input_words = [] \/ card_words = []).
    { apply andb_false_iff in El. destruct El as [El|El]; apply Nat.ltb_ge in El.
      - left. destruct input_words; [reflexivity | cbn in El; lia].
      - right. destruct card_words; [reflexivity | cbn in El; lia]. }
    split; [|split].
    + intros v Hv. destruct (Qle_bool 70 raw); [discriminate|]. now injection Hv as <-.
    + intros e He. destruct (Qle_bool 70 raw); [|discriminate].
      injection He as <-. split; [reflexivity | exact Hempty].
    + intros H1 H2. destruct Hempty; contradiction.
Qed.

Lemma best_rarity_from_range (input_rarity_clean : string) (sets : list card_set) :
  forall best, (0 <= best <= 100)%Q ->
  (0 <= best_rarity_from fuzz_ratio best input_rarity_clean sets <= 100)%Q.
Proof.
  induction sets as [|cs r IH]; intros best Hb; cbn [best_rarity_from]; [exact Hb|].
  destruct (String.eqb _ _); [lra|].
  destruct (_ || _)%bool.
  - apply IH. apply py_max_range; [exact Hb | lra].
  - destruct (70 <=? _)%Z; [|now apply IH].
    apply IH. apply py_max_range; [exact Hb|].
    match goal with |- context [Zq ?z] => pose proof (Zq_range z (ratio_range _ _)) end.
    pose proof seven_tenths as [S0 S1].
    split; [apply fl_nonneg; nra | apply fl_le; [reflexivity | nra]].
Qed.

(** X2. [calculate_rarity_confidence] stays between 0 and 100 whenever
    [fuzz.ratio] does, and is 0 for a card without printings (no
    ['card_sets'] key, or an empty list). *)
Theorem rarity_confidence_range (input_rarity : string) (c : card) :
  (0 <= calculate_rarity_confidence fuzz_ratio input_rarity c <= 100)%Q /\
  (get (card_sets c) [] = [] ->
   calculate_rarity_confidence fuzz_ratio input_rarity c = 0%Q).
Proof.
  unfold calculate_rarity_confidence. split.
  - apply best_rarity_from_range. lra.
  - intros E. now rewrite E.
Qed.

(** With a rarity spoken, a name score below 40 cannot reach the
    threshold of 50, however well the rarity matches. *)
Lemma weak_name_below_threshold (rarity : option string) (name_score rarity_score : Q) :
  truthy rarity = true -> (name_score < 40)%Q -> (rarity_score <= 100)%Q ->
  (blend rarity name_score rarity_score < 50)%Q.
Proof.
  intros Ht Hn Hr. rewrite blend_spoken by exact Ht.
  apply Qltb_lt in Hn. rewrite Hn. apply Qltb_lt in Hn.
  assert (H1 : (fmul name_score (3 # 4) <= 30)%Q) by (apply fl_le; [reflexivity | lra]).
  assert (H2 : (fmul rarity_score (1 # 4) <= 25)%Q) by (apply fl_le; [reflexivity | lra]).
  assert (H3 : (fadd (fmul name_score (3 # 4)) (fmul rarity_score (1 # 4)) <= 55)%Q)
    by (apply fl_le; [reflexivity | lra]).
  assert (H4 : (fmul (fadd (fmul name_score (3 # 4)) (fmul rarity_score (1 # 4))) (1 # 2)
                <= 55 # 2)%Q) by (apply fl_le; [reflexivity | lra]).
  lra.
Qed.

(** X3. The minimum-name-score guard of the first pass: every card it
    keeps has a name score of at least 40 when a rarity was spoken, and of
    at least 50 when none was; a strong rarity match never rescues a weak
    name match. *)
Theorem kept_cards_name_score (set_cards : list card) (card_name : string)
        (rarity : option string) (m : card_match) :
  In m (first_pass fuzz_ratio fuzz_token_set_ratio set_cards card_name rarity) ->
  exists n,
    name_score_of fuzz_ratio fuzz_token_set_ratio card_name (m_name m) = Ok n /\
    (truthy rarity = true -> (40 <= n)%Q) /\
    (truthy rarity = false -> (50 <= n)%Q).
Proof.
  intros Hin.
  destruct (first_pass_ok fuzz_ratio fuzz_token_set_ratio card_name rarity set_cards)
    as [Hs _ _].
  destruct (Hs m Hin) as (_ & _ & (n & Hn & Hc) & H50).
  exists n. split; [exact Hn|].
  rewrite Hc in H50. unfold card_total in H50. split; intros Ht.
  - apply Qnot_lt_le. intros Hlt.
    assert (Hr : ((if truthy rarity
                   then calculate_rarity_confidence fuzz_ratio (get rarity "")
                                                    (m_card_data m)
                   else 0) <= 100)%Q).
    { rewrite Ht. unfold calculate_rarity_confidence.
      apply best_rarity_from_range. lra. }
    pose proof (weak_name_below_threshold rarity _ _ Ht Hlt Hr) as Hb. lra.
  - now rewrite blend_silent in H50.
Qed.

End ScoreRanges.

(** The name score does raise: nothing is left of "???" after cleaning,
    and the similarity of two empty texts is 100. *)
Lemma name_confidence_raises :
  calculate_name_confidence FuzzRef.ratio FuzzRef.token_set_ratio "" "???"
                            (get_card_name_variants "")
  = Raise (UnboundLocalError "length_penalty").
Proof. vm_compute. reflexivity. Qed.

(** X1, X2 and X3 witnessed with the reference similarity functions. *)
Lemma name_confidence_range_witness :
  exists v,
    calculate_name_confidence FuzzRef.ratio FuzzRef.token_set_ratio
      "dark magician" "Dark Paladin" (get_card_name_variants "dark magician") = Ok v /\
    (0 <= v <= 100)%Q.
Proof.
  eexists. split; [vm_compute; reflexivity|].
  apply (proj1 (name_confidence_range FuzzRef.ratio FuzzRef.token_set_ratio
                  FuzzRef_ratio_range FuzzRef_token_set_ratio_range
                  "dark magician" "Dark Paladin" (get_card_name_variants "dark magician"))).
  vm_compute. reflexivity.
Defined.

Lemma rarity_confidence_range_witness :
  (0 <= calculate_rarity_confidence FuzzRef.ratio "ghost rare" blue_eyes <= 100)%Q.
Proof.
  apply (rarity_confidence_range FuzzRef.ratio FuzzRef_ratio_range "ghost rare" blue_eyes).
Defined.

Lemma kept_cards_name_score_witness :
  exists n,
    name_score_of FuzzRef.ratio FuzzRef.token_set_ratio
                  "dark magician" "Dark Paladin" = Ok n /\
    (50 <= n)%Q.
Proof.
  destruct (kept_cards_name_score FuzzRef.ratio FuzzRef.token_set_ratio
              FuzzRef_ratio_range dark_catalog "dark magician" None
              {| m_card_data := dark_paladin; m_confidence := 64; m_name := "Dark Paladin";
                 m_rarity := "Ultra Rare" |}) as (n & Hn & _ & H).
  - vm_compute. right. left. reflexivity.
  - exists n. split; [exact Hn | now apply H].
Defined.

(** ** The rarity of a printing scores 100 against itself *)

Lemma best_rarity_from_exact (fuzz_ratio : string -> string -> Z)
      (input_rarity_clean : string) (sets : list card_set) :
  (exists cs, In cs sets /\
     String.eqb (PyStr.strip (PyStr.lower (get (set_rarity cs) ""))) input_rarity_clean
     = true) ->
  forall best, best_rarity_from fuzz_ratio best input_rarity_clean sets = 100%Q.
Proof.
  induction sets as [|x r IH]; intros [cs [Hin He]] best; [destruct Hin|].
  cbn [best_rarity_from].
  destruct (String.eqb (PyStr.strip (PyStr.lower (get (set_rarity x) "")))
                       input_rarity_clean) eqn:Ex; [reflexivity|].
  destruct Hin as [->|Hin]; [congruence|].
  assert (Hr : exists cs, In cs r /\
             String.eqb (PyStr.strip (PyStr.lower (get (set_rarity cs) "")))
                        input_rarity_clean = true) by eauto.
  destruct (_ || _)%bool; [now apply IH|].
  destruct (70 <=? _)%Z; now apply IH.
Qed.

(** X4. When one printing of the card has the spoken rarity (after
    lowercasing and trimming), [calculate_rarity_confidence] is exactly 100,
    whatever the card's other printings are and wherever that printing
    stands in the list. *)
Theorem matching_printing_scores_100 (fuzz_ratio : string -> string -> Z)
        (input_rarity : string) (c : card) (cs : card_set) :
  In cs (get (card_sets c) []) ->
  rarity_equal input_rarity cs = true ->
  calculate_rarity_confidence fuzz_ratio input_rarity c = 100%Q.
Proof.
  intros Hin He. unfold calculate_rarity_confidence.
  apply best_rarity_from_exact. exists cs. split; [exact Hin | exact He].
Qed.

Lemma matching_printing_scores_100_witness :
  calculate_rarity_confidence FuzzRef.ratio "  GHOST rare " blue_eyes = 100%Q.
Proof.
  apply (matching_printing_scores_100 FuzzRef.ratio "  GHOST rare " blue_eyes ghost_set).
  - right. left. reflexivity.
  - reflexivity.
Defined.

(** ** Lengths along the ranking *)

Lemma insert_variant_length (x : variant) (l : list variant) :
  List.length (insert_variant x l) = S (List.length l).
Proof.
  induction l as [|y r IH]; cbn; [reflexivity|].
  destruct (Qle_bool _ _); cbn; [reflexivity | now rewrite IH].
Qed.

Lemma sort_by_confidence_length (l : list variant) :
  List.length (sort_by_confidence l) = List.length l.
Proof.
  induction l as [|x r IH]; [reflexivity|].
  change (sort_by_confidence (x :: r)) with (insert_variant x (sort_by_confidence r)).
  now rewrite insert_variant_length, IH.
Qed.

Lemma ensure_unique_from_length (used : list Q) (l : list variant) :
  List.length (ensure_unique_from used l) = List.length l.
Proof.
  revert used. induction l as [|v r IH]; intros used; cbn; [reflexivity|].
  now rewrite IH.
Qed.

Lemma rank_variants_length (exact_name_matches all_variants : list variant) :
  List.length (rank_variants exact_name_matches all_variants)
  = Nat.min 8 (List.length (exact_name_matches ++ all_variants)).
Proof.
  unfold rank_variants, ensure_unique_confidence_scores.
  now rewrite length_firstn, ensure_unique_from_length, sort_by_confidence_length.
Qed.

(** Every ranked variant is a candidate, its confidence apart. *)
Lemma rank_variants_In (exact_name_matches all_variants : list variant) (v : variant) :
  In v (rank_variants exact_name_matches all_variants) ->
  exists s, In s (exact_name_matches ++ all_variants)%list /\
            v = set_confidence s (v_confidence v).
Proof.
  intros Hin. apply In_nth_error in Hin. destruct Hin as [i Hi].
  unfold rank_variants in Hi. apply nth_error_firstn_some in Hi.
  destruct (same_rows_nth _ _ _ _ (ensure_unique_same_rows _) Hi) as (s & Hs & E).
  exists s. split; [|exact E].
  apply sort_by_confidence_In. eapply nth_error_In; eassumption.
Qed.

(** ** The expansion: where the candidates come from *)

Section Expansion.

Variable fuzz_ratio : string -> string -> Z.
Variable fuzz_token_set_ratio : string -> string -> Z.

(** An invariant of the loop over the printings: what holds before and
    survives every variant the loop adds holds of what the loop returns. *)
Lemma expand_sets_inv (P : list variant * list variant -> Prop)
      (card_name : string) (rarity : option string)
      (p : bool) (c : card) (nm : string) (sets : list card_set) :
  (forall ex al cs n,
     In cs sets ->
     name_score_of fuzz_ratio fuzz_token_set_ratio card_name nm = Ok n ->
     existsb (fun v => String.eqb (v_variant_key v) (printing_key nm cs)) al = false ->
     P (ex, al) ->
     P (if p then ((ex ++ [variant_of fuzz_ratio rarity p c nm n cs])%list, al)
        else (ex, (al ++ [variant_of fuzz_ratio rarity p c nm n cs])%list))) ->
  forall acc acc',
    P acc ->
    expand_sets fuzz_ratio fuzz_token_set_ratio card_name rarity p c nm sets acc = Ok acc' ->
    P acc'.
Proof.
  induction sets as [|cs rest IH]; intros Hstep acc acc' Hacc H.
  - cbn in H. now injection H as <-.
  - assert (Hrest : forall ex al cs' n,
              In cs' rest ->
              name_score_of fuzz_ratio fuzz_token_set_ratio card_name nm = Ok n ->
              existsb (fun v => String.eqb (v_variant_key v) (printing_key nm cs')) al
              = false ->
              P (ex, al) ->
              P (if p then ((ex ++ [variant_of fuzz_ratio rarity p c nm n cs'])%list, al)
                 else (ex, (al ++ [variant_of fuzz_ratio rarity p c nm n cs'])%list)))
      by (intros ex al cs' n Hin; apply Hstep; now right).
    destruct acc as [ex al]. cbn [expand_sets] in H.
    destruct (existsb _ al) eqn:E; [exact (IH Hrest _ _ Hacc H)|].
    destruct (calculate_name_confidence _ _ _ _ _) as [n|e] eqn:Hn; [|discriminate].
    apply (IH Hrest) in H; [exact H|].
    exact (Hstep ex al cs n (or_introl eq_refl) Hn E Hacc).
Qed.

Lemma expand_sets_cards (cat : list card) (card_name : string) (rarity : option string)
      (p : bool) (c : card) (nm : string) (sets : list card_set) :
  In c cat ->
  forall acc acc',
    Forall (fun v => In (v_card_data v) cat) (fst acc ++ snd acc)%list ->
    expand_sets fuzz_ratio fuzz_token_set_ratio card_name rarity p c nm sets acc = Ok acc' ->
    Forall (fun v => In (v_card_data v) cat) (fst acc' ++ snd acc')%list.
Proof.
  intros Hc.
  apply (expand_sets_inv
           (fun acc => Forall (fun v => In (v_card_data v) cat) (fst acc ++ snd acc)%list)).
  intros ex al cs n _ _ _ H. cbn [fst snd] in H.
  apply Forall_app in H. destruct H as [Hex Hal].
  destruct p; cbn [fst snd]; repeat (apply Forall_app; split); auto;
    (constructor; [exact Hc | constructor]).
Qed.

Lemma expand_cards_cards (cat : list card) (card_name : string) (rarity : option string)
      (p : bool) (to_find : string) (set_cards : list card) :
  incl set_cards cat ->
  forall acc acc',
    Forall (fun v => In (v_card_data v) cat) (fst acc ++ snd acc)%list ->
    expand_cards fuzz_ratio fuzz_token_set_ratio card_name rarity p to_find set_cards acc
    = Ok acc' ->
    Forall (fun v => In (v_card_data v) cat) (fst acc' ++ snd acc')%list.
Proof.
  induction set_cards as [|c rest IH]; intros Hincl acc acc' Hacc H.
  - cbn in H. now injection H as <-.
  - cbn [expand_cards] in H. destruct (name c) as [nm|] eqn:Hn; [|discriminate].
    destruct (String.eqb nm to_find).
    + destruct (expand_sets _ _ _ _ _ _ _ _ _) as [acc1|e] eqn:Hs; [|discriminate].
      apply IH in H; [exact H | intros x Hx; apply Hincl; now right |].
      eapply expand_sets_cards; [apply Hincl; now left | exact Hacc | exact Hs].
    + apply IH in H; [exact H | intros x Hx; apply Hincl; now right | exact Hacc].
Qed.

Lemma expand_matches_cards (set_cards : list card) (card_name : string)
      (rarity : option string) (card_matches : list card_match) :
  forall acc acc',
    Forall (fun v => In (v_card_data v) set_cards) (fst acc ++ snd acc)%list ->
    expand_matches fuzz_ratio fuzz_token_set_ratio set_cards card_name rarity
                   card_matches acc = Ok acc' ->
    Forall (fun v => In (v_card_data v) set_cards) (fst acc' ++ snd acc')%list.
Proof.
  induction card_matches as [|m rest IH]; intros acc acc' Hacc H.
  - cbn in H. now injection H as <-.
  - cbn [expand_matches] in H.
    destruct (expand_cards _ _ _ _ _ _ _ _) as [acc1|e] eqn:Hc; [|discriminate].
    apply IH in H; [exact H|].
    eapply expand_cards_cards; [apply incl_refl | exact Hacc | exact Hc].
Qed.

(** Every candidate of the expansion is a printing of a catalog card. *)
Lemma expand_matches_from_catalog (set_cards : list card) (card_name : string)
      (rarity : option string) (card_matches : list card_match)
      (exact_name_matches all_variants : list variant) :
  expand_matches fuzz_ratio fuzz_token_set_ratio set_cards card_name rarity
                 card_matches ([], []) = Ok (exact_name_matches, all_variants) ->
  Forall (from_catalog set_cards) (exact_name_matches ++ all_variants)%list.
Proof.
  intros He.
  pose proof (expand_matches_cards _ _ _ _ ([], []) _ (Forall_nil _) He) as Hc.
  apply expand_matches_expanded in He; [|split; constructor].
  destruct He as [Hex Hal]. cbn [fst snd] in *.
  rewrite Forall_forall in Hc. apply Forall_forall. intros v Hv.
  assert (Hx : exists b, expanded fuzz_ratio fuzz_token_set_ratio card_name rarity b v).
  { apply in_app_or in Hv. destruct Hv as [Hv|Hv].
    - exists true. rewrite Forall_forall in Hex. now apply Hex.
    - exists false. rewrite Forall_forall in Hal. now apply Hal. }
  destruct Hx as [b (cs & ns & Hcs & Hn & Hr & Hs & _)].
  split; [now apply Hc|]. split; [exact Hn|]. exists cs. auto.
Qed.

(** *** Nothing is left out *)

Lemma has_key_more (acc : list variant * list variant) (v : variant) (p : bool) (k : string) :
  has_key acc k ->
  has_key (if p then ((fst acc ++ [v])%list, snd acc)
           else (fst acc, (snd acc ++ [v])%list)) k.
Proof.
  intros (w & Hw & Hk). exists w. split; [|exact Hk].
  apply in_app_or in Hw.
  destruct p; cbn [fst snd]; apply in_or_app; destruct Hw as [Hw|Hw]; auto.
  - left. apply in_or_app. now left.
  - right. apply in_or_app. now left.
Qed.

Lemma expand_sets_keeps (card_name : string) (rarity : option string)
      (p : bool) (c : card) (nm : string) (sets : list card_set) (k : string) :
  forall acc acc',
    has_key acc k ->
    expand_sets fuzz_ratio fuzz_token_set_ratio card_name rarity p c nm sets acc = Ok acc' ->
    has_key acc' k.
Proof.
  apply (expand_sets_inv (fun acc => has_key acc k)).
  intros ex al cs n _ _ _ H. exact (has_key_more (ex, al) _ p k H).
Qed.

Lemma expand_sets_covers (card_name : string) (rarity : option string)
      (p : bool) (c : card) (nm : string) (sets : list card_set) (cs : card_set) :
  In cs sets ->
  forall acc acc',
    expand_sets fuzz_ratio fuzz_token_set_ratio card_name rarity p c nm sets acc = Ok acc' ->
    has_key acc' (printing_key nm cs).
Proof.
  induction sets as [|x rest IH]; intros Hin [ex al] acc' H; [destruct Hin|].
  cbn [expand_sets] in H.
  destruct Hin as [->|Hin].
  - destruct (existsb _ al) eqn:E.
    + eapply expand_sets_keeps; [|exact H].
      apply existsb_exists in E. destruct E as (w & Hw & Hk).
      apply String.eqb_eq in Hk. exists w. split; [|exact Hk].
      cbn [fst snd]. apply in_or_app. now right.
    + destruct (calculate_name_confidence _ _ _ _ _) as [n|e]; [|discriminate].
      eapply expand_sets_keeps; [|exact H].
      exists (variant_of fuzz_ratio rarity p c nm n cs).
      split; [|reflexivity].
      destruct p; cbn [fst snd]; apply in_or_app.
      * left. apply in_or_app. right. now left.
      * right. apply in_or_app. right. now left.
  - destruct (existsb _ al); [now apply (IH Hin (ex, al))|].
    destruct (calculate_name_confidence _ _ _ _ _) as [n|e]; [|discriminate].
    exact (IH Hin _ _ H).
Qed.

Lemma expand_cards_keeps (card_name : string) (rarity : option string)
      (p : bool) (to_find : string) (set_cards : list card) (k : string) :
  forall acc acc',
    expand_cards fuzz_ratio fuzz_token_set_ratio card_name rarity p to_find set_cards acc
    = Ok acc' ->
    has_key acc k -> has_key acc' k.
Proof.
  induction set_cards as [|c rest IH]; intros acc acc' H Hk.
  - cbn in H. now injection H as <-.
  - cbn [expand_cards] in H. destruct (name c) as [nm|]; [|discriminate].
    destruct (String.eqb nm to_find); [|exact (IH _ _ H Hk)].
    destruct (expand_sets _ _ _ _ _ _ _ _ _) as [acc1|e] eqn:Hs; [|discriminate].
    apply IH in H; [exact H|].
    exact (expand_sets_keeps _ _ _ _ _ _ _ _ _ Hk Hs).
Qed.

Lemma expand_cards_covers (card_name : string) (rarity : option string)
      (p : bool) (to_find : string) (set_cards : list card) (c : card) (cs : card_set) :
  In c set_cards -> name c = Some to_find -> In cs (get (card_sets c) []) ->
  forall acc acc',
    expand_cards fuzz_ratio fuzz_token_set_ratio card_name rarity p to_find set_cards acc
    = Ok acc' ->
    has_key acc' (printing_key to_find cs).
Proof.
  induction set_cards as [|x rest IH]; intros Hin Hn Hcs acc acc' H; [destruct Hin|].
  cbn [expand_cards] in H. destruct (name x) as [nm|] eqn:Hx; [|discriminate].
  destruct Hin as [->|Hin].
  - rewrite Hn in Hx. injection Hx as <-. rewrite String.eqb_refl in H.
    destruct (expand_sets _ _ _ _ _ _ _ _ _) as [acc1|e] eqn:Hs; [|discriminate].
    eapply expand_cards_keeps; [exact H|].
    exact (expand_sets_covers _ _ _ _ _ _ _ Hcs _ _ Hs).
  - destruct (String.eqb nm to_find); [|exact (IH Hin Hn Hcs _ _ H)].
    destruct (expand_sets _ _ _ _ _ _ _ _ _) as [acc1|e]; [|discriminate].
    exact (IH Hin Hn Hcs _ _ H).
Qed.

Lemma expand_matches_keeps (set_cards : list card) (card_name : string)
      (rarity : option string) (card_matches : list card_match) (k : string) :
  forall acc acc',
    expand_matches fuzz_ratio fuzz_token_set_ratio set_cards card_name rarity
                   card_matches acc = Ok acc' ->
    has_key acc k -> has_key acc' k.
Proof.
  induction card_matches as [|m rest IH]; intros acc acc' H Hk.
  - cbn in H. now injection H as <-.
  - cbn [expand_matches] in H.
    destruct (expand_cards _ _ _ _ _ _ _ _) as [acc1|e] eqn:Hc; [|discriminate].
    apply IH in H; [exact H|]. eapply expand_cards_keeps; eassumption.
Qed.

(** X5. The expansion leaves no printing out: for every row of the first
    pass, every catalog entry that carries the row's name and every entry of
    that card's ['card_sets'], some candidate is filed under the key
    name_rarity_code of that printing. *)
Theorem every_printing_expanded (set_cards : list card) (card_name : string)
        (rarity : option string) (card_matches : list card_match)
        (acc acc' : list variant * list variant)
        (m : card_match) (c : card) (cs : card_set) :
  expand_matches fuzz_ratio fuzz_token_set_ratio set_cards card_name rarity
                 card_matches acc = Ok acc' ->
  In m card_matches ->
  In c set_cards -> name c = Some (m_name m) -> In cs (get (card_sets c) []) ->
  has_key acc' (printing_key (m_name m) cs).
Proof.
  revert acc. induction card_matches as [|x rest IH]; intros acc H Hm Hc Hn Hcs;
    [destruct Hm|].
  cbn [expand_matches] in H.
  destruct (expand_cards _ _ _ _ _ _ _ _) as [acc1|e] eqn:Hx; [|discriminate].
  destruct Hm as [->|Hm].
  - eapply expand_matches_keeps; [exact H|].
    eapply expand_cards_covers; eassumption.
  - eapply IH; eassumption.
Qed.

(** *** The filter on repeated printings *)

Lemma expand_sets_keys (card_name : string) (rarity : option string)
      (p : bool) (c : card) (nm : string) (sets : list card_set) :
  forall acc acc',
    NoDup (map v_variant_key (snd acc)) ->
    expand_sets fuzz_ratio fuzz_token_set_ratio card_name rarity p c nm sets acc = Ok acc' ->
    NoDup (map v_variant_key (snd acc')).
Proof.
  apply (expand_sets_inv (fun acc => NoDup (map v_variant_key (snd acc)))).
  intros ex al cs n _ _ E H.
  destruct p; cbn [fst snd] in *; [exact H|].
  rewrite map_app. cbn [map]. apply NoDup_snoc; [exact H|].
  intros Hin. apply in_map_iff in Hin. destruct Hin as (w & Hk & Hw).
  assert (Ht : existsb (fun v => String.eqb (v_variant_key v) (printing_key nm cs)) al
               = true).
  { apply existsb_exists. exists w. split; [exact Hw|]. now apply String.eqb_eq. }
  congruence.
Qed.

Lemma expand_cards_keys (card_name : string) (rarity : option string)
      (p : bool) (to_find : string) (set_cards : list card) :
  forall acc acc',
    expand_cards fuzz_ratio fuzz_token_set_ratio card_name rarity p to_find set_cards acc
    = Ok acc' ->
    NoDup (map v_variant_key (snd acc)) -> NoDup (map v_variant_key (snd acc')).
Proof.
  induction set_cards as [|c rest IH]; intros acc acc' H Hk.
  - cbn in H. now injection H as <-.
  - cbn [expand_cards] in H. destruct (name c) as [nm|]; [|discriminate].
    destruct (String.eqb nm to_find); [|exact (IH _ _ H Hk)].
    destruct (expand_sets _ _ _ _ _ _ _ _ _) as [acc1|e] eqn:Hs; [|discriminate].
    apply IH in H; [exact H|].
    exact (expand_sets_keys _ _ _ _ _ _ _ _ Hk Hs).
Qed.

(** X6. Among the candidates that are not priority matches no printing
    key occurs twice: the filter on [variant_key] holds for [all_variants]. *)
Theorem other_variants_distinct_keys (set_cards : list card) (card_name : string)
        (rarity : option string) (card_matches : list card_match)
        (acc acc' : list variant * list variant) :
  expand_matches fuzz_ratio fuzz_token_set_ratio set_cards card_name rarity
                 card_matches acc = Ok acc' ->
  NoDup (map v_variant_key (snd acc)) ->
  NoDup (map v_variant_key (snd acc')).
Proof.
  revert acc. induction card_matches as [|m rest IH]; intros acc H Hk.
  - cbn in H. now injection H as <-.
  - cbn [expand_matches] in H.
    destruct (expand_cards _ _ _ _ _ _ _ _) as [acc1|e] eqn:Hc; [|discriminate].
    apply IH in H; [exact H|]. eapply expand_cards_keys; eassumption.
Qed.

(** X7. The same filter never looks at the priority list: a priority card
    gets one candidate for every entry of its ['card_sets'] whose key is not
    among the other variants, an entry that repeats an earlier one
    included, and the other variants stay as they were. The name score is
    computed for each such entry: should it raise, the loop raises at the
    first of them. *)
Theorem priority_printings_not_filtered (card_name : string) (rarity : option string)
        (c : card) (nm : string) (sets : list card_set)
        (exact_name_matches all_variants : list variant) :
  let fresh cs :=
    negb (existsb (fun v => String.eqb (v_variant_key v) (printing_key nm cs))
                  all_variants) in
  expand_sets fuzz_ratio fuzz_token_set_ratio card_name rarity true c nm sets
              (exact_name_matches, all_variants)
  = match name_score_of fuzz_ratio fuzz_token_set_ratio card_name nm with
    | Ok name_score =>
        Ok ((exact_name_matches
               ++ map (variant_of fuzz_ratio rarity true c nm name_score)
                      (filter fresh sets))%list,
            all_variants)
    | Raise e =>
        match filter fresh sets with
        | [] => Ok (exact_name_matches, all_variants)
        | _ :: _ => Raise e
        end
    end.
Proof.
  cbn zeta. unfold name_score_of. revert exact_name_matches.
  induction sets as [|cs rest IH]; intros ex.
  - cbn [expand_sets filter map]. rewrite app_nil_r.
    now destruct (calculate_name_confidence _ _ _ _ _).
  - cbn [expand_sets filter]. unfold printing_key at 1 3.
    destruct (existsb _ all_variants); cbn [negb].
    + apply IH.
    + destruct (calculate_name_confidence _ _ _ _ _) as [n|e] eqn:Hn; [|reflexivity].
      rewrite IH. cbn [map]. now rewrite <- app_assoc.
Qed.

End Expansion.

(** ** The outcomes of [find_and_present_card_options] *)

Section Presentation.

Variable fuzz_ratio : string -> string -> Z.
Variable fuzz_token_set_ratio : string -> string -> Z.

Lemma rank_variants_nonempty (exact_name_matches all_variants : list variant) :
  (exact_name_matches ++ all_variants)%list <> [] ->
  rank_variants exact_name_matches all_variants <> [].
Proof.
  intros Hne Hr. apply (f_equal (@List.length variant)) in Hr.
  rewrite rank_variants_length in Hr.
  destruct (exact_name_matches ++ all_variants)%list; [congruence|].
  cbn [List.length] in Hr. cbn in Hr. lia.
Qed.

(** The five ways the search ends. *)
Lemma find_and_present_cases (a : app) (card_name : string)
      (art_variant rarity : option string) :
  let r := find_and_present_card_options fuzz_ratio fuzz_token_set_ratio a card_name
                                         art_variant rarity in
  let rows := first_pass fuzz_ratio fuzz_token_set_ratio (set_cards a) card_name rarity in
  let expansion := expand_matches fuzz_ratio fuzz_token_set_ratio (set_cards a) card_name
                                  rarity rows ([], []) in
  (set_cards a = [] /\ r = Ok (a, [])) \/
  (set_cards a <> [] /\ rows = [] /\ r = Ok (a, [SetStatus (NoMatchesFound card_name)])) \/
  (set_cards a <> [] /\ rows <> [] /\ exists e, expansion = Raise e /\ r = Raise e) \/
  (set_cards a <> [] /\ rows <> [] /\ expansion = Ok ([], []) /\
   r = Ok (a, [SetStatus (NoVariantsFound card_name)])) \/
  (set_cards a <> [] /\ rows <> [] /\
   exists exact_name_matches all_variants best_match rest,
     expansion = Ok (exact_name_matches, all_variants) /\
     rank_variants exact_name_matches all_variants = best_match :: rest /\
     let confirm :=
       auto_confirm_var a
       && Qle_bool (Zq (get (auto_confirm_threshold_var a) 85%Z)) (v_confidence best_match) in
     (confirm = true ->
      r = Ok (fst (add_card_to_session (set_locked a true) (v_card_data best_match)
                                       art_variant (Some (v_rarity best_match))),
              (snd (add_card_to_session (set_locked a true) (v_card_data best_match)
                                        art_variant (Some (v_rarity best_match)))
               ++ [SetStatus (AutoConfirmed (v_name best_match) (v_rarity best_match)
                                            (v_confidence best_match))])%list)) /\
     (confirm = false ->
      r = Ok (show_voice_card_options a (best_match :: rest) card_name art_variant rarity))).
Proof.
  cbn zeta. unfold find_and_present_card_options.
  destruct (set_cards a) as [|c0 cs] eqn:Hsc; [left; auto|].
  rewrite <- Hsc.
  assert (Hne : set_cards a <> []) by (rewrite Hsc; discriminate).
  clear Hsc. right.
  destruct (first_pass fuzz_ratio fuzz_token_set_ratio (set_cards a) card_name rarity)
    as [|m ms] eqn:Hfp; [left; auto|].
  rewrite <- Hfp.
  assert (Hrows : first_pass fuzz_ratio fuzz_token_set_ratio (set_cards a) card_name rarity
                  <> []) by (rewrite Hfp; discriminate).
  clear Hfp. right.
  destruct (expand_matches _ _ _ _ _ _ _) as [[ex al]|e] eqn:He;
    [|left; split; [exact Hne | split; [exact Hrows | exists e; auto]]].
  right.
  destruct (ex ++ al)%list as [|x xs] eqn:Hxs.
  { left. apply app_eq_nil in Hxs. destruct Hxs as [-> ->]. auto. }
  right. split; [exact Hne|]. split; [exact Hrows|].
  assert (Hr : rank_variants ex al <> []).
  { apply rank_variants_nonempty. rewrite Hxs. discriminate. }
  destruct (rank_variants ex al) as [|best rest] eqn:Hrk; [congruence|].
  exists ex, al, best, rest. split; [reflexivity|]. split; [exact Hrk|].
  destruct (auto_confirm_var a && _)%bool.
  - split; [intros _ | discriminate].
    now destruct (add_card_to_session _ _ _ _) as [a1 e1].
  - split; [discriminate | intros _; reflexivity].
Qed.

(** The expansion recomputes the name score of a matched name with the
    arguments of the first pass: where the first pass got a score, the
    expansion gets it too, and with every entry named nothing raises. *)
Lemma expand_cards_total (card_name : string) (rarity : option string) (p : bool)
      (to_find : string) (name_score : Q) (set_cards : list card) :
  (forall c, In c set_cards -> name c <> None) ->
  name_score_of fuzz_ratio fuzz_token_set_ratio card_name to_find = Ok name_score ->
  forall acc, exists acc',
    expand_cards fuzz_ratio fuzz_token_set_ratio card_name rarity p to_find set_cards acc
    = Ok acc'.
Proof.
  intros Hn Hs. induction set_cards as [|c rest IH]; intros acc; [now exists acc|].
  assert (Hrest : forall x, In x rest -> name x <> None)
    by (intros x Hx; apply Hn; now right).
  cbn [expand_cards]. destruct (name c) as [nm|] eqn:Hc.
  - destruct (String.eqb nm to_find) eqn:E; [|now apply IH].
    apply String.eqb_eq in E. subst nm.
    destruct (expand_sets_returns fuzz_ratio fuzz_token_set_ratio card_name rarity p
                c to_find name_score Hs (get (card_sets c) []) acc) as [acc1 H1].
    rewrite H1. now apply IH.
  - exfalso. apply (Hn c); [now left | exact Hc].
Qed.

Lemma expand_matches_total (set_cards : list card) (card_name : string)
      (rarity : option string) (card_matches : list card_match) :
  (forall c, In c set_cards -> name c <> None) ->
  (forall m, In m card_matches ->
     exists n, name_score_of fuzz_ratio fuzz_token_set_ratio card_name (m_name m) = Ok n) ->
  forall acc, exists acc',
    expand_matches fuzz_ratio fuzz_token_set_ratio set_cards card_name rarity
                   card_matches acc = Ok acc'.
Proof.
  intros Hn. induction card_matches as [|m rest IH]; intros Hs acc; [now exists acc|].
  cbn [expand_matches].
  destruct (Hs m (or_introl eq_refl)) as [n Hm].
  destruct (expand_cards_total card_name rarity
              (is_priority fuzz_token_set_ratio card_name (m_name m)) (m_name m) n
              set_cards Hn Hm acc) as [acc1 H1].
  rewrite H1. apply IH. intros x Hx. apply Hs. now right.
Qed.

(** X8. When every entry of the catalog has a name, no utterance makes
    [process_voice_input] raise: whatever the state, the text and the
    similarity functions, it returns a state and a list of events. A name
    score that raises is caught in the first pass, and the expansion only
    recomputes the scores that the first pass obtained. *)
Theorem named_catalog_never_raises (a : app) (voice_text : string) :
  (forall c, In c (set_cards a) -> name c <> None) ->
  exists a' ev,
    process_voice_input fuzz_ratio fuzz_token_set_ratio a voice_text = Ok (a', ev).
Proof.
  intros Hn. unfold process_voice_input.
  destruct (pending_voice_confirmation a).
  { destruct (handle_voice_selection a _) as [a' ev]. now exists a', ev. }
  destruct (if auto_art_rarity_enabled a then _ else _) as [art_variant name1].
  destruct (if auto_rarity_enabled a then _ else _) as [rarity name2].
  set (card_name := PyStr.strip _).
  pose proof (find_and_present_cases a card_name art_variant rarity) as H.
  cbn zeta in H.
  destruct (expand_matches_total (set_cards a) card_name rarity
              (first_pass fuzz_ratio fuzz_token_set_ratio (set_cards a) card_name rarity)
              Hn
              (first_pass_scored fuzz_ratio fuzz_token_set_ratio card_name rarity
                                 (set_cards a))
              ([], [])) as [acc He].
  destruct H as [[_ H]|[(_ & _ & H)|[(_ & _ & e & H & _)|[(_ & _ & _ & H)|
                 (_ & _ & ex & al & best & rest & _ & _ & Hy & Hno)]]]];
    try (rewrite H; eauto; fail).
  - congruence.
  - destruct (auto_confirm_var a && _)%bool.
    + rewrite (Hy eq_refl). eauto.
    + rewrite (Hno eq_refl).
      destruct (show_voice_card_options _ _ _ _ _) as [a' ev]. eauto.
Qed.

(** X9. "No matches found" is the outcome exactly when the catalog is not
    empty and every card that is scored (it has a name and its name score
    returns) has a first-pass total, computed in double arithmetic, below
    50; the state is then left as it was. *)
Theorem no_match_outcome (a : app) (card_name : string)
        (art_variant rarity : option string) :
  find_and_present_card_options fuzz_ratio fuzz_token_set_ratio a card_name
                                art_variant rarity
  = Ok (a, [SetStatus (NoMatchesFound card_name)])
  <->
  set_cards a <> [] /\
  forall c nm name_score,
    In c (set_cards a) -> name c = Some nm ->
    name_score_of fuzz_ratio fuzz_token_set_ratio card_name nm = Ok name_score ->
    (card_total fuzz_ratio rarity c name_score < 50)%Q.
Proof.
  pose proof (find_and_present_cases a card_name art_variant rarity) as H.
  cbn zeta in H.
  destruct (first_pass_ok fuzz_ratio fuzz_token_set_ratio card_name rarity (set_cards a))
    as [Hs _ Hb].
  split.
  - intros E. rewrite E in H.
    destruct H as [[_ H]|[(Hne & Hr & _)|[(_ & _ & e & _ & H)|[(_ & _ & _ & H)|
                   (_ & _ & ex & al & best & rest & _ & _ & Hy & Hno)]]]];
      try discriminate.
    + split; [exact Hne|]. intros c nm n Hc Hnm Hsc. apply Qnot_le_lt. intros Hle.
      destruct (Hb c nm n Hc Hnm Hsc Hle) as (m & Hm & _). rewrite Hr in Hm. destruct Hm.
    + exfalso. destruct (auto_confirm_var a && _)%bool.
      * specialize (Hy eq_refl).
        assert (Hev := f_equal (fun r : result (app * list event) =>
                                  match r with
                                  | Ok (_, l) => last l (SetStatus SelectionCancelled)
                                  | Raise _ => SetStatus SelectionCancelled
                                  end) Hy).
        cbn beta iota in Hev. rewrite last_last in Hev. discriminate.
      * specialize (Hno eq_refl). unfold show_voice_card_options in Hno. discriminate.
  - intros [Hne Hall].
    destruct H as [[H _]|[(_ & _ & H)|[(_ & Hr & _)|[(_ & Hr & _)|(_ & Hr & _)]]]];
      [contradiction | exact H | exfalso..].
    all: destruct (first_pass _ _ _ _ _) as [|m ms]; [congruence|];
      destruct (Hs m (or_introl eq_refl)) as (Hc & Hnm & (n & Hsc & Hconf) & H50);
      specialize (Hall _ _ _ Hc Hnm Hsc); rewrite <- Hconf in Hall;
      apply (Qlt_not_le _ _ Hall H50).
Qed.

(** X10. What is put before the user: between one and eight options, each
    a printing of a catalog card (card of the catalog, rarity label and set
    code of one entry of its ['card_sets']), held as the pending options
    with the pending flag set and the spoken hints stored. *)
Theorem offered_options_are_printings (a a' : app) (ev : list event) (card_name : string)
        (art_variant rarity : option string)
        (options : list variant) (input : string) (art rar : option string) :
  find_and_present_card_options fuzz_ratio fuzz_token_set_ratio a card_name
                                art_variant rarity = Ok (a', ev) ->
  In (ShowDialog options input art rar) ev ->
  1 <= List.length options <= 8 /\
  Forall (from_catalog (set_cards a)) options /\
  pending_card_options a' = options /\
  awaiting_answer a' /\
  pending_art_variant a' = art_variant /\
  cards a' = cards a.
Proof.
  intros E Hin.
  pose proof (find_and_present_cases a card_name art_variant rarity) as H.
  cbn zeta in H. rewrite E in H.
  destruct H as [[_ H]|[(_ & _ & H)|[(_ & _ & e & _ & H)|[(_ & _ & _ & H)|
                 (_ & _ & ex & al & best & rest & He & Hr & Hy & Hno)]]]];
    try discriminate;
    try (injection H as -> ->;
         repeat (destruct Hin as [Hin|Hin]; [discriminate|]); destruct Hin).
  destruct (auto_confirm_var a && _)%bool.
  - exfalso. specialize (Hy eq_refl). injection Hy as _ ->.
    apply in_app_or in Hin. destruct Hin as [Hin|[Hin|[]]]; [|discriminate].
    unfold add_card_to_session in Hin. cbn zeta in Hin.
    destruct (negb _) in Hin; cbn [snd] in Hin;
      [destruct Hin | destruct Hin as [Hin|[Hin|[]]]; discriminate].
  - specialize (Hno eq_refl). unfold show_voice_card_options in Hno.
    injection Hno as -> ->.
    destruct Hin as [Hin|[Hin|[]]]; [|discriminate].
    injection Hin as <- _ _ _.
    assert (Hlen : 1 <= List.length (best :: rest) <= 8).
    { split; [cbn [List.length]; lia|].
      rewrite <- Hr, rank_variants_length. lia. }
    split; [exact Hlen|]. split.
    + pose proof (expand_matches_from_catalog _ _ _ _ _ _ _ _ He) as Hc.
      rewrite Forall_forall in Hc. apply Forall_forall. intros v Hv.
      rewrite <- Hr in Hv. apply rank_variants_In in Hv.
      destruct Hv as (s & Hs & Ev). specialize (Hc s Hs).
      rewrite Ev. exact Hc.
    + split; [reflexivity|]. split; [|split; reflexivity].
      split; [reflexivity|]. split; [exact Hlen | discriminate].
Qed.

(** X11. The automatic confirmation: the session grows only when
    auto-confirm is switched on and the best option's displayed confidence
    reaches the threshold (85 when none is set); it then grows by exactly
    that option, which is a printing of a catalog card, and the pending
    selection (none, outside of one) is left as it was. *)
Theorem auto_confirm_decision (a a' : app) (ev : list event) (card_name : string)
        (art_variant rarity : option string) :
  find_and_present_card_options fuzz_ratio fuzz_token_set_ratio a card_name
                                art_variant rarity = Ok (a', ev) ->
  cards a' <> cards a ->
  auto_confirm_var a = true /\
  exists best_match,
    (Zq (get (auto_confirm_threshold_var a) 85%Z) <= v_confidence best_match)%Q /\
    from_catalog (set_cards a) best_match /\
    cards a' = (cards a ++ [committed_entry best_match art_variant])%list /\
    In (SetStatus (AutoConfirmed (v_name best_match) (v_rarity best_match)
                                 (v_confidence best_match))) ev /\
    pending_voice_confirmation a' = pending_voice_confirmation a /\
    pending_card_options a' = pending_card_options a /\
    pending_voice_data a' = pending_voice_data a.
Proof.
  intros E Hch.
  pose proof (find_and_present_cases a card_name art_variant rarity) as H.
  cbn zeta in H. rewrite E in H.
  destruct H as [[_ H]|[(_ & _ & H)|[(_ & _ & e & _ & H)|[(_ & _ & _ & H)|
                 (_ & _ & ex & al & best & rest & He & Hr & Hy & Hno)]]]];
    try discriminate;
    try (injection H as -> ->; congruence).
  destruct (auto_confirm_var a) eqn:Hauto; cbn [andb] in Hy, Hno.
  2:{ specialize (Hno eq_refl). unfold show_voice_card_options in Hno.
      injection Hno as -> _. cbn in Hch. congruence. }
  destruct (Qle_bool _ _) eqn:Hq.
  2:{ specialize (Hno eq_refl). unfold show_voice_card_options in Hno.
      injection Hno as -> _. cbn in Hch. congruence. }
  specialize (Hy eq_refl). injection Hy as -> ->.
  split; [reflexivity|]. exists best.
  split; [now apply Qle_bool_iff|]. split.
  { pose proof (expand_matches_from_catalog _ _ _ _ _ _ _ _ He) as Hc.
    rewrite Forall_forall in Hc.
    assert (Hv : In best (rank_variants ex al)) by (rewrite Hr; now left).
    apply rank_variants_In in Hv. destruct Hv as (s & Hs & Ev).
    rewrite Ev. exact (Hc s Hs). }
  pose proof (add_card_to_session_outcome (set_locked a true) best art_variant) as Ho.
  cbn zeta in Ho. destruct Ho as (H1 & _).
  split; [exact H1|]. split; [apply in_or_app; right; now left|].
  unfold add_card_to_session. cbn zeta.
  destruct (negb _); cbn; auto.
Qed.

(** X12. With auto-confirm switched off the search never touches the
    session: whatever is found, the list of cards stays as it was. *)
Theorem no_auto_confirm_no_commit (a a' : app) (ev : list event) (card_name : string)
        (art_variant rarity : option string) :
  auto_confirm_var a = false ->
  find_and_present_card_options fuzz_ratio fuzz_token_set_ratio a card_name
                                art_variant rarity = Ok (a', ev) ->
  cards a' = cards a /\ forall p, ~ In (FetchPrice p) ev.
Proof.
  intros Hoff E.
  pose proof (find_and_present_cases a card_name art_variant rarity) as H.
  cbn zeta in H. rewrite E in H. rewrite Hoff in H. cbn [andb] in H.
  destruct H as [[_ H]|[(_ & _ & H)|[(_ & _ & e & _ & H)|[(_ & _ & _ & H)|
                 (_ & _ & ex & al & best & rest & He & Hr & _ & Hno)]]]];
    try discriminate;
    try (injection H as -> ->; split; [reflexivity|];
         intros p [Hp|[]]; discriminate).
  - injection H as -> ->. split; [reflexivity | intros p []].
  - specialize (Hno eq_refl). unfold show_voice_card_options in Hno.
    injection Hno as -> ->. split; [reflexivity|].
    intros p [Hp|[Hp|[]]]; discriminate.
Qed.

End Presentation.

(** ** The ranking: which options are offered *)

Lemma insert_variant_perm (x : variant) (l : list variant) :
  Permutation (x :: l) (insert_variant x l).
Proof.
  induction l as [|y r IH]; cbn [insert_variant]; [apply Permutation_refl|].
  destruct (Qle_bool _ _); [apply Permutation_refl|].
  eapply perm_trans; [apply perm_swap|]. now apply perm_skip.
Qed.

Lemma sort_by_confidence_perm (l : list variant) :
  Permutation l (sort_by_confidence l).
Proof.
  induction l as [|x r IH]; [apply Permutation_refl|].
  change (sort_by_confidence (x :: r)) with (insert_variant x (sort_by_confidence r)).
  eapply perm_trans; [apply perm_skip, IH | apply insert_variant_perm].
Qed.

Lemma insert_variant_sorted (x : variant) (l : list variant) :
  sorted_desc l -> sorted_desc (insert_variant x l).
Proof.
  induction l as [|y r IH]; intros Hs.
  - cbn. split; [constructor | exact I].
  - cbn [insert_variant]. destruct Hs as [Hy Hr].
    destruct (Qle_bool (v_confidence y) (v_confidence x)) eqn:E.
    + split; [|split; assumption].
      apply Qle_bool_iff in E. constructor; [exact E|].
      eapply Forall_impl; [|exact Hy]. intros b Hb. cbn beta in Hb.
      eapply Qle_trans; eassumption.
    + split; [|now apply IH].
      apply insert_variant_Forall; [|exact Hy].
      apply Qlt_le_weak, Qnot_le_lt. intros Hle.
      apply Qle_bool_iff in Hle. congruence.
Qed.

Lemma sort_by_confidence_sorted (l : list variant) :
  sorted_desc (sort_by_confidence l).
Proof.
  induction l as [|x r IH]; [exact I|].
  change (sort_by_confidence (x :: r)) with (insert_variant x (sort_by_confidence r)).
  now apply insert_variant_sorted.
Qed.

Lemma sorted_desc_cut (n : nat) (l : list variant) (k d : variant) :
  sorted_desc l -> In k (firstn n l) -> In d (skipn n l) ->
  (v_confidence d <= v_confidence k)%Q.
Proof.
  revert l. induction n as [|n IH]; intros l Hs Hk Hd; [destruct Hk|].
  destruct l as [|a r]; [destruct Hk|].
  cbn [firstn skipn] in Hk, Hd. destruct Hs as [Ha Hr].
  destruct Hk as [<-|Hk].
  - rewrite Forall_forall in Ha. apply Ha.
    rewrite <- (firstn_skipn n r). apply in_or_app. now right.
  - now apply (IH r).
Qed.

Lemma same_rows_firstn (n : nat) (l l' : list variant) :
  same_rows l l' -> same_rows (firstn n l) (firstn n l').
Proof.
  intros H. revert n. induction H as [|x x' r r' Hx Hr IH]; intros [|n]; cbn [firstn];
    try constructor; [exact Hx | apply IH].
Qed.

(** X13. The cut to eight options keeps the eight highest scores: the
    candidates are exactly the options on offer together with those left
    out, the offer lists the first eight in descending order of their score
    (the tie-breaker changes confidences, not rows), and no candidate left
    out scored higher than one on offer. *)
Theorem eight_best_offered (exact_name_matches all_variants : list variant) :
  let by_score := sort_by_confidence (exact_name_matches ++ all_variants) in
  Permutation (exact_name_matches ++ all_variants)%list
              (firstn 8 by_score ++ skipn 8 by_score)%list /\
  sorted_desc by_score /\
  same_rows (firstn 8 by_score) (rank_variants exact_name_matches all_variants) /\
  forall kept dropped,
    In kept (firstn 8 by_score) -> In dropped (skipn 8 by_score) ->
    (v_confidence dropped <= v_confidence kept)%Q.
Proof.
  cbn zeta. split; [|split; [|split]].
  - rewrite firstn_skipn. apply sort_by_confidence_perm.
  - apply sort_by_confidence_sorted.
  - unfold rank_variants. apply same_rows_firstn, ensure_unique_same_rows.
  - intros k d. apply sorted_desc_cut, sort_by_confidence_sorted.
Qed.

(** X14. The option at the head of the offer, the one an automatic
    confirmation takes, is a candidate of the highest score, and the
    confidence it shows (and that is held against the threshold) is that
    score rounded to one decimal. *)
Theorem best_option_highest_score (exact_name_matches all_variants : list variant)
        (best_match : variant) (rest : list variant) :
  rank_variants exact_name_matches all_variants = best_match :: rest ->
  exists top,
    In top (exact_name_matches ++ all_variants)%list /\
    best_match = set_confidence top (round1 (v_confidence top)) /\
    forall v, In v (exact_name_matches ++ all_variants)%list ->
              (v_confidence v <= v_confidence top)%Q.
Proof.
  intros Hr. unfold rank_variants, ensure_unique_confidence_scores in Hr.
  pose proof (sort_by_confidence_perm (exact_name_matches ++ all_variants)) as Hp.
  pose proof (sort_by_confidence_sorted (exact_name_matches ++ all_variants)) as Hs.
  destruct (sort_by_confidence (exact_name_matches ++ all_variants)) as [|top tl];
    [discriminate|].
  cbn [ensure_unique_from firstn] in Hr. injection Hr as <- _.
  exists top. split; [|split].
  - eapply Permutation_in; [apply Permutation_sym, Hp | now left].
  - reflexivity.
  - intros v Hv. apply (Permutation_in _ Hp) in Hv. destruct Hs as [Ht _].
    destruct Hv as [<-|Hv]; [apply Qle_refl|].
    rewrite Forall_forall in Ht. now apply Ht.
Qed.

(** ** The ordinal parser *)

Lemma has_digit_tail (c : ascii) (t : string) :
  has_digit (String c t) = false -> PyStr.is_digit c = false /\ has_digit t = false.
Proof. cbn [has_digit]. intros H. now apply orb_false_iff in H. Qed.

Lemma rep_dead {T : Type} (greedy : bool) (p : ascii -> bool) (k : Re.cont T) :
  dead k ->
  forall rest least g, has_digit rest = false -> Re.rep greedy least p rest g k = None.
Proof.
  intros Hk. induction rest as [|c t IH]; intros least g Hd.
  - destruct least; cbn [Re.rep]; [now apply Hk | reflexivity].
  - pose proof Hd as Hd'. apply has_digit_tail in Hd'. destruct Hd' as [_ Ht].
    destruct least as [|l]; cbn [Re.rep].
    + destruct (p c); [|now apply Hk].
      destruct greedy.
      * rewrite (IH 0 g Ht). now apply Hk.
      * rewrite (Hk _ g Hd). now apply IH.
    + destruct (p c); [now apply IH | reflexivity].
Qed.

(** Matching only ever hands a suffix of the text on. *)
Lemma run_dead {T : Type} (whole : string) (r : Re.regex) :
  forall k : Re.cont T,
    dead k ->
    forall rest g, has_digit rest = false -> Re.run whole r rest g k = None.
Proof.
  induction r as [c|p|greedy least p| | |r1 IH1 r2 IH2|r1 IH1 r2 IH2|r1 IH1];
    intros k Hk rest g Hd; cbn [Re.run].
  - destruct rest as [|d t]; [reflexivity|].
    apply has_digit_tail in Hd. destruct (Ascii.eqb c d); [now apply Hk | reflexivity].
  - destruct rest as [|d t]; [reflexivity|].
    apply has_digit_tail in Hd. destruct (p d); [now apply Hk | reflexivity].
  - now apply rep_dead.
  - destruct (_ =? _); [now apply Hk | reflexivity].
  - destruct rest as [|c [|c' t]]; [now apply Hk | | reflexivity].
    destruct (_ =? _); [now apply Hk | reflexivity].
  - apply IH1; [|exact Hd]. intros rest' g' Hd'. now apply IH2.
  - rewrite IH1 by assumption. now apply IH2.
  - apply IH1; [|exact Hd]. intros rest' g' Hd'. now apply Hk.
Qed.

Lemma digits1_needs_digit : needs_digit digits1.
Proof.
  intros T whole k rest g Hd. unfold digits1. cbn [Re.run Re.rep].
  destruct rest as [|c t]; [reflexivity|].
  apply has_digit_tail in Hd. destruct Hd as [Hc _]. cbn [Re.rep]. now rewrite Hc.
Qed.

Lemma Grp_needs_digit (r : Re.regex) : needs_digit r -> needs_digit (Re.Grp r).
Proof. intros H T whole k rest g Hd. cbn [Re.run]. now apply H. Qed.

Lemma Cat_needs_digit_l (r1 r2 : Re.regex) : needs_digit r1 -> needs_digit (Re.Cat r1 r2).
Proof. intros H T whole k rest g Hd. cbn [Re.run]. now apply H. Qed.

Lemma Cat_needs_digit_r (r1 r2 : Re.regex) : needs_digit r2 -> needs_digit (Re.Cat r1 r2).
Proof.
  intros H T whole k rest g Hd. cbn [Re.run].
  apply run_dead; [|exact Hd]. intros rest' g' Hd'. now apply H.
Qed.

Lemma number_patterns_need_digit : Forall needs_digit number_patterns.
Proof.
  unfold number_patterns, seq. cbn [fold_right].
  repeat constructor;
    repeat first [ solve [apply Cat_needs_digit_l, Grp_needs_digit, digits1_needs_digit]
                 | apply Cat_needs_digit_r ].
Qed.

Lemma search_from_needs_digit (whole : string) (r : Re.regex) (rest : string) :
  needs_digit r -> has_digit rest = false -> Re.search_from whole r rest = None.
Proof.
  intros Hr. induction rest as [|c t IH]; intros Hd; cbn [Re.search_from];
    unfold Re.match_at; rewrite (Hr _ whole _ _ None Hd); [reflexivity|].
  apply has_digit_tail in Hd. now apply IH.
Qed.

Lemma first_search_needs_digit (ps : list Re.regex) (text : string) :
  Forall needs_digit ps -> has_digit text = false -> first_search ps text = None.
Proof.
  intros Hps Hd. induction Hps as [|p ps Hp _ IH]; [reflexivity|].
  cbn [first_search]. unfold Re.search.
  now rewrite (search_from_needs_digit text p text Hp Hd).
Qed.

(** X15. An answer without a digit never selects: a spelled-out number
    ("option two", "the first one") matches no ordinal pattern, so nothing
    is committed; the selection is dropped if the text holds a cancel word
    and is otherwise left pending with the request to say a number. *)
Theorem no_digit_no_selection (a : app) (text : string) :
  has_digit text = false ->
  spoken_index text = None /\
  cards (fst (handle_voice_selection a text)) = cards a /\
  handle_voice_selection a text
  = if existsb (matches text) reject_patterns
    then (clear_pending a, [SetStatus SelectionCancelled])
    else (a, [SetStatus (SayANumber (List.length (pending_card_options a)))]).
Proof.
  intros Hd.
  pose proof (first_search_needs_digit number_patterns text
                                       number_patterns_need_digit Hd) as Hs.
  unfold spoken_index, handle_voice_selection. rewrite Hs.
  split; [reflexivity|]. split; [|reflexivity].
  destruct (existsb _ _); reflexivity.
Qed.

Lemma no_digit_no_selection_witness :
  handle_voice_selection (awaiting three_options) "option two"
  = (awaiting three_options, [SetStatus (SayANumber 3)]).
Proof.
  destruct (no_digit_no_selection (awaiting three_options) "option two" eq_refl)
    as (_ & _ & H).
  exact H.
Defined.

(** *** A bare number *)

Lemma space_not_digit (c : ascii) : PyStr.is_space c = true -> PyStr.is_digit c = false.
Proof.
  unfold PyStr.is_space, PyStr.is_digit. cbn zeta. intros H.
  apply orb_true_iff in H. apply andb_false_iff.
  destruct H as [H|H]; apply andb_true_iff in H; destruct H as [H1 H2];
    apply Nat.leb_le in H1, H2; left; apply Nat.leb_gt; lia.
Qed.

Lemma digit_not_space (c : ascii) : PyStr.is_digit c = true -> PyStr.is_space c = false.
Proof.
  intros H. destruct (PyStr.is_space c) eqn:E; [|reflexivity].
  apply space_not_digit in E. congruence.
Qed.

Lemma rep_greedy_all {T : Type} (p : ascii -> bool) (xs tail : string)
      (g : option string) (k : Re.cont T) (x : T) :
  all_chars p xs = true -> stops p tail -> k tail g = Some x ->
  Re.rep true 0 p (xs ++ tail) g k = Some x.
Proof.
  intros Hxs Ht Hk. induction xs as [|c t IH].
  - cbn [append]. destruct tail as [|c t]; cbn [Re.rep]; [exact Hk|].
    cbn in Ht. now rewrite Ht.
  - cbn [all_chars] in Hxs. apply andb_true_iff in Hxs. destruct Hxs as [Hc Hr].
    cbn [append Re.rep]. rewrite Hc. now rewrite (IH Hr).
Qed.

Lemma rep_greedy_some {T : Type} (p : ascii -> bool) (xs tail : string)
      (g : option string) (k : Re.cont T) (x : T) :
  xs <> "" -> all_chars p xs = true -> stops p tail -> k tail g = Some x ->
  Re.rep true 1 p (xs ++ tail) g k = Some x.
Proof.
  intros Hne Hxs Ht Hk. destruct xs as [|c t]; [congruence|].
  cbn [all_chars] in Hxs. apply andb_true_iff in Hxs. destruct Hxs as [Hc Hr].
  cbn [append Re.rep]. rewrite Hc. now apply rep_greedy_all.
Qed.

Lemma length_append (s t : string) :
  String.length (s ++ t) = String.length s + String.length t.
Proof. induction s as [|c s IH]; cbn; [reflexivity | now rewrite IH]. Qed.

Lemma substring_prefix (s t : string) :
  substring 0 (String.length (s ++ t) - String.length t) (s ++ t) = s.
Proof.
  rewrite length_append. replace (String.length s + String.length t - String.length t)
    with (String.length s) by lia.
  induction s as [|c s IH]; cbn.
  - destruct t; reflexivity.
  - now rewrite IH.
Qed.

Lemma substring_whole (s : string) :
  substring 0 (String.length s - 0) s = s.
Proof.
  rewrite Nat.sub_0_r. induction s as [|c s IH]; cbn; [reflexivity | now rewrite IH].
Qed.

Lemma stops_digits (ds tail : string) :
  ds <> "" -> all_chars PyStr.is_digit ds = true -> stops PyStr.is_space (ds ++ tail).
Proof.
  intros Hne Hd. destruct ds as [|c t]; [congruence|].
  cbn [all_chars] in Hd. apply andb_true_iff in Hd. destruct Hd as [Hc _].
  cbn. now apply digit_not_space.
Qed.

Lemma stops_spaces (ws : string) :
  all_chars PyStr.is_space ws = true -> stops PyStr.is_digit ws.
Proof.
  intros Hw. destruct ws as [|c t]; [exact I|].
  cbn [all_chars] in Hw. apply andb_true_iff in Hw. destruct Hw as [Hc _].
  cbn. now apply space_not_digit.
Qed.

Lemma search_from_here (whole : string) (r : Re.regex) (rest : string) (m : Re.mtch) :
  Re.match_at whole r rest = Some m -> Re.search_from whole r rest = Some m.
Proof. intros H. destruct rest; cbn [Re.search_from]; now rewrite H. Qed.

Lemma append_nil_r (s : string) : s ++ "" = s.
Proof. induction s as [|c s IH]; cbn; [reflexivity | now rewrite IH]. Qed.

(** The first ordinal pattern on a number between optional blanks. *)
Lemma bare_number_match (ws1 ds ws2 : string) :
  all_chars PyStr.is_space ws1 = true ->
  ds <> "" -> all_chars PyStr.is_digit ds = true ->
  all_chars PyStr.is_space ws2 = true ->
  first_search number_patterns (ws1 ++ ds ++ ws2)
  = Some {| Re.group0 := ws1 ++ ds ++ ws2; Re.group1 := Some ds; Re.after := "" |}.
Proof.
  intros H1 Hne Hd H2. set (text := ws1 ++ ds ++ ws2).
  assert (E : Re.search (seq [Re.Bol; spaces0; Re.Grp digits1; spaces0; Re.Eol]) text
              = Some {| Re.group0 := text; Re.group1 := Some ds; Re.after := "" |}).
  { apply search_from_here.
    unfold Re.match_at, seq. cbn [fold_right Re.run]. rewrite Nat.eqb_refl.
    unfold spaces0 at 1. cbn [Re.run]. unfold text at 1.
    apply rep_greedy_all; [exact H1 | now apply stops_digits |].
    unfold digits1. cbn [Re.run].
    apply rep_greedy_some; [exact Hne | exact Hd | now apply stops_spaces |].
    rewrite substring_prefix. unfold spaces0. cbn [Re.run].
    rewrite <- (append_nil_r ws2) at 1.
    apply rep_greedy_all; [exact H2 | exact I |].
    cbn [Re.run Re.rep]. now rewrite substring_whole. }
  unfold number_patterns. cbn [first_search]. now rewrite E.
Qed.

(** X16. A number said on its own (digits between optional blanks) is read
    as that option: within 1..n the option of that number is committed, with
    the art-variant hint of the pending utterance; any other number, 0
    included, is refused and the state stays as it was. *)
Theorem bare_number_selects (a : app) (ws1 ds ws2 : string) :
  all_chars PyStr.is_space ws1 = true ->
  ds <> "" -> all_chars PyStr.is_digit ds = true ->
  all_chars PyStr.is_space ws2 = true ->
  let text := ws1 ++ ds ++ ws2 in
  let n := List.length (pending_card_options a) in
  spoken_index text = Some (PyStr.int ds - 1)%Z /\
  ((1 <= PyStr.int ds <= Z.of_nat n)%Z ->
   exists v,
     nth_error (pending_card_options a) (Z.to_nat (PyStr.int ds - 1)) = Some v /\
     handle_voice_selection a text = commit_option a v (pending_art_variant a)) /\
  (~ (1 <= PyStr.int ds <= Z.of_nat n)%Z ->
   handle_voice_selection a text = (a, [SetStatus (InvalidSelection n)])).
Proof.
  intros H1 Hne Hd H2. cbn zeta.
  pose proof (bare_number_match ws1 ds ws2 H1 Hne Hd H2) as Hs.
  unfold spoken_index, handle_voice_selection. rewrite Hs. cbn [Re.group1 get].
  split; [reflexivity|]. split.
  - intros [Hlo Hhi].
    assert (Hr : ((0 <=? PyStr.int ds - 1)%Z
                  && (PyStr.int ds - 1 <? Z.of_nat (List.length (pending_card_options a)))%Z)
                 = true).
    { apply andb_true_iff. split; [apply Z.leb_le | apply Z.ltb_lt]; lia. }
    rewrite Hr.
    destruct (nth_error (pending_card_options a) (Z.to_nat (PyStr.int ds - 1)))
      as [v|] eqn:Hn.
    + exists v. split; reflexivity.
    + exfalso. apply nth_error_None in Hn. lia.
  - intros Hout.
    destruct ((0 <=? PyStr.int ds - 1)%Z && _)%bool eqn:Hr; [|reflexivity].
    exfalso. apply Hout. apply andb_true_iff in Hr. destruct Hr as [Hlo Hhi].
    apply Z.leb_le in Hlo. apply Z.ltb_lt in Hhi. lia.
Qed.

Lemma bare_number_selects_witness :
  spoken_index " 2 " = Some 1%Z.
Proof.
  destruct (bare_number_selects (awaiting three_options) " " "2" " "
              eq_refl ltac:(discriminate) eq_refl eq_refl) as (H & _).
  exact H.
Defined.

(** *** The dialog and the voice *)

(** X17. Saying the number of an option and clicking its button do the
    same: on the state [show_voice_card_options] leaves, a valid ordinal
    gives the state and the events of the dialog's [select_option] at that
    index. *)
Theorem spoken_ordinal_is_click (a : app) (options : list variant) (input : string)
        (art_variant rarity : option string) (text : string) (i : Z) :
  options <> [] ->
  let shown := fst (show_voice_card_options a options input art_variant rarity) in
  spoken_index text = Some i ->
  (0 <= i < Z.of_nat (List.length options))%Z ->
  handle_voice_selection shown text = select_option options art_variant shown i.
Proof.
  intros Hne. cbn zeta. unfold spoken_index, handle_voice_selection, select_option.
  destruct options as [|o os]; [congruence|].
  unfold show_voice_card_options. cbn [fst].
  destruct (first_search number_patterns text) as [m|]; [|discriminate].
  intros H. injection H as <-. intros [Hlo Hhi].
  cbn [pending_card_options set_voice_data set_pending].
  apply Z.leb_le in Hlo. apply Z.ltb_lt in Hhi. rewrite Hlo, Hhi.
  reflexivity.
Qed.

Lemma spoken_ordinal_is_click_witness :
  handle_voice_selection (awaiting three_options) "option 2"
  = select_option three_options None (awaiting three_options) 1.
Proof.
  apply (spoken_ordinal_is_click (fresh_app [blue_eyes; dark_magician] false)
           three_options "blue eyes" None None "option 2" 1).
  - discriminate.
  - reflexivity.
  - cbn. lia.
Defined.

Lemma select_option_commits (options : list variant) (art_variant : option string)
      (a : app) (i : Z) (v : variant) :
  (0 <= i < Z.of_nat (List.length options))%Z ->
  nth_error options (Z.to_nat i) = Some v ->
  select_option options art_variant a i = commit_option a v art_variant.
Proof.
  intros [Hlo Hhi] Hn. unfold select_option.
  apply Z.leb_le in Hlo. apply Z.ltb_lt in Hhi. now rewrite Hlo, Hhi, Hn.
Qed.

Lemma handle_voice_selection_commits (a : app) (text : string) (i : Z) (v : variant) :
  spoken_index text = Some i -> in_range a i ->
  nth_error (pending_card_options a) (Z.to_nat i) = Some v ->
  handle_voice_selection a text = commit_option a v (pending_art_variant a).
Proof.
  unfold spoken_index, handle_voice_selection, in_range.
  destruct (first_search number_patterns text) as [m|]; [|discriminate].
  intros H. injection H as <-. intros [Hlo Hhi] Hn.
  apply Z.leb_le in Hlo. apply Z.ltb_lt in Hhi. now rewrite Hlo, Hhi, Hn.
Qed.

(** X18. The dialog's buttons do not look at the pending flag: a click
    that arrives after the selection was already answered by voice commits
    again, so the session then holds both the spoken and the clicked
    option. *)
Theorem late_click_commits_again (a : app) (options : list variant) (input : string)
        (art_variant rarity : option string) (text : string) (i j : Z)
        (spoken clicked : variant) :
  let shown := fst (show_voice_card_options a options input art_variant rarity) in
  spoken_index text = Some i ->
  (0 <= i < Z.of_nat (List.length options))%Z ->
  nth_error options (Z.to_nat i) = Some spoken ->
  (0 <= j < Z.of_nat (List.length options))%Z ->
  nth_error options (Z.to_nat j) = Some clicked ->
  let answered := fst (handle_voice_selection shown text) in
  idle answered /\
  cards (fst (select_option options art_variant answered j))
  = (cards a ++ [committed_entry spoken art_variant;
                 committed_entry clicked art_variant])%list.
Proof.
  cbn zeta. intros Hi Hri Hni Hrj Hnj.
  assert (Hne : options <> []) by (destruct options; [destruct (Z.to_nat i)|]; discriminate).
  assert (Es : handle_voice_selection
                 (fst (show_voice_card_options a options input art_variant rarity)) text
               = commit_option
                   (fst (show_voice_card_options a options input art_variant rarity))
                   spoken art_variant).
  { destruct options as [|o os]; [congruence|].
    exact (handle_voice_selection_commits
             (fst (show_voice_card_options a (o :: os) input art_variant rarity))
             text i spoken Hi Hri Hni). }
  rewrite Es. split; [apply commit_option_idle|].
  rewrite (select_option_commits options art_variant _ j clicked Hrj Hnj).
  destruct (commit_option_outcome
              (fst (commit_option
                      (fst (show_voice_card_options a options input art_variant rarity))
                      spoken art_variant)) clicked art_variant) as (H2 & _).
  cbn zeta in H2. rewrite H2.
  destruct (commit_option_outcome
              (fst (show_voice_card_options a options input art_variant rarity))
              spoken art_variant) as (H1 & _).
  cbn zeta in H1. rewrite H1.
  destruct options as [|o os]; [congruence|].
  unfold show_voice_card_options. cbn [fst cards set_voice_data set_pending].
  now rewrite <- app_assoc.
Qed.

Lemma late_click_commits_again_witness :
  cards (fst (select_option three_options None
                (fst (handle_voice_selection (awaiting three_options) "option 2")) 0))
  = [committed_entry (nth 1 three_options (scored "" 0 false)) None;
     committed_entry (nth 0 three_options (scored "" 0 false)) None].
Proof.
  destruct (late_click_commits_again
              (fresh_app [blue_eyes; dark_magician] false) three_options "blue eyes"
              None None "option 2" 1 0
              (nth 1 three_options (scored "" 0 false))
              (nth 0 three_options (scored "" 0 false))
              eq_refl ltac:(cbn; lia) eq_refl ltac:(cbn; lia) eq_refl) as [_ H].
  exact H.
Defined.

(** ** One selection at a time *)

Section Coherence.

Variable fuzz_ratio : string -> string -> Z.
Variable fuzz_token_set_ratio : string -> string -> Z.

Lemma handle_voice_selection_coherent (a : app) (text : string) :
  coherent a -> coherent (fst (handle_voice_selection a text)).
Proof.
  intros Ha. destruct (handle_voice_selection_answer a text); cbn [fst].
  - left. apply commit_option_idle.
  - exact Ha.
  - left. unfold idle. cbn. auto.
  - exact Ha.
Qed.

Lemma find_and_present_coherent (a a' : app) (ev : list event) (card_name : string)
      (art_variant rarity : option string) :
  coherent a ->
  find_and_present_card_options fuzz_ratio fuzz_token_set_ratio a card_name
                                art_variant rarity = Ok (a', ev) ->
  coherent a'.
Proof.
  intros Ha E.
  pose proof (find_and_present_cases fuzz_ratio fuzz_token_set_ratio
                                     a card_name art_variant rarity) as H.
  cbn zeta in H. rewrite E in H.
  destruct H as [[_ H]|[(_ & _ & H)|[(_ & _ & e & _ & H)|[(_ & _ & _ & H)|
                 (_ & _ & ex & al & best & rest & He & Hr & Hy & Hno)]]]];
    try discriminate;
    try (injection H as -> ->; exact Ha).
  destruct (auto_confirm_var a && _)%bool.
  - specialize (Hy eq_refl). injection Hy as -> _.
    destruct (add_card_pending (set_locked a true) (v_card_data best) art_variant
                               (Some (v_rarity best))) as (H1 & H2 & H3 & _).
    cbn zeta in H1, H2, H3. cbn [set_locked pending_voice_confirmation
                                 pending_card_options pending_voice_data] in H1, H2, H3.
    unfold coherent, idle, awaiting_answer in *. rewrite H1, H2, H3. exact Ha.
  - specialize (Hno eq_refl). unfold show_voice_card_options in Hno.
    injection Hno as -> _. right. split; [reflexivity|]. split; [|discriminate].
    cbn [pending_card_options set_voice_data set_pending].
    split; [cbn [List.length]; lia|].
    rewrite <- Hr, rank_variants_length. lia.
Qed.

(** X19. At most one selection is pending, and it is well formed: a state
    that is either idle (flag off, no options, no hints) or awaiting an
    answer (flag on, one to eight options, hints stored) stays so under
    every utterance, every click on an option and the cancel button. *)
Theorem one_selection_at_a_time (a : app) :
  coherent a ->
  (forall voice_text a' ev,
     process_voice_input fuzz_ratio fuzz_token_set_ratio a voice_text = Ok (a', ev) ->
     coherent a') /\
  (forall options art_variant index,
     coherent (fst (select_option options art_variant a index))) /\
  coherent (fst (cancel_selection a)).
Proof.
  intros Ha. split; [|split].
  - intros voice_text a' ev. unfold process_voice_input.
    destruct (pending_voice_confirmation a).
    + intros H. injection H as H.
      pose proof (handle_voice_selection_coherent
                    a (PyStr.strip (PyStr.lower voice_text)) Ha) as Hc.
      rewrite H in Hc. exact Hc.
    + destruct (if auto_art_rarity_enabled a then _ else _) as [art_variant name1].
      destruct (if auto_rarity_enabled a then _ else _) as [rarity name2].
      destruct (find_and_present_card_options _ _ _ _ _ _) as [[a1 e1]|e] eqn:E;
        [|discriminate].
      intros H. injection H as <- _.
      eapply find_and_present_coherent; eassumption.
  - intros options art_variant index. unfold select_option.
    destruct (_ && _)%bool; [|exact Ha].
    destruct (nth_error _ _); [|exact Ha].
    left. apply commit_option_idle.
  - left. unfold idle. cbn. auto.
Qed.

End Coherence.

Lemma one_selection_at_a_time_witness :
  coherent (fst (cancel_selection (awaiting three_options))) /\
  coherent (fst (select_option three_options None (awaiting three_options) 1)).
Proof.
  assert (Ha : coherent (awaiting three_options)).
  { right. split; [reflexivity|]. split; [cbn; lia | discriminate]. }
  destruct (one_selection_at_a_time FuzzRef.ratio FuzzRef.token_set_ratio
                                    (awaiting three_options) Ha) as (_ & Hs & Hc).
  split; [exact Hc | apply Hs].
Defined.

(** ** Runs with the reference similarity functions *)

(** X5 on the search for "dark magician": the printing of Dark Paladin is
    among the candidates. *)
Lemma every_printing_expanded_witness :
  has_key dark_expansion (printing_key "Dark Paladin" (mk_set "Ultra Rare" "MFC-105")).
Proof.
  apply (every_printing_expanded
           FuzzRef.ratio FuzzRef.token_set_ratio dark_catalog "dark magician" None
           dark_rows ([], []) dark_expansion
           {| m_card_data := dark_paladin; m_confidence := 64; m_name := "Dark Paladin";
              m_rarity := "Ultra Rare" |}
           dark_paladin (mk_set "Ultra Rare" "MFC-105")).
  - vm_compute. reflexivity.
  - vm_compute. right. left. reflexivity.
  - right. left. reflexivity.
  - reflexivity.
  - left. reflexivity.
Defined.

Lemma other_variants_distinct_keys_witness :
  NoDup (map v_variant_key (snd dark_expansion)).
Proof.
  apply (other_variants_distinct_keys
           FuzzRef.ratio FuzzRef.token_set_ratio dark_catalog "dark magician" None
           dark_rows ([], []) dark_expansion).
  - vm_compute. reflexivity.
  - constructor.
Defined.

Lemma named_catalog_never_raises_witness :
  exists a' ev,
    process_voice_input FuzzRef.ratio FuzzRef.token_set_ratio
                        (fresh_app dark_catalog true) "Dark Magician ultra rare"
    = Ok (a', ev).
Proof.
  apply (named_catalog_never_raises FuzzRef.ratio FuzzRef.token_set_ratio
                                    (fresh_app dark_catalog true)
                                    "Dark Magician ultra rare").
  intros c [<-|[<-|[]]]; discriminate.
Defined.

(** A name score that raises never leaves the first pass: with the card
    "???" in the catalog and "!!!" spoken the score raises, the card is
    skipped and the search ends with "No matches found". *)
Lemma raising_score_is_skipped :
  name_score_of FuzzRef.ratio FuzzRef.token_set_ratio "!!!" "???"
  = Raise (UnboundLocalError "length_penalty") /\
  process_voice_input FuzzRef.ratio FuzzRef.token_set_ratio
                      (fresh_app [punctuation_card] false) "!!!"
  = Ok (fresh_app [punctuation_card] false,
        [Processed "!!!" None None; SetStatus (NoMatchesFound "!!!")]).
Proof. split; vm_compute; reflexivity. Qed.

Lemma dark_search_returns (auto_confirm : bool) :
  find_and_present_card_options FuzzRef.ratio FuzzRef.token_set_ratio
    (fresh_app dark_catalog auto_confirm) "dark magician" None None
  = Ok (fst (dark_search auto_confirm), snd (dark_search auto_confirm)).
Proof. destruct auto_confirm; vm_compute; reflexivity. Qed.

Lemma offered_options_are_printings_witness :
  1 <= List.length (pending_card_options (fst (dark_search false))) <= 8 /\
  Forall (from_catalog dark_catalog) (pending_card_options (fst (dark_search false))).
Proof.
  assert (H2 : In (ShowDialog (pending_card_options (fst (dark_search false)))
                              "dark magician" None None)
                  (snd (dark_search false))) by (vm_compute; left; reflexivity).
  destruct (offered_options_are_printings
              FuzzRef.ratio FuzzRef.token_set_ratio (fresh_app dark_catalog false)
              (fst (dark_search false)) (snd (dark_search false))
              "dark magician" None None
              (pending_card_options (fst (dark_search false))) "dark magician" None None
              (dark_search_returns false) H2) as (Hl & Hf & _).
  split; assumption.
Defined.

Lemma auto_confirm_decision_witness :
  exists best_match,
    (85 <= v_confidence best_match)%Q /\
    cards (fst (dark_search true)) = [committed_entry best_match None].
Proof.
  assert (H2 : cards (fst (dark_search true)) <> cards (fresh_app dark_catalog true))
    by (vm_compute; discriminate).
  destruct (auto_confirm_decision
              FuzzRef.ratio FuzzRef.token_set_ratio (fresh_app dark_catalog true)
              (fst (dark_search true)) (snd (dark_search true))
              "dark magician" None None (dark_search_returns true) H2)
    as (_ & best & Hq & _ & Hc & _).
  exists best. split; [exact Hq | exact Hc].
Defined.

Lemma no_auto_confirm_no_commit_witness :
  cards (fst (dark_search false)) = [].
Proof.
  destruct (no_auto_confirm_no_commit
              FuzzRef.ratio FuzzRef.token_set_ratio (fresh_app dark_catalog false)
              (fst (dark_search false)) (snd (dark_search false))
              "dark magician" None None eq_refl (dark_search_returns false)) as [Hc _].
  exact Hc.
Defined.

Lemma best_option_highest_score_witness :
  exists top,
    In top [scored "Ultra Rare" 85 true; scored "Ghost Rare" 90 false] /\
    forall v, In v [scored "Ultra Rare" 85 true; scored "Ghost Rare" 90 false] ->
              (v_confidence v <= v_confidence top)%Q.
Proof.
  destruct (best_option_highest_score
              [scored "Ultra Rare" 85 true] [scored "Ghost Rare" 90 false]
              (scored "Ghost Rare" 90 false) [scored "Ultra Rare" 85 true]
              ltac:(vm_compute; reflexivity)) as (top & Hin & _ & Hmax).
  exists top. split; assumption.
Defined.

(** ** The session tracker's quantity controls *)

Import Tracker.

Lemma first_with_id_split (cards : list entry) (card_id : option Z) :
  forall i,
    match first_with_id cards card_id i with
    | Some (j, card) =>
        exists before after,
          cards = (before ++ card :: after)%list /\
          Forall (fun c => id_is card_id c = false) before /\
          id_is card_id card = true /\
          j = (i + Z.of_nat (List.length before))%Z
    | None => Forall (fun c => id_is card_id c = false) cards
    end.
Proof.
  induction cards as [|c rest IH]; intros i; cbn [first_with_id]; [constructor|].
  destruct (id_is card_id c) eqn:E.
  - exists [], rest. cbn. repeat split; [constructor | exact E | lia].
  - specialize (IH (i + 1)%Z).
    destruct (first_with_id rest card_id (i + 1)) as [[j card]|].
    + destruct IH as (before & after & -> & Hb & Hc & ->).
      exists (c :: before), after. cbn [List.app List.length].
      repeat split; [constructor; assumption | exact Hc | lia].
    + constructor; assumption.
Qed.

Lemma update_by_id_split (before after : list entry) (card : entry)
      (card_id : option Z) (change : Z) :
  Forall (fun c => id_is card_id c = false) before ->
  id_is card_id card = true ->
  update_card_quantity_by_id (before ++ card :: after) card_id change
  = (before ++ set_quantity card (Z.max 1 (shown_quantity card + change)) :: after)%list.
Proof.
  intros Hb Hc. induction Hb as [|c r Hx _ IH]; cbn [List.app update_card_quantity_by_id].
  - now rewrite Hc.
  - now rewrite Hx, IH.
Qed.

Lemma update_by_id_none (cards : list entry) (card_id : option Z) (change : Z) :
  Forall (fun c => id_is card_id c = false) cards ->
  update_card_quantity_by_id cards card_id change = cards.
Proof.
  intros H. induction H as [|c r Hx _ IH]; cbn [update_card_quantity_by_id];
    [reflexivity|]. now rewrite Hx, IH.
Qed.

Lemma remove_by_id_split (before after : list entry) (card : entry) (card_id : option Z) :
  Forall (fun c => id_is card_id c = false) before ->
  id_is card_id card = true ->
  remove_card_by_id (before ++ card :: after) card_id = (before ++ after)%list.
Proof.
  intros Hb Hc. induction Hb as [|c r Hx _ IH]; cbn [List.app remove_card_by_id].
  - now rewrite Hc.
  - now rewrite Hx, IH.
Qed.

Lemma remove_by_id_none (cards : list entry) (card_id : option Z) :
  Forall (fun c => id_is card_id c = false) cards ->
  remove_card_by_id cards card_id = cards.
Proof.
  intros H. induction H as [|c r Hx _ IH]; cbn [remove_card_by_id]; [reflexivity|].
  now rewrite Hx, IH.
Qed.

Lemma in_range_at (before after : list entry) (card : entry) :
  let i := Z.of_nat (List.length before) in
  ((0 <=? i)%Z && (i <? Z.of_nat (List.length (before ++ card :: after)))%Z)%bool = true /\
  Z.to_nat i = List.length before.
Proof.
  cbn zeta. split; [|apply Nat2Z.id].
  apply andb_true_iff. split; [apply Z.leb_le; lia | apply Z.ltb_lt].
  rewrite length_app. cbn [List.length]. lia.
Qed.

Lemma cut_at (before after : list entry) (card : entry) :
  firstn (List.length before) (before ++ card :: after) = before /\
  skipn (S (List.length before)) (before ++ card :: after) = after /\
  nth_error (before ++ card :: after) (List.length before) = Some card.
Proof.
  induction before as [|c r (H1 & H2 & H3)]; cbn [List.length List.app firstn skipn nth_error].
  - auto.
  - rewrite H1. auto.
Qed.

Lemma update_at_split (before after : list entry) (card : entry) (q : Z) :
  update_card_quantity (before ++ card :: after) (Z.of_nat (List.length before)) q
  = (before ++ set_quantity card q :: after)%list.
Proof.
  unfold update_card_quantity.
  destruct (in_range_at before after card) as [-> ->].
  destruct (cut_at before after card) as (-> & -> & ->). reflexivity.
Qed.

Lemma remove_at_split (before after : list entry) (card : entry) :
  remove_card_from_session (before ++ card :: after) (Z.of_nat (List.length before))
  = (before ++ after)%list.
Proof.
  unfold remove_card_from_session.
  destruct (in_range_at before after card) as [-> ->].
  destruct (cut_at before after card) as (-> & -> & _). reflexivity.
Qed.

(** X20. The quantity buttons act on the first session entry that carries
    the card's id, not on the entry they stand beside: that entry's quantity
    moves by the step and never below 1, every other entry (later entries
    of the same id included) stays as it is, and without an entry of that
    id nothing changes. *)
Theorem quantity_button_hits_first_of_id (cards : list entry) (card_id : option Z)
        (change : Z) :
  (exists before card after,
     cards = (before ++ card :: after)%list /\
     Forall (fun c => id_is card_id c = false) before /\
     id_is card_id card = true /\
     update_card_quantity_by_id cards card_id change
     = (before ++ set_quantity card (Z.max 1 (shown_quantity card + change)) :: after)%list /\
     (1 <= Z.max 1 (shown_quantity card + change))%Z)
  \/
  (Forall (fun c => id_is card_id c = false) cards /\
   update_card_quantity_by_id cards card_id change = cards).
Proof.
  pose proof (first_with_id_split cards card_id 0) as H.
  destruct (first_with_id cards card_id 0) as [[j card]|].
  - destruct H as (before & after & -> & Hb & Hc & _). left.
    exists before, card, after. repeat split; try assumption; [|lia].
    now apply update_by_id_split.
  - right. split; [exact H | now apply update_by_id_none].
Qed.

(** X21. The remove button deletes exactly the first session entry with
    the card's id and keeps every other entry in place; without such an
    entry the session stays as it is. *)
Theorem remove_button_hits_first_of_id (cards : list entry) (card_id : option Z) :
  (exists before card after,
     cards = (before ++ card :: after)%list /\
     Forall (fun c => id_is card_id c = false) before /\
     id_is card_id card = true /\
     remove_card_by_id cards card_id = (before ++ after)%list /\
     S (List.length (remove_card_by_id cards card_id)) = List.length cards)
  \/
  (Forall (fun c => id_is card_id c = false) cards /\
   remove_card_by_id cards card_id = cards).
Proof.
  pose proof (first_with_id_split cards card_id 0) as H.
  destruct (first_with_id cards card_id 0) as [[j card]|].
  - destruct H as (before & after & -> & Hb & Hc & _). left.
    exists before, card, after. rewrite (remove_by_id_split _ _ _ _ Hb Hc).
    repeat split; try assumption.
    rewrite !length_app. cbn [List.length]. lia.
  - right. split; [exact H | now apply remove_by_id_none].
Qed.

(** X22. The two sets of controls agree: the closures built by the fast
    widget constructors (search by id, then [update_card_quantity] or
    [remove_card_from_session] by index) leave the session as
    [update_card_quantity_by_id] and [remove_card_by_id] do, for the minus
    and the remove button always, for the plus button as long as the
    entry's quantity is not negative. *)
Theorem inline_controls_agree (cards : list entry) (card_id : option Z) :
  decrease_qty cards card_id = update_card_quantity_by_id cards card_id (-1) /\
  remove_card cards card_id = remove_card_by_id cards card_id /\
  (Forall (fun c => (0 <= shown_quantity c)%Z) cards ->
   increase_qty cards card_id = update_card_quantity_by_id cards card_id 1).
Proof.
  unfold decrease_qty, increase_qty, remove_card.
  pose proof (first_with_id_split cards card_id 0) as H.
  destruct (first_with_id cards card_id 0) as [[j card]|].
  - destruct H as (before & after & -> & Hb & Hc & ->). cbn [Z.add].
    rewrite !update_at_split, remove_at_split, !update_by_id_split,
      remove_by_id_split by assumption.
    split; [reflexivity|]. split; [reflexivity|].
    intros Hq. apply Forall_app in Hq. destruct Hq as [_ Hq].
    inversion Hq as [|? ? Hcard _]; subst. unfold shown_quantity in *.
    now rewrite Z.max_r by lia.
  - rewrite update_by_id_none, remove_by_id_none, update_by_id_none by assumption.
    auto.
Qed.

(** X23. No button brings a quantity below 1: when every entry of the
    session shows at least 1, it still does after any step of
    [update_card_quantity_by_id], after [remove_card_by_id], and after the
    minus, plus and remove closures of the fast widgets. *)
Theorem quantity_stays_positive (cards : list entry) (card_id : option Z) (change : Z) :
  Forall (fun c => (1 <= shown_quantity c)%Z) cards ->
  Forall (fun c => (1 <= shown_quantity c)%Z)
         (update_card_quantity_by_id cards card_id change) /\
  Forall (fun c => (1 <= shown_quantity c)%Z) (remove_card_by_id cards card_id) /\
  Forall (fun c => (1 <= shown_quantity c)%Z) (decrease_qty cards card_id) /\
  Forall (fun c => (1 <= shown_quantity c)%Z) (increase_qty cards card_id) /\
  Forall (fun c => (1 <= shown_quantity c)%Z) (remove_card cards card_id).
Proof.
  intros H. unfold decrease_qty, increase_qty, remove_card.
  pose proof (first_with_id_split cards card_id 0) as Hs.
  destruct (first_with_id cards card_id 0) as [[j card]|].
  - destruct Hs as (before & after & -> & Hb & Hc & ->). cbn [Z.add].
    rewrite !update_at_split, remove_at_split, update_by_id_split, remove_by_id_split
      by assumption.
    apply Forall_app in H. destruct H as [H1 H2].
    inversion H2 as [|? ? Hcard Hafter]; subst.
    assert (Hset : forall q, (1 <= q)%Z ->
                             Forall (fun c => (1 <= shown_quantity c)%Z)
                                    (before ++ set_quantity card q :: after)).
    { intros q Hq. apply Forall_app. split; [exact H1|].
      constructor; [exact Hq | exact Hafter]. }
    assert (Hrm : Forall (fun c => (1 <= shown_quantity c)%Z) (before ++ after)).
    { apply Forall_app. split; assumption. }
    unfold shown_quantity in Hcard.
    repeat split; try exact Hrm; apply Hset; unfold shown_quantity; lia.
  - rewrite update_by_id_none, remove_by_id_none by assumption. auto.
Qed.

(** X24. [update_card_quantity] and [remove_card_from_session] touch the
    session only for an index inside it: a negative index or one past the
    end leaves every entry as it was; inside, the first replaces the
    quantity of the entry at the index (the value is taken as given, 0 or
    less included) and the second takes that entry out, other entries kept
    in order. *)
Theorem index_controls (cards : list entry) (card_index new_quantity : Z) :
  (~ (0 <= card_index < Z.of_nat (List.length cards))%Z ->
   update_card_quantity cards card_index new_quantity = cards /\
   remove_card_from_session cards card_index = cards) /\
  ((0 <= card_index < Z.of_nat (List.length cards))%Z ->
   exists before card after,
     cards = (before ++ card :: after)%list /\
     Z.of_nat (List.length before) = card_index /\
     update_card_quantity cards card_index new_quantity
     = (before ++ set_quantity card new_quantity :: after)%list /\
     remove_card_from_session cards card_index = (before ++ after)%list).
Proof.
  split.
  - intros Hout. unfold update_card_quantity, remove_card_from_session.
    destruct ((0 <=? card_index)%Z && _)%bool eqn:E; [|auto].
    exfalso. apply Hout. apply andb_true_iff in E. destruct E as [H0 H1].
    apply Z.leb_le in H0. apply Z.ltb_lt in H1. lia.
  - intros [H0 H1].
    destruct (nth_error cards (Z.to_nat card_index)) as [card|] eqn:E.
    + apply nth_error_split in E. destruct E as (before & after & -> & Hl).
      exists before, card, after.
      assert (Hi : Z.of_nat (List.length before) = card_index) by lia.
      rewrite <- Hi. rewrite update_at_split, remove_at_split. auto.
    + exfalso. apply nth_error_None in E. lia.
Qed.

(** X25. The rows the visible cards take: none when nothing is visible;
    one per card in normal mode; in focus mode the least number of rows of
    four that holds them all. *)
Theorem widget_rows (visible_start_index visible_end_index : Z) (focus_mode : bool) :
  let visible_cards := (visible_end_index - visible_start_index)%Z in
  let rows := get_widget_rows_used visible_start_index visible_end_index focus_mode in
  ((visible_cards <= 0)%Z -> rows = 0%Z) /\
  ((0 < visible_cards)%Z -> focus_mode = false -> rows = visible_cards) /\
  ((0 < visible_cards)%Z -> focus_mode = true ->
   (4 * (rows - 1) < visible_cards <= 4 * rows)%Z).
Proof.
  cbn zeta. unfold get_widget_rows_used. cbn zeta.
  set (v := (visible_end_index - visible_start_index)%Z).
  destruct (v <=? 0)%Z eqn:E.
  - apply Z.leb_le in E. repeat split; intros; try lia.
  - apply Z.leb_gt in E. split; [lia|]. split.
    + intros _ ->. reflexivity.
    + intros _ ->.
      pose proof (Z.div_mod (v + 4 - 1) 4 ltac:(lia)) as Hd.
      pose proof (Z.mod_pos_bound (v + 4 - 1) 4 ltac:(lia)) as Hm.
      lia.
Qed.

(** Two printings of one card: the buttons beside the Ghost Rare entry
    change and remove the Ultra Rare one. *)
Lemma shared_id_example :
  update_card_quantity_by_id [ultra_entry; ghost_entry] (e_id ghost_entry) 1
  = [set_quantity ultra_entry 2; ghost_entry] /\
  remove_card_by_id [ultra_entry; ghost_entry] (e_id ghost_entry) = [ghost_entry].
Proof. split; reflexivity. Qed.

Lemma quantity_stays_positive_witness :
  Forall (fun c => (1 <= shown_quantity c)%Z)
         (update_card_quantity_by_id [ultra_entry; ghost_entry] (e_id ghost_entry) (-1)).
Proof.
  destruct (quantity_stays_positive [ultra_entry; ghost_entry] (e_id ghost_entry) (-1))
    as [H _]; [|exact H].
  repeat constructor; unfold shown_quantity; cbn; lia.
Defined.


(** ** The hint extraction *)

Lemma contains_tail (w : string) (c : ascii) (s : string) :
  PyStr.contains w s = true -> PyStr.contains w (String c s) = true.
Proof.
  intros H. cbn [PyStr.contains]. rewrite H. apply orb_true_r.
Qed.

Lemma prefix_shorter (w x s : string) :
  prefix (w ++ x) s = true -> prefix w s = true.
Proof.
  revert s. induction w as [|c w IH]; intros s H; [destruct s; reflexivity|].
  destruct s as [|d s]; [discriminate|]. cbn [append] in H. simpl prefix in *.
  destruct (ascii_dec c d); [now apply IH | discriminate].
Qed.

Lemma contains_shorter (w x s : string) :
  PyStr.contains (w ++ x) s = true -> PyStr.contains w s = true.
Proof.
  induction s as [|d s IH]; cbn [PyStr.contains]; intros H;
    apply orb_true_iff in H; destruct H as [H|H]; try discriminate.
  - apply prefix_shorter in H. now rewrite H.
  - apply prefix_shorter in H. now rewrite H.
  - rewrite (IH H). apply orb_true_r.
Qed.

Lemma contains_later (c : ascii) (w s : string) :
  PyStr.contains (String c w) s = true -> PyStr.contains w s = true.
Proof.
  induction s as [|d s IH]; cbn [PyStr.contains]; intros H;
    apply orb_true_iff in H; destruct H as [H|H]; try discriminate.
  - apply contains_tail. simpl prefix in H.
    destruct (ascii_dec c d); [|discriminate].
    destruct s; cbn [PyStr.contains]; rewrite H; reflexivity.
  - apply contains_tail. now apply IH.
Qed.

Lemma prefix_contains (w s : string) : prefix w s = true -> PyStr.contains w s = true.
Proof. intros H. destruct s; cbn [PyStr.contains]; now rewrite H. Qed.

(** A pattern that starts with the word [w] matches only where [w] stands. *)
Lemma Str_first_demands {T : Type} (whole w : string) (r : Re.regex) (k : Re.cont T) :
  demands w (fun rest g => Re.run whole (Re.Cat (Re.Str w) r) rest g k).
Proof.
  intros rest g x. cbn [Re.run]. rewrite run_Str.
  destruct (prefix w rest) eqn:E; [|discriminate].
  intros _. now apply prefix_contains.
Qed.

Lemma rep_demands {T : Type} (w : string) (greedy : bool) (p : ascii -> bool)
      (k : Re.cont T) :
  demands w k ->
  forall rest least g x,
    Re.rep greedy least p rest g k = Some x -> PyStr.contains w rest = true.
Proof.
  intros Hk. induction rest as [|c t IH]; intros least g x H.
  - destruct least; cbn [Re.rep] in H; [now apply (Hk _ _ _ H) | discriminate].
  - destruct least as [|l]; cbn [Re.rep] in H.
    + destruct (p c); [|now apply (Hk _ _ _ H)].
      destruct greedy.
      * destruct (Re.rep true 0 p t g k) eqn:E.
        -- apply contains_tail. now apply (IH _ _ _ E).
        -- now apply (Hk _ _ _ H).
      * destruct (k (String c t) g) eqn:E.
        -- now apply (Hk _ _ _ E).
        -- apply contains_tail. now apply (IH _ _ _ H).
    + destruct (p c); [|discriminate]. apply contains_tail. now apply (IH _ _ _ H).
Qed.

Lemma search_from_demands (whole w : string) (r : Re.regex) :
  (forall (k : Re.cont Re.mtch), demands w (fun rest g => Re.run whole r rest g k)) ->
  forall rest m, Re.search_from whole r rest = Some m -> PyStr.contains w rest = true.
Proof.
  intros Hr. induction rest as [|c t IH]; intros m H; cbn [Re.search_from] in H.
  - destruct (Re.match_at whole r "") eqn:E; [|discriminate].
    unfold Re.match_at in E. now apply (Hr _ _ _ _ E).
  - destruct (Re.match_at whole r (String c t)) eqn:E.
    + unfold Re.match_at in E. now apply (Hr _ _ _ _ E).
    + apply contains_tail. now apply (IH m).
Qed.

(** Both group patterns on "rare" match only in a text that holds "rare". *)
Lemma rare_then_group (text : string) (m : Re.mtch) :
  Re.search (seq [Re.Str "rare "; Re.Grp lazy1; space_or_end]) text = Some m ->
  PyStr.contains "rare" text = true.
Proof.
  intros H. apply (contains_shorter "rare" " ").
  unfold Re.search in H. revert H. apply search_from_demands.
  intros k. unfold seq. cbn [fold_right]. apply Str_first_demands.
Qed.

Lemma group_then_rare (text : string) (m : Re.mtch) :
  Re.search (seq [Re.Grp lazy1; Re.Str " rare"; space_or_end]) text = Some m ->
  PyStr.contains "rare" text = true.
Proof.
  intros H. apply (contains_later " "%char).
  unfold Re.search in H. revert H. apply search_from_demands.
  intros k rest g x. unfold seq, lazy1. cbn [fold_right].
  change (Re.run text (Re.Cat (Re.Grp (Re.Rep false 1 Re.dot)) ?r) rest g k)
    with (Re.rep false 1 Re.dot rest g
            (fun rest' _ =>
               Re.run text r rest'
                      (Some (substring 0 (String.length rest - String.length rest') rest))
                      k)).
  apply rep_demands. intros rest' g' y. apply Str_first_demands.
Qed.

Lemma search_rare (text : string) :
  Re.search (Re.Str "rare") text = None -> PyStr.contains "rare" text = false.
Proof.
  intros H. rewrite <- matches_Str. unfold matches. now rewrite H.
Qed.

(** X26. Two of the rarity patterns can never be the one that applies:
    ['rare (.+?)(?:\s|$)'] and ['(.+?) rare(?:\s|$)'] stand behind the plain
    ['rare'], which matches every text they match. What is said around the
    word (as in "gold rare") is never taken as the rarity; and an utterance
    that holds "rare" always yields a rarity hint. *)
Theorem rare_group_patterns_never_apply (voice_text card_name : string) :
  extract_rarity rarity_patterns voice_text card_name
  = extract_rarity rarity_patterns_in_use voice_text card_name /\
  (PyStr.contains "rare" voice_text = true ->
   exists r, fst (extract_rarity rarity_patterns voice_text card_name) = Some r).
Proof.
  unfold rarity_patterns_in_use, rarity_patterns. cbn [firstn skipn List.app].
  cbn [extract_rarity].
  repeat match goal with
         | |- context [Re.search (Re.Str ?w) voice_text] =>
             lazymatch w with
             | "rare" => fail
             | _ => destruct (Re.search (Re.Str w) voice_text);
                    [split; [reflexivity | intros _; eexists; reflexivity]|]
             end
         | |- context [Re.search (seq [Re.Str "collector"; ?a; ?b]) voice_text] =>
             destruct (Re.search (seq [Re.Str "collector"; a; b]) voice_text);
             [split; [reflexivity | intros _; eexists; reflexivity]|]
         end.
  destruct (Re.search (Re.Str "rare") voice_text) eqn:Hrare;
    [split; [reflexivity | intros _; eexists; reflexivity]|].
  apply search_rare in Hrare.
  split; [|congruence].
  destruct (Re.search (Re.Str "common") voice_text); [reflexivity|].
  destruct (Re.search (seq [Re.Str "rarity "; Re.Grp lazy1; space_or_end]) voice_text);
    [reflexivity|].
  destruct (Re.search (seq [Re.Str "rare "; Re.Grp lazy1; space_or_end]) voice_text)
    eqn:E1; [apply rare_then_group in E1; congruence|].
  destruct (Re.search (seq [Re.Grp lazy1; Re.Str " rare"; space_or_end]) voice_text)
    eqn:E2; [apply group_then_rare in E2; congruence|].
  reflexivity.
Qed.

(** ** The spellings tried for a spoken name *)

Lemma unique_variants_distinct (variants : list string) :
  forall seen,
    NoDup (map PyStr.lower (unique_variants seen variants)) /\
    (forall v, In v (unique_variants seen variants) ->
               In v variants /\ ~ In (PyStr.lower v) seen).
Proof.
  induction variants as [|v rest IH]; intros seen; cbn [unique_variants].
  - split; [constructor | intros v []].
  - destruct (existsb (String.eqb (PyStr.lower v)) seen) eqn:E.
    + destruct (IH seen) as [Hn Hi]. split; [exact Hn|].
      intros w Hw. destruct (Hi w Hw). split; [now right | assumption].
    + destruct (IH (PyStr.lower v :: seen)) as [Hn Hi]. split.
      * cbn [map]. constructor; [|exact Hn].
        intros Hin. apply in_map_iff in Hin. destruct Hin as (w & Hl & Hw).
        destruct (Hi w Hw) as [_ Hs]. apply Hs. left. now symmetry.
      * intros w [<-|Hw].
        -- split; [now left|]. intros Hin.
           assert (Ht : existsb (String.eqb (PyStr.lower v)) seen = true).
           { apply existsb_exists. exists (PyStr.lower v). split; [exact Hin|].
             apply String.eqb_refl. }
           congruence.
        -- destruct (Hi w Hw) as [H1 H2]. split; [now right|].
           intros Hin. apply H2. now right.
Qed.

(** X27. The spellings [get_card_name_variants] returns start with the
    name as it was spoken, and no two of them are equal once lowercased. *)
Theorem name_variants_distinct (name : string) :
  (exists others, get_card_name_variants name = name :: others) /\
  NoDup (map PyStr.lower (get_card_name_variants name)).
Proof.
  unfold get_card_name_variants. cbn zeta. split.
  - cbn [List.app unique_variants existsb]. eexists. reflexivity.
  - apply unique_variants_distinct.
Qed.
